(** * TubeGen: generator for carbon nano tubes (tubegen.py)

    A shallow embedding of [tubegen.py] and the properties of its
    chirality algebra, ribbon assembly and tube embedding.

    Conventions of the embedding.
    - Python [int] is [Z]; [//] is [Z.div] and [%] is [Z.modulo] (both
      floor towards minus infinity, like Python, for a positive divisor);
      [math.gcd] is [Z.gcd].
    - The entries of [translation_vector_lat_basis] and the candidate [q]
      of [symmetry_vector] are float64 quotients of integers.  They are
      modelled twice: in float64, rounding included (module [F64]), and
      as exact rationals ([Q]).  The two agree while |2m+n| and |2n+m|
      are below 2^26 (lemma [symmetry_vector_float64]); the unit cell
      and the ribbon are built on the reading in exact rationals.
    - Every other float64 / numpy quantity (positions, norms, angles) is
      idealised as a real number ([R]); no rounding is modelled.
    - A raised exception is the [Err] case of [result].
    - [lattice] (Site, Lattice, shifted_lattice, Lattice.at) is imported by
      tubegen.py and is not part of it; what tubegen.py needs of it is
      modelled from its uses, and [Lattice.at] is a parameter. *)

From Stdlib Require Import ZArith QArith Qabs Qround Qreals Qpower Reals List String Ascii Bool Lia Lra Psatz Znumtheory.
Import ListNotations.

Local Open Scope Z_scope.

(** ** Exceptions and results *)

Inductive error : Type :=
| ZeroDivisionError
| OverflowError
| RuntimeError (msg : string)
| ParserError (msg : string).

Inductive result (A : Type) : Type :=
| Ok (a : A)
| Err (e : error).
Arguments Ok {A} a.
Arguments Err {A} e.

Definition bind {A B : Type} (r : result A) (k : A -> result B) : result B :=
  match r with
  | Ok a => k a
  | Err e => Err e
  end.

Notation "x <- r ;; k" := (bind r (fun x => k))
  (at level 61, r at next level, right associativity).

Definition is_ok {A : Type} (r : result A) : bool :=
  match r with Ok _ => true | Err _ => false end.

(** ** The generator object *)

Record TubeGen : Type := mkTubeGen {
  chirality : Z * Z;
  spacing : R
}.

(** [TubeGen.__init__] stores its two arguments and checks nothing. *)
Definition TubeGen_init (chir : Z * Z) (s : R) : result TubeGen :=
  Ok (mkTubeGen chir s).

(** ** Counting hexagons and atoms *)

(** Python's [a // b] on integers. *)
Definition floordiv (a b : Z) : result Z :=
  if b =? 0 then Err ZeroDivisionError else Ok (a / b).

Definition n_hex_ucell (gen : TubeGen) : result Z :=
  let '(n, m) := chirality gen in
  floordiv (2 * (m * m + n * n + m * n)) (Z.gcd (2 * m + n) (2 * n + m)).

Definition n_atoms_ucell (gen : TubeGen) : result Z :=
  h <- n_hex_ucell gen ;;
  Ok (2 * h).

(** ** Translation vector in the lattice basis *)

(** Python's [a / b] on integers, read in exact rationals: the
    quotient before it is rounded.  The float64 operation, with its
    rounding and the OverflowError of a quotient too large for a
    float64, is [F64.truediv] below; both return the same number when
    the quotient is an integer of at most 53 bits (lemma
    [truediv_exact_f64]). *)
Definition truediv (a b : Z) : result Q :=
  if b =? 0 then Err ZeroDivisionError else Ok (inject_Z a / inject_Z b)%Q.

Definition translation_vector_lat_basis (gen : TubeGen) : result (Q * Q) :=
  let '(n, m) := chirality gen in
  let dR := Z.gcd (2 * m + n) (2 * n + m) in
  t1 <- truediv (2 * m + n) dR ;;
  t2 <- truediv (2 * n + m) dR ;;
  Ok (t1, (- t2)%Q).

(** ** Search for the symmetry vector *)

(** [q % 1.] for a float [q]: the remainder has the sign of the divisor,
    so it is [q - floor q]. *)
Definition fmod1 (q : Q) : Q := (q - inject_Z (Qfloor q))%Q.

Definition tol : Q := (1 # 10000000000)%Q.

(** The candidate [q = (1 + p*t2)/t1] of the loop body. *)
Definition q_of (t1 t2 : Q) (p : Z) : Q := ((1 + inject_Z p * t2) / t1)%Q.

(** [np.abs(q%1.) < 1e-10], read in exact rationals.  When [t1] is
    zero numpy divides to an infinity or a nan, whose remainder is nan,
    and the comparison is False.  The test on the float64 [q] is
    [F64.close_to_integer] below; for integer [t1], [t2] with
    0 < |t1| < 2^26, |p| <= 2^53 and |p*t2| < 2^52 both pass exactly
    when [t1] divides [1 + p*t2] (lemmas [close_to_integer_exact],
    [close_to_integer_divides] and [f64_test_divides]). *)
Definition close_to_integer (t1 t2 : Q) (p : Z) : bool :=
  if Qeq_bool t1 0 then false
  else negb (Qle_bool tol (Qabs (fmod1 (q_of t1 t2 p)))).

(** [for p in range(1, N+1)]: the first [p] passing the test, with [cnt]
    candidates left to try from [p] on. *)
Fixpoint search_p (t1 t2 : Q) (cnt : nat) (p : Z) : option Z :=
  match cnt with
  | O => None
  | S cnt' =>
      if close_to_integer t1 t2 p then Some p
      else search_p t1 t2 cnt' (p + 1)
  end.

Definition no_symmetry_vector : error :=
  RuntimeError "Unable to find symmetry vector".

(** ** Plane and space vectors (numpy arrays of two or three floats) *)

Definition Vec2 : Type := (R * R)%type.
Definition Vec3 : Type := (R * R * R)%type.

Definition vadd (u v : Vec2) : Vec2 := (fst u + fst v, snd u + snd v)%R.
Definition vsub (u v : Vec2) : Vec2 := (fst u - fst v, snd u - snd v)%R.
Definition vscale (c : R) (v : Vec2) : Vec2 := (c * fst v, c * snd v)%R.
Definition vdiv (v : Vec2) (c : R) : Vec2 := (fst v / c, snd v / c)%R.
Definition dot (u v : Vec2) : R := (fst u * fst v + snd u * snd v)%R.
Definition norm (v : Vec2) : R := sqrt (fst v * fst v + snd v * snd v).

(** Float [x % y]: the remainder with the sign of the divisor. *)
Definition fmod (x y : R) : R := (x - y * IZR (Zfloor (x / y)))%R.

(** ** Vector algebra of the tube *)

Definition unit_vectors (gen : TubeGen) : Vec2 * Vec2 :=
  (vscale (spacing gen) (3 / 2, sqrt 3 / 2)%R,
   vscale (spacing gen) (3 / 2, - sqrt 3 / 2)%R).

Definition chiral_vector (gen : TubeGen) : Vec2 :=
  let '(a1, a2) := unit_vectors gen in
  vadd (vscale (IZR (fst (chirality gen))) a1)
       (vscale (IZR (snd (chirality gen))) a2).

Definition circumference (gen : TubeGen) : R := norm (chiral_vector gen).

Definition diameter (gen : TubeGen) : R := (circumference gen / PI)%R.

Definition translation_vector (gen : TubeGen) : result Vec2 :=
  let '(a1, a2) := unit_vectors gen in
  t <- translation_vector_lat_basis gen ;;
  Ok (vadd (vscale (Q2R (fst t)) a1) (vscale (Q2R (snd t)) a2)).

Definition symmetry_vector (gen : TubeGen) : result Vec2 :=
  let '(a1, a2) := unit_vectors gen in
  t <- translation_vector_lat_basis gen ;;
  N <- n_atoms_ucell gen ;;
  match search_p (fst t) (snd t) (Z.to_nat N) 1 with
  | Some p => Ok (vadd (vscale (IZR p) a1)
                       (vscale (Q2R (q_of (fst t) (snd t) p)) a2))
  | None => Err no_symmetry_vector
  end.

(** ** The same computations in float64

    [translation_vector_lat_basis] and the loop of [symmetry_vector]
    run on float64 numbers.  The module below follows them operation by
    operation: a float64 is a rational that the format holds, an
    infinity or a nan; every operation computes the exact result and
    rounds it to the nearest float64, ties to even (53 significant bits,
    exponents from -1074 for the last subnormal bit to 1023), the way
    IEEE 754 asks.  Two things are left out.  The sign of a zero is not
    kept; it can only decide the sign of an infinity coming out of a
    division by zero, and both infinities fail the test of the loop.
    The last line of [symmetry_vector], [p*a1 + q*a2], is read in real
    numbers like every other position of this file.

    The definitions above, outside this module, are the reading of the
    same code in exact rationals; the two readings give the same
    translation vector and the same [p] and [q] as long as
    |2m+n| and |2n+m| stay below 2^26. *)

Module F64.

Inductive f64 : Type :=
| Fin (x : Q)
| Inf (neg : bool)
| NaN.

(** A finite value, in lowest terms. *)
Definition fin (x : Q) : f64 := Fin (Qred x).

(** [2^e] for an integer [e] of either sign. *)
Definition pow2 (e : Z) : Q :=
  if 0 <=? e then inject_Z (2 ^ e) else 1 # Z.to_pos (2 ^ (- e)).

(** The binary exponent of a positive rational: [2^e <= x < 2^(e+1)]. *)
Definition ilog2 (x : Q) : Z :=
  let e := Z.log2 (Qnum x) - Z.log2 (Zpos (Qden x)) in
  if Qle_bool (pow2 e) x then e else e - 1.

(** The nearest integer, the even one of two at the same distance. *)
Definition round_half_even (y : Q) : Z :=
  let f := Qfloor y in
  match (y - inject_Z f ?= 1 # 2)%Q with
  | Lt => f
  | Gt => f + 1
  | Eq => if Z.even f then f else f + 1
  end.

(** The exponent of the last bit of the float64 numbers around [x]. *)
Definition ulp_exp (x : Q) : Z := Z.max (ilog2 (Qabs x)) (-1022) - 52.

(** Rounding a nonzero rational, given in lowest terms, to the nearest
    float64: the nearest multiple of the last bit, an infinity when
    that is 2^1024 or more. *)
Definition round_nonzero (x : Q) : f64 :=
  let s := ulp_exp x in
  let y := (inject_Z (round_half_even (x / pow2 s)) * pow2 s)%Q in
  if Qle_bool (pow2 1024) (Qabs y) then Inf (Qnum x <? 0) else fin y.

(** Rounding to the nearest float64. *)
Definition round (x : Q) : f64 :=
  if Qeq_bool x 0 then fin 0 else round_nonzero (Qred x).

Definition is_zero (x : Q) : bool := Qeq_bool x 0.

Definition negative (x : Q) : bool := Qnum x <? 0.

(** [-x] *)
Definition neg (x : f64) : f64 :=
  match x with
  | Fin q => fin (- q)
  | Inf s => Inf (negb s)
  | NaN => NaN
  end.

(** [x * y] *)
Definition mul (x y : f64) : f64 :=
  match x, y with
  | Fin a, Fin b => round (a * b)
  | Fin a, Inf s => if is_zero a then NaN else Inf (xorb (negative a) s)
  | Inf s, Fin b => if is_zero b then NaN else Inf (xorb s (negative b))
  | Inf s, Inf s' => Inf (xorb s s')
  | _, _ => NaN
  end.

(** [x + y] *)
Definition add (x y : f64) : f64 :=
  match x, y with
  | Fin a, Fin b => round (a + b)
  | Fin _, Inf s => Inf s
  | Inf s, Fin _ => Inf s
  | Inf s, Inf s' => if Bool.eqb s s' then Inf s else NaN
  | _, _ => NaN
  end.

(** [x / y] on numpy floats: a division by zero gives an infinity or a
    nan (and a warning), not an exception. *)
Definition div (x y : f64) : f64 :=
  match x, y with
  | Fin a, Fin b =>
      if is_zero b then (if is_zero a then NaN else Inf (negative a))
      else round (a / b)
  | Fin _, Inf _ => fin 0
  | Inf s, Fin b => Inf (xorb s (negative b))
  | _, _ => NaN
  end.

(** [x % 1.] on a numpy float: the C [fmod], which is exact and has the
    sign of [x], then [+ 1.] when that remainder is negative. *)
Definition mod1 (x : f64) : f64 :=
  match x with
  | Fin q =>
      let r := (q - inject_Z (if negative q then Qceiling q else Qfloor q))%Q in
      if negative r then round (r + 1) else fin r
  | _ => NaN
  end.

(** [np.abs(x)] *)
Definition abs (x : f64) : f64 :=
  match x with
  | Fin q => fin (Qabs q)
  | Inf _ => Inf false
  | NaN => NaN
  end.

(** [x < y]; a comparison with a nan is False. *)
Definition lt (x y : f64) : bool :=
  match x, y with
  | Fin a, Fin b => negb (Qle_bool b a)
  | Fin _, Inf s => negb s
  | Inf s, Fin _ => s
  | Inf s, Inf s' => s && negb s'
  | _, _ => false
  end.

(** The float64 a Python [int] converts to. *)
Definition of_int (p : Z) : result f64 :=
  match round (inject_Z p) with
  | Inf _ => Err OverflowError
  | x => Ok x
  end.

(** Python's [a / b] on integers: the float64 nearest to the quotient. *)
Definition truediv (a b : Z) : result f64 :=
  if b =? 0 then Err ZeroDivisionError
  else match round (inject_Z a / inject_Z b) with
       | Inf _ => Err OverflowError
       | x => Ok x
       end.

Definition translation_vector_lat_basis (gen : TubeGen) : result (f64 * f64) :=
  let '(n, m) := chirality gen in
  let dR := Z.gcd (2 * m + n) (2 * n + m) in
  t1 <- truediv (2 * m + n) dR ;;
  t2 <- truediv (2 * n + m) dR ;;
  Ok (t1, neg t2).

(** The literal [1e-10]. *)
Definition tol : f64 := round (1 # 10000000000).

(** [q = (1 + p*t2)/t1] *)
Definition q_of (t1 t2 : f64) (p : Z) : result f64 :=
  pf <- of_int p ;;
  Ok (div (add (fin 1) (mul pf t2)) t1).

(** [np.abs(q%1.) < 1e-10] *)
Definition close_to_integer (q : f64) : bool := lt (abs (mod1 q)) tol.

(** [for p in range(1, N+1)]: the first [p] whose [q] passes the test,
    with that [q]. *)
Fixpoint search_p (t1 t2 : f64) (cnt : nat) (p : Z) : result (option (Z * f64)) :=
  match cnt with
  | O => Ok None
  | S cnt' =>
      q <- q_of t1 t2 p ;;
      if close_to_integer q then Ok (Some (p, q))
      else search_p t1 t2 cnt' (p + 1)
  end.

(** The [p] and [q] with which [symmetry_vector] returns. *)
Definition symmetry_pq (gen : TubeGen) : result (Z * f64) :=
  t <- translation_vector_lat_basis gen ;;
  N <- n_atoms_ucell gen ;;
  r <- search_p (fst t) (snd t) (Z.to_nat N) 1 ;;
  match r with
  | Some pq => Ok pq
  | None => Err no_symmetry_vector
  end.

(** A finite float64 as a real number (a [q] that passes the test is
    finite). *)
Definition to_R (x : f64) : R :=
  match x with
  | Fin q => Q2R q
  | _ => 0%R
  end.

Definition symmetry_vector (gen : TubeGen) : result Vec2 :=
  let '(a1, a2) := unit_vectors gen in
  pq <- symmetry_pq gen ;;
  Ok (vadd (vscale (IZR (fst pq)) a1) (vscale (to_R (snd pq)) a2)).

End F64.

(** ** Sites and lattices

    Modelled from the spec: [lattice.Site] and [lattice.Lattice], which
    tubegen.py imports.  A site has an index, a position, the list of its
    neighbours' indices and the list of hopping strengths; the
    attributes tubegen.py attaches with [site[key] = value] (even, pad_ch,
    pad_t, cross_ch_boundary, cross_t_boundary) are fields here.
    tubegen.py reads an attribute only of sites on which it has set it;
    a site created without one carries the empty value.  The position
    type is a parameter: ribbons are plane, tubes are spatial. *)

Record Site (P : Type) : Type := mkSite {
  idx : Z;
  pos : P;
  neighbours : list Z;
  hopping : list Z;
  even : bool;
  pad_ch : Z;
  pad_t : Z;
  cross_ch_boundary : list Z;
  cross_t_boundary : list Z
}.
Arguments mkSite {P} _ _ _ _ _ _ _ _ _.
Arguments idx {P} _.
Arguments pos {P} _.
Arguments neighbours {P} _.
Arguments hopping {P} _.
Arguments even {P} _.
Arguments pad_ch {P} _.
Arguments pad_t {P} _.
Arguments cross_ch_boundary {P} _.
Arguments cross_t_boundary {P} _.

(** [lattice.Site(idx, pos, neighbours, hopping)] *)
Definition new_site {P : Type} (i : Z) (p : P) (nb hop : list Z) : Site P :=
  mkSite i p nb hop false 0 0 [] [].

(** [lattice.Site(idx, pos, even=e)] *)
Definition new_site_even {P : Type} (i : Z) (p : P) (e : bool) : Site P :=
  mkSite i p [] [] e 0 0 [] [].

Definition set_idx {P : Type} (s : Site P) (i : Z) : Site P :=
  mkSite i (pos s) (neighbours s) (hopping s) (even s) (pad_ch s) (pad_t s)
         (cross_ch_boundary s) (cross_t_boundary s).

Definition set_pos {P : Type} (s : Site P) (p : P) : Site P :=
  mkSite (idx s) p (neighbours s) (hopping s) (even s) (pad_ch s) (pad_t s)
         (cross_ch_boundary s) (cross_t_boundary s).

Definition set_neighbours {P : Type} (s : Site P) (nb : list Z) : Site P :=
  mkSite (idx s) (pos s) nb (hopping s) (even s) (pad_ch s) (pad_t s)
         (cross_ch_boundary s) (cross_t_boundary s).

Definition set_pad {P : Type} (s : Site P) (pc pt : Z) : Site P :=
  mkSite (idx s) (pos s) (neighbours s) (hopping s) (even s) pc pt
         (cross_ch_boundary s) (cross_t_boundary s).

(** The four assignments that end the loop body of [_connect_sites]. *)
Definition set_bonds {P : Type} (s : Site P) (nb hop xch xt : list Z) : Site P :=
  mkSite (idx s) (pos s) nb hop (even s) (pad_ch s) (pad_t s) xch xt.

Inductive lat_name : Type :=
| Unnamed
| RibbonName (n m : Z)
| TubeName (n m : Z)
| GivenName (s : string).

Record Lattice (P : Type) : Type := mkLattice {
  name : lat_name;
  comment : string;
  sites : list (Site P)
}.
Arguments mkLattice {P} _ _ _.
Arguments name {P} _.
Arguments comment {P} _.
Arguments sites {P} _.

(** Modelled from the spec: [lattice.shifted_lattice], a new collection
    whose sites are copies moved by [v], all attributes kept. *)
Definition shifted_lattice (lat : list (Site Vec2)) (v : Vec2) : list (Site Vec2) :=
  map (fun s => set_pos s (vadd (pos s) v)) lat.

(** [range(n)] *)
Definition range (n : Z) : list Z := map Z.of_nat (seq 0 (Z.to_nat n)).

(** ** Sewing the unit cells of a ribbon together *)

(** A bound of a Python slice, clamped the way [list.__getitem__] does. *)
Definition slice_index (len k : Z) : nat :=
  Z.to_nat (if k <? 0 then Z.max (k + len) 0 else Z.min k len).

(** The effect of [for x in l[lo:hi]: x.<attr> = ...] on the list [l]:
    the sites at the positions of the slice are updated, the others are
    left as they are. *)
Definition map_slice {A : Type} (f : A -> A) (lo hi : Z) (l : list A) : list A :=
  let len := Z.of_nat (List.length l) in
  let a := slice_index len lo in
  let b := slice_index len hi in
  firstn a l ++ map f (firstn (b - a) (skipn a l)) ++ skipn (a + (b - a)) l.

(** One turn of the innermost loop of [_sow_cells]: what is appended to
    [neighbours] for the bond [(neigh, xchb, xtb)] of a site of cell [i];
    [None] when nothing is appended. *)
Definition resolve_bond (n_ucells luc : Z) (bc_ch bc_t : string) (i : Z)
  (bond : Z * Z * Z) : option Z :=
  let '(neigh, xchb, xtb) := bond in
  if (xchb =? 0) || (bc_ch =? "periodic")%string then
    if xtb =? 0 then
      Some (neigh + i * luc)
    else if (xtb =? 1) && ((bc_t =? "periodic")%string || negb (i =? n_ucells - 1)) then
      Some (neigh + (i + 1) mod n_ucells * luc)
    else if (xtb =? -1) && ((bc_t =? "periodic")%string || negb (i =? 0)) then
      Some (neigh + (i - 1) mod n_ucells * luc)
    else None
  else None.

(** [zip(site.neighbours, site["cross_ch_boundary"], site["cross_t_boundary"])] *)
Definition bonds {P : Type} (s : Site P) : list (Z * Z * Z) :=
  combine (combine (neighbours s) (cross_ch_boundary s)) (cross_t_boundary s).

Fixpoint resolve_bonds (n_ucells luc : Z) (bc_ch bc_t : string) (i : Z)
  (bs : list (Z * Z * Z)) : list Z :=
  match bs with
  | [] => []
  | b :: bs' =>
      match resolve_bond n_ucells luc bc_ch bc_t i b with
      | Some t => t :: resolve_bonds n_ucells luc bc_ch bc_t i bs'
      | None => resolve_bonds n_ucells luc bc_ch bc_t i bs'
      end
  end.

(** The body of the loop over the sites of cell [i]: only [neighbours]
    is assigned. *)
Definition sow_site {P : Type} (n_ucells luc : Z) (bc_ch bc_t : string) (i : Z)
  (s : Site P) : Site P :=
  set_neighbours s (resolve_bonds n_ucells luc bc_ch bc_t i (bonds s)).

Definition _sow_cells {P : Type} (sites : list (Site P)) (n_ucells luc : Z)
  (bc_ch bc_t : string) : list (Site P) :=
  fold_left
    (fun l i => map_slice (sow_site n_ucells luc bc_ch bc_t i)
                          (i * luc) ((i + 1) * luc) l)
    (range n_ucells) sites.

(** The first loop of [make_ribbon]: [n_ucells] copies of the unit
    cell, the [i]-th moved by [i*T] and its indices raised by
    [i*len(ucell)]. *)
Definition replicate_cells (ucell : list (Site Vec2)) (T : Vec2) (n_ucells : Z) :
  list (Site Vec2) :=
  flat_map
    (fun i =>
       map (fun site => set_idx site (idx site + i * Z.of_nat (List.length ucell)))
           (shifted_lattice ucell (vscale (IZR i) T)))
    (range n_ucells).

(** ** Rolling a ribbon into a tube *)

Definition roll_tube (gen : TubeGen) (ribbon : Lattice Vec2) : result (Lattice Vec3) :=
  let Ch := chiral_vector gen in
  let ch := norm Ch in
  let uCh := vdiv Ch ch in
  T <- translation_vector gen ;;
  let t := norm T in
  let uT := vdiv T t in
  let radius := (diameter gen / 2)%R in
  let angle_conversion := (2 * PI / norm (chiral_vector gen))%R in
  Ok (mkLattice
        (TubeName (fst (chirality gen)) (snd (chirality gen)))
        ""%string
        (map (fun site =>
                let phi := (angle_conversion * dot (pos site) uCh)%R in
                let z := dot (pos site) uT in
                new_site (idx site)
                         (radius * cos phi, radius * sin phi, z)%R
                         (neighbours site) (hopping site))
             (sites ribbon))).

(** ** Building and connecting one unit cell, assembling the ribbon *)

(** [itertools.product((0, +1, -1), repeat=2)] *)
Definition pad_offsets : list (Z * Z) :=
  [(0, 0); (0, 1); (0, -1); (1, 0); (1, 1); (1, -1); (-1, 0); (-1, 1); (-1, -1)].

Definition _padded_lattice (gen : TubeGen) (lat : list (Site Vec2)) :
  result (list (Site Vec2)) :=
  let Ch := chiral_vector gen in
  T <- translation_vector gen ;;
  Ok (flat_map
        (fun '(pc, pt) =>
           map (fun s => set_pad s pc pt)
               (shifted_lattice lat (vadd (vscale (IZR pc) Ch) (vscale (IZR pt) T))))
        pad_offsets).

(** [[1]*k] *)
Definition ones (k : nat) : list Z := repeat 1 k.

(** The command line, as [argparse] hands it over. *)
Record Args : Type := mkArgs {
  arg_chirality : Z * Z;
  arg_length : Z;
  arg_bc_ch : string;
  arg_bc_t : string;
  arg_emb : string;
  arg_spacing : R;
  arg_name : string;
  arg_comment : string
}.

(** [str.lower] on the characters of the ASCII range; the other bytes
    are kept (no character outside ASCII lowers to a letter of the
    tokens compared below). *)
Definition lower_ascii (c : ascii) : ascii :=
  let n := nat_of_ascii c in
  if ((65 <=? n) && (n <=? 90))%nat then ascii_of_nat (n + 32) else c.

Fixpoint lower (s : string) : string :=
  match s with
  | EmptyString => EmptyString
  | String c s' => String (lower_ascii c) (lower s')
  end.

(** The [if ... == "p" ... elif ... == "o"] applied to each boundary
    condition once it is lower-cased. *)
Definition expand_shorthand (b : string) : string :=
  if (b =? "p")%string then "periodic"%string
  else if (b =? "o")%string then "open"%string
  else b.

Definition _parse_args (a : Args) : result Args :=
  let emb := lower (arg_emb a) in
  if negb ((emb =? "2d")%string || (emb =? "3d")%string) then
    Err (ParserError ("Unknown embedding: " ++ emb))
  else
    let bc_ch := expand_shorthand (lower (arg_bc_ch a)) in
    if negb ((bc_ch =? "periodic")%string || (bc_ch =? "open")%string) then
      Err (ParserError ("Unknown boundary condition for bc_ch: " ++ bc_ch))
    else
      let bc_t := expand_shorthand (lower (arg_bc_t a)) in
      if negb ((bc_t =? "periodic")%string || (bc_t =? "open")%string) then
        Err (ParserError ("Unknown boundary condition for bc_t: " ++ bc_t))
      else
        Ok (mkArgs (arg_chirality a) (arg_length a) bc_ch bc_t emb
                   (arg_spacing a) (arg_name a) (arg_comment a)).

(** The ribbon or the tube that [run] returns. *)
Inductive structure : Type :=
| Flat (lat : Lattice Vec2)
| Rolled (lat : Lattice Vec3).

Definition rename (nm cm : string) (st : structure) : structure :=
  let pick {P} (l : Lattice P) : Lattice P :=
    mkLattice (if (nm =? "")%string then name l else GivenName nm)
              (if (cm =? "")%string then comment l else cm)
              (sites l) in
  match st with
  | Flat l => Flat (pick l)
  | Rolled l => Rolled (pick l)
  end.

Section Generation.

(** Modelled from the spec: [Lattice.at], the tolerant lookup of the
    site at a position; [None] when there is no site there. *)
Variable at_ : list (Site Vec2) -> Vec2 -> option (Site Vec2).

(** The three lookups of one site of [_connect_sites], in the order of
    the shifts; each hit contributes (index, pad_ch, pad_t). *)
Definition find_neighbours (padded : list (Site Vec2)) (shifts : list Vec2)
  (site : Site Vec2) : list (Z * Z * Z) :=
  flat_map
    (fun shift =>
       let shifted := if even site then vadd (pos site) shift
                      else vsub (pos site) shift in
       match at_ padded shifted with
       | Some neighbour => [(idx neighbour, pad_ch neighbour, pad_t neighbour)]
       | None => []
       end)
    shifts.

Definition _connect_sites (gen : TubeGen) (lat : list (Site Vec2)) :
  result (list (Site Vec2)) :=
  padded <- _padded_lattice gen lat ;;
  let '(a1, a2) := unit_vectors gen in
  let shift0 := vscale (1 / 3)%R (vadd a1 a2) in
  let shift1 := vsub shift0 a1 in
  let shift2 := vsub shift0 a2 in
  Ok (map (fun site =>
             let found := find_neighbours padded [shift0; shift1; shift2] site in
             let neighbours := map (fun b => fst (fst b)) found in
             set_bonds site neighbours (ones (List.length neighbours))
                       (map (fun b => snd (fst b)) found)
                       (map (fun b => snd b) found))
          lat).

Definition _make_ucell (gen : TubeGen) : result (list (Site Vec2)) :=
  let Ch := chiral_vector gen in
  let ch := norm Ch in
  let uCh := vdiv Ch ch in
  T <- translation_vector gen ;;
  let t := norm T in
  let uT := vdiv T t in
  R <- symmetry_vector gen ;;
  let '(a1, a2) := unit_vectors gen in
  let eo_shift := vscale (1 / 3)%R (vadd a1 a2) in
  N <- n_atoms_ucell gen ;;
  let place (v : Vec2) : Vec2 :=
    let psi := fmod (dot v uCh) ch in
    let tau := fmod (dot v uT) t in
    vadd (vscale psi uCh) (vscale tau uT) in
  let ucell :=
    flat_map
      (fun i =>
         [new_site_even (2 * i) (place (vscale (IZR i) R)) true;
          new_site_even (2 * i + 1) (place (vadd (vscale (IZR i) R) eo_shift)) false])
      (range (N / 2)) in
  _connect_sites gen ucell.

Definition make_ribbon (gen : TubeGen) (n_ucells : Z) (bc_ch bc_t : string) :
  result (Lattice Vec2) :=
  T <- translation_vector gen ;;
  ucell <- _make_ucell gen ;;
  let luc := Z.of_nat (List.length ucell) in
  let ribbon := replicate_cells ucell T n_ucells in
  Ok (mkLattice (RibbonName (fst (chirality gen)) (snd (chirality gen)))
                ""%string
                (_sow_cells ribbon n_ucells luc bc_ch bc_t)).

(** [run] after [_parse_args]: the generator is built and called with
    the parsed arguments. *)
Definition generate (args : Args) : result structure :=
  let gen := mkTubeGen (arg_chirality args) (arg_spacing args) in
  lat <- make_ribbon gen (arg_length args) (arg_bc_ch args) (arg_bc_t args) ;;
  st <- (if (arg_emb args =? "3d")%string
         then (tube <- roll_tube gen lat ;; Ok (Rolled tube))
         else Ok (Flat lat)) ;;
  Ok (rename (arg_name args) (arg_comment args) st).

Definition run (in_args : Args) : result structure :=
  args <- _parse_args in_args ;;
  generate args.

End Generation.

(** ** Auxiliary notions used in the statements *)

(** The remainder that decides the test when [t1 = a] and [t2 = b] are
    integers: [q % 1] is [residue a b p / |a|]. *)
Definition residue (a b p : Z) : Z := (Z.sgn a * (1 + p * b)) mod Z.abs a.

(** The tokens the command line accepts for a boundary condition, once
    lower-cased. *)
Definition is_bc_token (b : string) : Prop :=
  b = "p"%string \/ b = "o"%string \/ b = "periodic"%string \/ b = "open"%string.

(** The three tokens of a command line are all recognised. *)
Definition tokens_ok (a : Args) : Prop :=
  (lower (arg_emb a) = "2d"%string \/ lower (arg_emb a) = "3d"%string) /\
  is_bc_token (lower (arg_bc_ch a)) /\ is_bc_token (lower (arg_bc_t a)).

(** A lookup that never finds a site. *)
Definition no_site (padded : list (Site Vec2)) (p : Vec2) : option (Site Vec2) :=
  None.

Definition gen_1_1 : TubeGen := mkTubeGen (1, 1) 1%R.

Definition gen_3_1 : TubeGen := mkTubeGen (3, 1) 1%R.

(** The symmetry vector of chirality (3, 1): p = 3 and q = -4. *)
Definition symmetry_vector_3_1 : Vec2 :=
  vadd (vscale (IZR 3) (fst (unit_vectors gen_3_1)))
       (vscale (F64.to_R (F64.Fin (inject_Z (-4)))) (snd (unit_vectors gen_3_1))).


(** The boundary conditions the class documents. *)
Definition valid_bc (bc : string) : Prop :=
  bc = "periodic"%string \/ bc = "open"%string.

(** The bond of a site of cell [i] with crossing flags [(xch, xt)] is
    to be dropped. *)
Definition dropped (n_ucells : Z) (bc_ch bc_t : string) (i xch xt : Z) : Prop :=
  (xch <> 0 /\ bc_ch = "open"%string) \/
  (xt = 1 /\ bc_t = "open"%string /\ i = n_ucells - 1) \/
  (xt = -1 /\ bc_t = "open"%string /\ i = 0).

(** The cell a kept bond leads to. *)
Definition target_cell (n_ucells i xt : Z) : Z :=
  if xt =? 0 then i
  else if xt =? 1 then (i + 1) mod n_ucells
  else (i - 1) mod n_ucells.

(** The same condition as a test. *)
Definition droppedb (n_ucells : Z) (bc_ch bc_t : string) (i xch xt : Z) : bool :=
  (negb (xch =? 0) && (bc_ch =? "open")%string)
  || ((xt =? 1) && (bc_t =? "open")%string && (i =? n_ucells - 1))
  || ((xt =? -1) && (bc_t =? "open")%string && (i =? 0)).

(** The neighbours the specification asks for at a site of cell [i]:
    the recorded bonds in their order, the dropped ones left out, each
    kept one replaced by its cell-local index in the target cell. *)
Definition kept_targets (n_ucells luc : Z) (bc_ch bc_t : string) (i : Z)
  (bs : list (Z * Z * Z)) : list Z :=
  map (fun b => fst (fst b) + target_cell n_ucells i (snd b) * luc)
      (filter (fun b => negb (droppedb n_ucells bc_ch bc_t i (snd (fst b)) (snd b))) bs).

(** A recorded bond as [_connect_sites] leaves it: a cell-local index
    and two flags in {-1, 0, 1}. *)
Definition bond_ok (luc : Z) (b : Z * Z * Z) : bool :=
  let '(neigh, xch, xt) := b in
  (0 <=? neigh) && (neigh <? luc) &&
  (-1 <=? xch) && (xch <=? 1) && (-1 <=? xt) && (xt <=? 1).

Definition site_ok {P : Type} (luc : Z) (s : Site P) : bool :=
  forallb (bond_ok luc) (bonds s).

(** The unit cell of chirality (1, 1) at spacing 1, as [_make_ucell]
    builds it: Ch = (3, 0), T = (0, sqrt 3), R = a1; the four sites and,
    for each, the three lookups of [_connect_sites] traced by hand. *)
Definition ucell_1_1 : list (Site Vec2) :=
  [ mkSite 0 (0, 0)%R [1; 3; 3] [1; 1; 1] true 0 0 [0; -1; -1] [0; -1; 0];
    mkSite 1 (1, 0)%R [0; 2; 2] [1; 1; 1] false 0 0 [0; 0; 0] [0; 0; -1];
    mkSite 2 (3 / 2, sqrt 3 / 2)%R [3; 1; 1] [1; 1; 1] true 0 0 [0; 0; 0] [0; 0; 1];
    mkSite 3 (5 / 2, sqrt 3 / 2)%R [2; 0; 0] [1; 1; 1] false 0 0 [0; 1; 1] [0; 1; 0] ].

(** Two such cells in a row, before [_sow_cells]. *)
Definition ribbon_1_1 : list (Site Vec2) :=
  replicate_cells ucell_1_1 (0, sqrt 3)%R 2.

(** A lookup answers only with sites of the lattice it searches. *)
Definition at_within (at_ : list (Site Vec2) -> Vec2 -> option (Site Vec2)) : Prop :=
  forall l p s, at_ l p = Some s -> In s l.

(** A lookup that answers with the first site of the lattice. *)
Definition first_site (padded : list (Site Vec2)) (p : Vec2) : option (Site Vec2) :=
  hd_error padded.

(** The two-cell (1, 1) ribbon as a lattice. *)
Definition ribbon_lattice_1_1 : Lattice Vec2 :=
  mkLattice (RibbonName 1 1) ""%string ribbon_1_1.





(** * Properties *)

(** ** Hexagon and atom counts *)

Lemma dR_zero_iff (n m : Z) :
  Z.gcd (2 * m + n) (2 * n + m) = 0 <-> n = 0 /\ m = 0.
Proof.
  split.
  - intros H. apply Z.gcd_eq_0 in H. lia.
  - intros [-> ->]. reflexivity.
Qed.

Lemma dR_divides_hexes (n m : Z) :
  (Z.gcd (2 * m + n) (2 * n + m) | 2 * (m * m + n * n + m * n)).
Proof.
  replace (2 * (m * m + n * n + m * n))
    with (m * (2 * m + n) + n * (2 * n + m)) by ring.
  apply Z.divide_add_r; apply Z.divide_mul_r.
  - apply Z.gcd_divide_l.
  - apply Z.gcd_divide_r.
Qed.

(** The reduced entries [a = (2m+n)/dR], [b = (2n+m)/dR] of the
    translation vector: integers, coprime, and the hexagon count is
    [m*a + n*b]. *)
Lemma reduced_entries (n m : Z) :
  Z.gcd (2 * m + n) (2 * n + m) <> 0 ->
  exists a b,
    2 * m + n = a * Z.gcd (2 * m + n) (2 * n + m) /\
    2 * n + m = b * Z.gcd (2 * m + n) (2 * n + m) /\
    Z.gcd a b = 1 /\
    2 * (m * m + n * n + m * n) / Z.gcd (2 * m + n) (2 * n + m) = m * a + n * b.
Proof.
  intros Hd.
  set (d := Z.gcd (2 * m + n) (2 * n + m)) in *.
  destruct (Z.gcd_divide_l (2 * m + n) (2 * n + m)) as [a Ha].
  destruct (Z.gcd_divide_r (2 * m + n) (2 * n + m)) as [b Hb].
  fold d in Ha, Hb.
  exists a, b. repeat split; trivial.
  - assert (Hg : Z.gcd (a * d) (b * d) = d) by (rewrite <- Ha, <- Hb; reflexivity).
    rewrite Z.gcd_mul_mono_r in Hg.
    assert (0 <= d) by apply Z.gcd_nonneg.
    rewrite (Z.abs_eq d) in Hg by lia.
    assert (0 <= Z.gcd a b) by apply Z.gcd_nonneg.
    nia.
  - replace (2 * (m * m + n * n + m * n)) with ((m * a + n * b) * d).
    + apply Z.div_mul; assumption.
    + transitivity (m * (a * d) + n * (b * d)); [ring |].
      rewrite <- Ha, <- Hb. ring.
Qed.

(** C6.  For a chirality (n, m) with n >= m >= 1, [n_hex_ucell] returns
    2(n^2 + m^2 + nm) / gcd(2m+n, 2n+m), a division of integers that
    leaves no remainder; [n_atoms_ucell] returns twice that, an even
    number. *)
Theorem n_hex_ucell_formula (s : R) (n m : Z) :
  1 <= m <= n ->
  let gen := mkTubeGen (n, m) s in
  let dR := Z.gcd (2 * m + n) (2 * n + m) in
  exists h,
    n_hex_ucell gen = Ok h /\
    h = 2 * (n * n + m * m + n * m) / dR /\
    h * dR = 2 * (n * n + m * m + n * m) /\
    n_atoms_ucell gen = Ok (2 * h) /\
    Z.even (2 * h) = true.
Proof.
  intros Hnm gen dR.
  assert (Hd : dR <> 0).
  { unfold dR. intros H0. apply dR_zero_iff in H0. lia. }
  assert (Hhex : n_hex_ucell gen = Ok (2 * (m * m + n * n + m * n) / dR)).
  { unfold n_hex_ucell, floordiv. cbn [chirality gen]. fold dR.
    destruct (Z.eqb_spec dR 0); [contradiction | reflexivity]. }
  exists (2 * (m * m + n * n + m * n) / dR).
  split; [exact Hhex |].
  split; [f_equal; ring |].
  split.
  - destruct (dR_divides_hexes n m) as [k Hk]. fold dR in Hk.
    replace (2 * (n * n + m * m + n * m)) with (2 * (m * m + n * n + m * n)) by ring.
    rewrite Hk, Z.div_mul by assumption. reflexivity.
  - split.
    + unfold n_atoms_ucell. rewrite Hhex. reflexivity.
    + rewrite Z.even_mul. reflexivity.
Qed.

Lemma n_hex_ucell_formula_witness :
  exists h,
    n_hex_ucell (mkTubeGen (2, 1) 1%R) = Ok h /\
    h = 2 * (2 * 2 + 1 * 1 + 2 * 1) / Z.gcd (2 * 1 + 2) (2 * 2 + 1) /\
    h * Z.gcd (2 * 1 + 2) (2 * 2 + 1) = 2 * (2 * 2 + 1 * 1 + 2 * 1) /\
    n_atoms_ucell (mkTubeGen (2, 1) 1%R) = Ok (2 * h) /\
    Z.even (2 * h) = true.
Proof.
  apply (n_hex_ucell_formula 1%R 2 1). lia.
Defined.

(** ** The integrality test of the symmetry-vector search *)

Lemma close_to_integer_compat (t1 t1' t2 t2' : Q) (p : Z) :
  (t1 == t1')%Q -> (t2 == t2')%Q ->
  close_to_integer t1 t2 p = close_to_integer t1' t2' p.
Proof.
  intros H1 H2. unfold close_to_integer, fmod1, q_of.
  rewrite (Qeqb_comp t1 t1' H1 0%Q 0%Q (Qeq_refl 0)).
  destruct (Qeq_bool t1' 0); [reflexivity |].
  f_equal.
  assert (Hq : ((1 + inject_Z p * t2) / t1 == (1 + inject_Z p * t2') / t1')%Q)
    by (rewrite H1, H2; reflexivity).
  rewrite (Qfloor_comp _ _ Hq).
  assert (Hf : (Qabs ((1 + inject_Z p * t2) / t1
                      - inject_Z (Qfloor ((1 + inject_Z p * t2') / t1')))
                == Qabs ((1 + inject_Z p * t2') / t1'
                      - inject_Z (Qfloor ((1 + inject_Z p * t2') / t1'))))%Q)
    by (rewrite Hq; reflexivity).
  destruct (Qle_bool tol _) eqn:E1; destruct (Qle_bool tol (Qabs ((1 + inject_Z p * t2') / t1' - _))) eqn:E2;
    trivial.
  - apply Qle_bool_iff in E1. rewrite Hf in E1. apply Qle_bool_iff in E1. congruence.
  - apply Qle_bool_iff in E2. rewrite <- Hf in E2. apply Qle_bool_iff in E2. congruence.
Qed.

Lemma q_of_integers (a b p : Z) :
  a <> 0 ->
  (q_of (inject_Z a) (inject_Z b) p
   == (Z.sgn a * (1 + p * b)) # Z.to_pos (Z.abs a))%Q.
Proof.
  intros Ha. unfold q_of, Qeq.
  destruct a as [| a' | a']; [contradiction | |];
    cbn [Qnum Qden Qdiv Qmult Qinv Qplus inject_Z Z.sgn Z.abs Z.to_pos]; lia.
Qed.

Lemma fmod1_fraction (q : Q) (c : Z) (d : positive) :
  (q == c # d)%Q -> (fmod1 q == (c mod Z.pos d) # d)%Q.
Proof.
  intros Hq. unfold fmod1.
  rewrite (Qfloor_comp _ _ Hq). rewrite Hq.
  unfold Qeq.
  cbn [Qfloor Qminus Qplus Qopp Qnum Qden inject_Z].
  pose proof (Z.div_mod c (Z.pos d) ltac:(lia)) as Hdm.
  nia.
Qed.

Lemma close_to_integer_residue (a b p : Z) :
  a <> 0 ->
  close_to_integer (inject_Z a) (inject_Z b) p
  = (residue a b p * 10000000000 <? Z.abs a).
Proof.
  intros Ha. unfold close_to_integer.
  destruct (Qeq_bool (inject_Z a) 0) eqn:E0.
  { apply Qeq_bool_eq in E0. unfold Qeq, inject_Z in E0. cbn in E0. lia. }
  pose proof (fmod1_fraction _ _ _ (q_of_integers a b p Ha)) as Hf.
  assert (Hpos : Z.pos (Z.to_pos (Z.abs a)) = Z.abs a)
    by (apply Z2Pos.id; lia).
  rewrite Hpos in Hf. fold (residue a b p) in Hf.
  assert (Hr : 0 <= residue a b p) by (apply Z.mod_pos_bound; lia).
  assert (Habs : (Qabs (fmod1 (q_of (inject_Z a) (inject_Z b) p))
                  == residue a b p # Z.to_pos (Z.abs a))%Q).
  { rewrite Hf. apply Qabs_pos. unfold Qle. cbn. lia. }
  destruct (Qle_bool tol _) eqn:E; cbn [negb]; symmetry.
  - apply Qle_bool_iff in E. rewrite Habs in E.
    unfold Qle, tol in E. cbn [Qnum Qden] in E. rewrite Hpos in E.
    apply Z.ltb_ge. lia.
  - apply Z.ltb_lt.
    destruct (Z.lt_ge_cases (residue a b p * 10000000000) (Z.abs a)) as [Hlt | Hge];
      [exact Hlt | exfalso].
    assert (Hle : Qle_bool tol (Qabs (fmod1 (q_of (inject_Z a) (inject_Z b) p))) = true).
    { apply Qle_bool_iff. rewrite Habs.
      unfold Qle, tol. cbn [Qnum Qden]. rewrite Hpos. lia. }
    congruence.
Qed.

Lemma residue_zero_iff (a b p : Z) :
  a <> 0 -> (residue a b p = 0 <-> (a | 1 + p * b)).
Proof.
  intros Ha. unfold residue. rewrite Z.mod_divide by lia.
  assert (Hs : (Z.sgn a = 1 /\ Z.abs a = a) \/ (Z.sgn a = -1 /\ Z.abs a = - a)) by lia.
  split; intros [k Hk].
  - destruct Hs as [[Hs Hab] | [Hs Hab]]; rewrite Hs, Hab in Hk.
    + exists k. lia.
    + exists k. lia.
  - destruct Hs as [[Hs Hab] | [Hs Hab]]; rewrite Hs, Hab.
    + exists k. lia.
    + exists k. lia.
Qed.

Lemma close_to_integer_exact (a b p : Z) :
  a <> 0 -> (a | 1 + p * b) ->
  close_to_integer (inject_Z a) (inject_Z b) p = true.
Proof.
  intros Ha Hdiv. rewrite close_to_integer_residue by assumption.
  apply (residue_zero_iff a b p Ha) in Hdiv. rewrite Hdiv.
  apply Z.ltb_lt. lia.
Qed.


(** ** The linear search *)

Lemma search_p_none (t1 t2 : Q) (cnt : nat) (p0 : Z) :
  search_p t1 t2 cnt p0 = None <->
  forall p, p0 <= p < p0 + Z.of_nat cnt -> close_to_integer t1 t2 p = false.
Proof.
  revert p0. induction cnt as [| cnt IH]; intros p0; cbn [search_p].
  - split; [intros _ p Hp; lia | reflexivity].
  - destruct (close_to_integer t1 t2 p0) eqn:E.
    + split; [discriminate |].
      intros H. specialize (H p0 ltac:(lia)). congruence.
    + rewrite IH. split; intros H p Hp.
      * destruct (Z.eq_dec p p0) as [-> | Hne]; [exact E | apply H; lia].
      * apply H; lia.
Qed.

Lemma search_p_some (t1 t2 : Q) (cnt : nat) (p0 p : Z) :
  search_p t1 t2 cnt p0 = Some p ->
  p0 <= p < p0 + Z.of_nat cnt /\
  close_to_integer t1 t2 p = true /\
  forall p', p0 <= p' < p -> close_to_integer t1 t2 p' = false.
Proof.
  revert p0. induction cnt as [| cnt IH]; intros p0; cbn [search_p].
  - discriminate.
  - destruct (close_to_integer t1 t2 p0) eqn:E.
    + intros [= <-]. repeat split; try lia; trivial.
    + intros H. apply IH in H. destruct H as (Hr & Ht & Hmin).
      repeat split; try lia; trivial.
      intros p' Hp'.
      destruct (Z.eq_dec p' p0) as [-> | Hne]; [exact E | apply Hmin; lia].
Qed.


(** ** The translation vector in the lattice basis *)

Lemma truediv_exact (a d : Z) :
  d <> 0 -> exists t, truediv (a * d) d = Ok t /\ (t == inject_Z a)%Q.
Proof.
  intros Hd. unfold truediv.
  destruct (Z.eqb_spec d 0) as [| _]; [contradiction |].
  eexists. split; [reflexivity |].
  unfold Qeq.
  destruct d as [| d' | d']; [contradiction | |];
    cbn [Qnum Qden Qdiv Qmult Qinv inject_Z]; lia.
Qed.

Lemma translation_vector_lat_basis_value (gen : TubeGen) :
  let n := fst (chirality gen) in
  let m := snd (chirality gen) in
  Z.gcd (2 * m + n) (2 * n + m) <> 0 ->
  exists a b t1 t2,
    2 * m + n = a * Z.gcd (2 * m + n) (2 * n + m) /\
    2 * n + m = b * Z.gcd (2 * m + n) (2 * n + m) /\
    Z.gcd a b = 1 /\
    n_hex_ucell gen = Ok (m * a + n * b) /\
    translation_vector_lat_basis gen = Ok (t1, t2) /\
    (t1 == inject_Z a)%Q /\ (t2 == inject_Z (- b))%Q.
Proof.
  intros n m Hd.
  destruct (reduced_entries n m Hd) as (a & b & Ha & Hb & Hg & Hh).
  destruct (truediv_exact a _ Hd) as (t1 & Ht1 & E1).
  destruct (truediv_exact b _ Hd) as (t2 & Ht2 & E2).
  exists a, b, t1, (- t2)%Q. repeat split; trivial.
  - unfold n_hex_ucell, floordiv. destruct (chirality gen) as [n' m'].
    cbn [fst snd] in n, m. subst n m.
    destruct (Z.eqb_spec (Z.gcd (2 * m' + n') (2 * n' + m')) 0); [contradiction |].
    rewrite Hh. reflexivity.
  - unfold translation_vector_lat_basis. destruct (chirality gen) as [n' m'].
    cbn [fst snd] in n, m. subst n m.
    rewrite Ha at 1. rewrite Ht1. cbn [bind].
    rewrite Hb at 1. rewrite Ht2. reflexivity.
  - rewrite E2. unfold Qeq. cbn. lia.
Qed.

(** ** Existence of a solution within the search range *)

Lemma exists_solution (a b : Z) :
  0 < a -> Z.gcd a b = 1 ->
  exists p, 1 <= p <= a /\ (a | 1 + p * - b).
Proof.
  intros Ha Hg.
  destruct (Z.gcd_bezout a b 1 Hg) as (u & v & Huv).
  pose proof (Z.div_mod v a ltac:(lia)) as Hv.
  pose proof (Z.mod_pos_bound v a Ha) as Hr.
  assert (Hdiv : (a | 1 + (v mod a) * - b)).
  { exists (u + (v / a) * b). nia. }
  destruct (Z.eq_dec (v mod a) 0) as [Hz | Hnz].
  - exists a. split; [lia |].
    rewrite Hz in Hdiv. destruct Hdiv as [k Hk].
    exists (k - b). lia.
  - exists (v mod a). split; [lia | exact Hdiv].
Qed.

Lemma reduced_entry_in_range (n m a b d : Z) :
  0 <= m <= n -> n <> 0 \/ m <> 0 -> 0 < d ->
  2 * m + n = a * d -> 2 * n + m = b * d ->
  0 < a /\ a <= 2 * (m * a + n * b).
Proof.
  intros Hnm Hnz Hd Ha Hb.
  assert (Hapos : 0 < a) by nia.
  assert (Hbpos : 0 < b) by nia.
  split; [exact Hapos |].
  destruct (Z.eq_dec m 0) as [-> | Hm].
  - assert (b = 2 * a) by nia. nia.
  - nia.
Qed.

(** An exactly integral [q] passes the test. *)
Lemma close_to_integer_of_integer (t1 t2 : Q) (p z : Z) :
  ~ (t1 == 0)%Q -> (q_of t1 t2 p == inject_Z z)%Q ->
  close_to_integer t1 t2 p = true.
Proof.
  intros Ht Hq. unfold close_to_integer.
  destruct (Qeq_bool t1 0) eqn:E0.
  { apply Qeq_bool_eq in E0. contradiction. }
  destruct (Qle_bool tol _) eqn:E; [exfalso | reflexivity].
  apply Qle_bool_iff in E. unfold fmod1 in E.
  rewrite (Qfloor_comp _ _ Hq), Qfloor_Z, Hq in E.
  assert (H0 : (inject_Z z - inject_Z z == 0)%Q) by ring.
  rewrite H0 in E. unfold Qle, tol in E. cbn in E. lia.
Qed.

Lemma q_of_compat (t1 t1' t2 t2' : Q) (p : Z) :
  (t1 == t1')%Q -> (t2 == t2')%Q -> (q_of t1 t2 p == q_of t1' t2' p)%Q.
Proof.
  intros H1 H2. unfold q_of. rewrite H1, H2. reflexivity.
Qed.

Lemma q_of_quotient (a b p k : Z) :
  a <> 0 -> 1 + p * b = k * a ->
  (q_of (inject_Z a) (inject_Z b) p == inject_Z k)%Q.
Proof.
  intros Ha Hk. rewrite (q_of_integers a b p Ha), Hk.
  unfold Qeq. cbn [Qnum Qden inject_Z].
  rewrite Z2Pos.id by lia.
  assert (Hs : (Z.sgn a = 1 /\ Z.abs a = a) \/ (Z.sgn a = -1 /\ Z.abs a = - a)) by lia.
  destruct Hs as [[Hs Hab] | [Hs Hab]]; rewrite Hs, Hab; lia.
Qed.

Lemma close_to_integer_nonzero (t1 t2 : Q) (p : Z) :
  close_to_integer t1 t2 p = true -> ~ (t1 == 0)%Q.
Proof.
  unfold close_to_integer. intros H E.
  apply Qeq_eq_bool in E. rewrite E in H. discriminate.
Qed.

(** ** The symmetry vector *)

Lemma symmetry_vector_unfold (gen : TubeGen) (t1 t2 : Q) (N : Z) :
  translation_vector_lat_basis gen = Ok (t1, t2) ->
  n_atoms_ucell gen = Ok N ->
  symmetry_vector gen =
  match search_p t1 t2 (Z.to_nat N) 1 with
  | Some p => Ok (vadd (vscale (IZR p) (fst (unit_vectors gen)))
                       (vscale (Q2R (q_of t1 t2 p)) (snd (unit_vectors gen))))
  | None => Err no_symmetry_vector
  end.
Proof.
  intros Ht HN. unfold symmetry_vector.
  destruct (unit_vectors gen) as [a1 a2].
  rewrite Ht, HN. reflexivity.
Qed.

Lemma symmetry_vector_ok_inv (gen : TubeGen) (v : Vec2) :
  symmetry_vector gen = Ok v ->
  exists t1 t2 N,
    translation_vector_lat_basis gen = Ok (t1, t2) /\
    n_atoms_ucell gen = Ok N.
Proof.
  unfold symmetry_vector. destruct (unit_vectors gen) as [a1 a2].
  destruct (translation_vector_lat_basis gen) as [[t1 t2] | e]; [| discriminate].
  cbn [bind]. destruct (n_atoms_ucell gen) as [N | e]; [| discriminate].
  intros _. exists t1, t2, N. split; reflexivity.
Qed.

Lemma n_atoms_of_hex (gen : TubeGen) (h : Z) :
  n_hex_ucell gen = Ok h -> n_atoms_ucell gen = Ok (2 * h).
Proof.
  intros H. unfold n_atoms_ucell. rewrite H. reflexivity.
Qed.

Example search_p_3_1 :
  search_p (inject_Z 5) (inject_Z (-7)) 52 1 = Some 3.
Proof. vm_compute. reflexivity. Qed.

(** ** Sewing: evaluation on the (1, 1) cell *)

Example sow_1_1_periodic :
  map neighbours (_sow_cells ribbon_1_1 2 4 "periodic" "periodic")
  = [[1; 7; 3]; [0; 2; 6]; [3; 1; 5]; [2; 4; 0];
     [5; 3; 7]; [4; 6; 2]; [7; 5; 1]; [6; 0; 4]].
Proof. reflexivity. Qed.

Example sow_1_1_open :
  map neighbours (_sow_cells ribbon_1_1 2 4 "open" "open")
  = [[1]; [0; 2]; [3; 1; 5]; [2];
     [5]; [4; 6; 2]; [7; 5]; [6]].
Proof. reflexivity. Qed.

(** ** Updating a slice in place *)

Lemma map_slice_length {A : Type} (f : A -> A) (lo hi : Z) (l : list A) :
  List.length (map_slice f lo hi l) = List.length l.
Proof.
  unfold map_slice.
  set (a := slice_index (Z.of_nat (List.length l)) lo).
  set (b := slice_index (Z.of_nat (List.length l)) hi).
  assert (Ha : (a <= List.length l)%nat) by (unfold a, slice_index; destruct (Z.ltb_spec lo 0); lia).
  assert (Hb : (b <= List.length l)%nat) by (unfold b, slice_index; destruct (Z.ltb_spec hi 0); lia).
  rewrite !length_app, length_map, !length_firstn, !length_skipn. lia.
Qed.

Lemma map_slice_ext {A : Type} (f g : A -> A) (lo hi : Z) (l : list A) :
  (forall x, f x = g x) -> map_slice f lo hi l = map_slice g lo hi l.
Proof.
  intros H. unfold map_slice. f_equal. f_equal. apply map_ext. exact H.
Qed.

(** Position [j] of the list after the update, for a slice with
    non-negative bounds. *)
Lemma map_slice_nth_error {A : Type} (f : A -> A) (lo hi : Z) (l : list A) (j : nat) :
  0 <= lo -> 0 <= hi ->
  nth_error (map_slice f lo hi l) j =
  option_map (fun x => if (lo <=? Z.of_nat j) && (Z.of_nat j <? hi) then f x else x)
             (nth_error l j).
Proof.
  intros Hlo Hhi. unfold map_slice.
  set (len := List.length l).
  assert (Ea : slice_index (Z.of_nat len) lo = Z.to_nat (Z.min lo (Z.of_nat len))).
  { unfold slice_index. destruct (Z.ltb_spec lo 0); [lia | reflexivity]. }
  assert (Eb : slice_index (Z.of_nat len) hi = Z.to_nat (Z.min hi (Z.of_nat len))).
  { unfold slice_index. destruct (Z.ltb_spec hi 0); [lia | reflexivity]. }
  rewrite Ea, Eb.
  set (a := Z.to_nat (Z.min lo (Z.of_nat len))).
  set (b := Z.to_nat (Z.min hi (Z.of_nat len))).
  assert (Hla : List.length (firstn a l) = a) by (rewrite length_firstn; fold len; lia).
  destruct (Nat.lt_ge_cases j a) as [Hja | Hja].
  - rewrite nth_error_app1 by lia.
    rewrite nth_error_firstn.
    destruct (Nat.ltb_spec j a); [| lia].
    destruct (nth_error l j) as [x |]; cbn [option_map]; [| reflexivity].
    destruct (Z.leb_spec lo (Z.of_nat j)); [lia | reflexivity].
  - rewrite nth_error_app2 by lia. rewrite Hla.
    assert (Hlm : List.length (map f (firstn (b - a) (skipn a l))) = (b - a)%nat).
    { rewrite length_map, length_firstn, length_skipn. fold len. lia. }
    destruct (Nat.lt_ge_cases j b) as [Hjb | Hjb].
    + rewrite nth_error_app1 by lia.
      rewrite nth_error_map, nth_error_firstn.
      destruct (Nat.ltb_spec (j - a) (b - a)); [| lia].
      rewrite nth_error_skipn. replace (a + (j - a))%nat with j by lia.
      destruct (nth_error l j) as [x |]; cbn [option_map]; [| reflexivity].
      destruct (Z.leb_spec lo (Z.of_nat j)); [| lia].
      destruct (Z.ltb_spec (Z.of_nat j) hi); [reflexivity | lia].
    + rewrite nth_error_app2 by lia. rewrite Hlm.
      rewrite nth_error_skipn.
      replace (a + (b - a) + (j - a - (b - a)))%nat with j by lia.
      destruct (nth_error l j) as [x |] eqn:Ex; cbn [option_map]; [| reflexivity].
      assert (Hjl : (j < len)%nat) by (apply nth_error_Some; congruence).
      destruct (Z.leb_spec lo (Z.of_nat j)); cbn [andb]; [| reflexivity].
      destruct (Z.ltb_spec (Z.of_nat j) hi); [lia | reflexivity].
Qed.

(** ** What [_sow_cells] does to each site *)

Lemma sow_loop_nth_error {P : Type} (n_ucells luc : Z) (bc_ch bc_t : string)
  (k : nat) (sites : list (Site P)) (j : nat) :
  0 <= luc ->
  nth_error
    (fold_left
       (fun l i => map_slice (sow_site n_ucells luc bc_ch bc_t i)
                             (i * luc) ((i + 1) * luc) l)
       (map Z.of_nat (seq 0 k)) sites) j =
  option_map
    (fun s => if Z.of_nat j <? Z.of_nat k * luc
              then sow_site n_ucells luc bc_ch bc_t (Z.of_nat j / luc) s
              else s)
    (nth_error sites j).
Proof.
  intros Hluc. induction k as [| k IH].
  - cbn [seq map fold_left].
    destruct (nth_error sites j) as [s |]; cbn [option_map]; [| reflexivity].
    destruct (Z.ltb_spec (Z.of_nat j) (Z.of_nat 0 * luc)); [lia | reflexivity].
  - rewrite seq_S, map_app, fold_left_app. cbn [Nat.add map fold_left].
    rewrite map_slice_nth_error by nia.
    rewrite IH.
    destruct (nth_error sites j) as [s |]; cbn [option_map]; [| reflexivity].
    f_equal.
    destruct (Z.ltb_spec (Z.of_nat j) (Z.of_nat k * luc)) as [H1 | H1];
      destruct (Z.leb_spec (Z.of_nat k * luc) (Z.of_nat j)) as [H2 | H2];
      try lia; cbn [andb].
    + destruct (Z.ltb_spec (Z.of_nat j) (Z.of_nat (S k) * luc)); [reflexivity | nia].
    + destruct (Z.ltb_spec (Z.of_nat j) ((Z.of_nat k + 1) * luc)) as [H3 | H3];
        destruct (Z.ltb_spec (Z.of_nat j) (Z.of_nat (S k) * luc)) as [H4 | H4];
        try nia; try reflexivity.
      f_equal. apply (Z.div_unique _ _ _ (Z.of_nat j - Z.of_nat k * luc)); nia.
Qed.

Lemma sow_cells_nth_error {P : Type} (sites : list (Site P)) (n_ucells luc : Z)
  (bc_ch bc_t : string) (j : nat) :
  0 <= luc ->
  nth_error (_sow_cells sites n_ucells luc bc_ch bc_t) j =
  option_map
    (fun s => if Z.of_nat j <? n_ucells * luc
              then sow_site n_ucells luc bc_ch bc_t (Z.of_nat j / luc) s
              else s)
    (nth_error sites j).
Proof.
  intros Hluc. unfold _sow_cells, range.
  rewrite sow_loop_nth_error by assumption.
  destruct (nth_error sites j) as [s |]; cbn [option_map]; [| reflexivity].
  f_equal.
  destruct (Z.ltb_spec (Z.of_nat j) (Z.of_nat (Z.to_nat n_ucells) * luc));
    destruct (Z.ltb_spec (Z.of_nat j) (n_ucells * luc)); try reflexivity; nia.
Qed.

Lemma sow_cells_length {P : Type} (sites : list (Site P)) (n_ucells luc : Z)
  (bc_ch bc_t : string) :
  List.length (_sow_cells sites n_ucells luc bc_ch bc_t) = List.length sites.
Proof.
  unfold _sow_cells. generalize (range n_ucells). intros cells.
  revert sites. induction cells as [| i cells IH]; intros sites; cbn [fold_left].
  - reflexivity.
  - rewrite IH. apply map_slice_length.
Qed.

Lemma sow_cells_ext {P : Type} (sites : list (Site P)) (n_ucells luc : Z)
  (bc_ch bc_t bc_ch' bc_t' : string) :
  (forall i b, resolve_bond n_ucells luc bc_ch bc_t i b
               = resolve_bond n_ucells luc bc_ch' bc_t' i b) ->
  _sow_cells sites n_ucells luc bc_ch bc_t
  = _sow_cells sites n_ucells luc bc_ch' bc_t'.
Proof.
  intros H.
  assert (Hbs : forall i bs, resolve_bonds n_ucells luc bc_ch bc_t i bs
                             = resolve_bonds n_ucells luc bc_ch' bc_t' i bs).
  { intros i bs. induction bs as [| b bs IH]; cbn [resolve_bonds].
    - reflexivity.
    - rewrite H, IH. reflexivity. }
  unfold _sow_cells. generalize (range n_ucells). intros cells.
  revert sites. induction cells as [| i cells IH]; intros sites; cbn [fold_left].
  - reflexivity.
  - rewrite IH. f_equal. apply map_slice_ext.
    intros s. unfold sow_site. rewrite Hbs. reflexivity.
Qed.

(** ** One bond *)

Lemma bond_ok_inv (luc neigh xch xt : Z) :
  bond_ok luc (neigh, xch, xt) = true ->
  0 <= neigh < luc /\
  (xch = -1 \/ xch = 0 \/ xch = 1) /\ (xt = -1 \/ xt = 0 \/ xt = 1).
Proof.
  unfold bond_ok. rewrite !andb_true_iff.
  rewrite !Z.leb_le, Z.ltb_lt. lia.
Qed.

Lemma target_cell_range (n_ucells i xt : Z) :
  0 <= i < n_ucells -> 0 <= target_cell n_ucells i xt < n_ucells.
Proof.
  intros Hi. unfold target_cell.
  destruct (xt =? 0); [lia |].
  destruct (xt =? 1); apply Z.mod_pos_bound; lia.
Qed.

Lemma resolve_bond_spec (n_ucells luc : Z) (bc_ch bc_t : string) (i neigh xch xt : Z) :
  0 <= i < n_ucells -> valid_bc bc_ch -> valid_bc bc_t ->
  bond_ok luc (neigh, xch, xt) = true ->
  (resolve_bond n_ucells luc bc_ch bc_t i (neigh, xch, xt) = None <->
   dropped n_ucells bc_ch bc_t i xch xt) /\
  (~ dropped n_ucells bc_ch bc_t i xch xt ->
   resolve_bond n_ucells luc bc_ch bc_t i (neigh, xch, xt)
   = Some (neigh + target_cell n_ucells i xt * luc) /\
   0 <= neigh + target_cell n_ucells i xt * luc < n_ucells * luc).
Proof.
  intros Hi Hch Ht Hok.
  apply bond_ok_inv in Hok. destruct Hok as (Hn & Hxch & Hxt).
  pose proof (target_cell_range n_ucells i xt Hi) as Hk.
  assert (Hrange : 0 <= neigh + target_cell n_ucells i xt * luc < n_ucells * luc) by nia.
  unfold dropped, target_cell in *. unfold resolve_bond.
  destruct Hch as [-> | ->]; destruct Ht as [-> | ->];
    destruct Hxch as [-> | [-> | ->]]; destruct Hxt as [-> | [-> | ->]];
    cbn [Z.eqb String.eqb Ascii.eqb Bool.eqb orb andb negb Pos.eqb] in *;
    try destruct (Z.eqb_spec i (n_ucells - 1));
    try destruct (Z.eqb_spec i 0);
    cbn [negb andb orb];
    (split; [split; [intros H; try discriminate H | intros H] | intros H]);
    try (split; [reflexivity | assumption]);
    try reflexivity;
    try (exfalso; apply H);
    try (destruct H as [[? ?] | [(? & ? & ?) | (? & ? & ?)]]; try lia; discriminate);
    try (left; split; [lia | reflexivity]);
    try (right; left; repeat split; assumption);
    try (right; right; repeat split; assumption).
Qed.

Lemma resolve_bonds_In (n_ucells luc : Z) (bc_ch bc_t : string) (i t : Z)
  (bs : list (Z * Z * Z)) :
  In t (resolve_bonds n_ucells luc bc_ch bc_t i bs) ->
  exists b, In b bs /\ resolve_bond n_ucells luc bc_ch bc_t i b = Some t.
Proof.
  induction bs as [| b bs IH]; cbn [resolve_bonds].
  - intros [].
  - destruct (resolve_bond n_ucells luc bc_ch bc_t i b) as [t' |] eqn:E.
    + intros [<- | Hin].
      * exists b. split; [left; reflexivity | exact E].
      * destruct (IH Hin) as (b' & Hb' & Hr). exists b'. split; [right |]; assumption.
    + intros Hin. destruct (IH Hin) as (b' & Hb' & Hr).
      exists b'. split; [right |]; assumption.
Qed.

Lemma droppedb_spec (n_ucells : Z) (bc_ch bc_t : string) (i xch xt : Z) :
  droppedb n_ucells bc_ch bc_t i xch xt = true <-> dropped n_ucells bc_ch bc_t i xch xt.
Proof.
  unfold droppedb, dropped.
  rewrite !orb_true_iff, !andb_true_iff, negb_true_iff, !Z.eqb_eq, Z.eqb_neq,
    !String.eqb_eq.
  tauto.
Qed.

Lemma resolve_bonds_kept (n_ucells luc : Z) (bc_ch bc_t : string) (i : Z)
  (bs : list (Z * Z * Z)) :
  0 <= i < n_ucells -> valid_bc bc_ch -> valid_bc bc_t ->
  forallb (bond_ok luc) bs = true ->
  resolve_bonds n_ucells luc bc_ch bc_t i bs = kept_targets n_ucells luc bc_ch bc_t i bs.
Proof.
  intros Hi Hch Ht. unfold kept_targets.
  induction bs as [| [[neigh xch] xt] bs IH]; cbn [forallb resolve_bonds filter map].
  - reflexivity.
  - rewrite andb_true_iff. intros [Hb Hbs]. cbn [fst snd].
    destruct (resolve_bond_spec n_ucells luc bc_ch bc_t i neigh xch xt Hi Hch Ht Hb)
      as [Hiff Hkept].
    destruct (droppedb n_ucells bc_ch bc_t i xch xt) eqn:Ed; cbn [negb].
    + apply droppedb_spec in Ed. apply Hiff in Ed. rewrite Ed. apply IH. exact Hbs.
    + assert (Hnd : ~ dropped n_ucells bc_ch bc_t i xch xt).
      { intros Hd. apply droppedb_spec in Hd. congruence. }
      destruct (Hkept Hnd) as [-> _]. cbn [map fst snd]. f_equal. apply IH. exact Hbs.
Qed.

Lemma kept_targets_In (n_ucells luc : Z) (bc_ch bc_t : string) (i t : Z)
  (bs : list (Z * Z * Z)) :
  In t (kept_targets n_ucells luc bc_ch bc_t i bs) <->
  exists neigh xch xt,
    In (neigh, xch, xt) bs /\ ~ dropped n_ucells bc_ch bc_t i xch xt /\
    t = neigh + target_cell n_ucells i xt * luc.
Proof.
  unfold kept_targets. rewrite in_map_iff. split.
  - intros ([[neigh xch] xt] & <- & Hin). apply filter_In in Hin.
    destruct Hin as [Hin Hk]. cbn [fst snd] in *.
    exists neigh, xch, xt. split; [exact Hin |]. split; [| reflexivity].
    intros Hd. apply droppedb_spec in Hd. rewrite Hd in Hk. discriminate.
  - intros (neigh & xch & xt & Hin & Hnd & ->).
    exists (neigh, xch, xt). split; [reflexivity |].
    apply filter_In. split; [exact Hin |]. cbn [fst snd].
    destruct (droppedb n_ucells bc_ch bc_t i xch xt) eqn:Ed; [| reflexivity].
    apply droppedb_spec in Ed. contradiction.
Qed.

(** C3.  In a ribbon of [n_ucells] cells of [luc] sites whose recorded
    bonds carry a cell-local index and flags in {-1, 0, 1}, under
    boundary conditions periodic or open: the site at position [j]
    belongs to cell [i = j / luc]; after [_sow_cells] its list of
    neighbours is the list of its recorded bonds, in their order, with
    exactly those bonds left out for which (xch <> 0 and the
    circumference is open) or (xt = +1, the axis is open and i is the
    last cell) or (xt = -1, the axis is open and i is the first cell),
    and with every other bond replaced by its cell-local index plus
    [luc] times i, (i+1) mod n_ucells or (i-1) mod n_ucells for
    xt = 0, +1, -1.  So an index is a neighbour exactly when it is the
    target of a bond that is not dropped, and every neighbour lies in
    [0, n_ucells*luc). *)
Theorem sow_cells_resolves_bonds {P : Type} (sites : list (Site P))
  (n_ucells luc : Z) (bc_ch bc_t : string) :
  0 < luc ->
  Z.of_nat (List.length sites) = n_ucells * luc ->
  valid_bc bc_ch -> valid_bc bc_t ->
  forallb (site_ok luc) sites = true ->
  forall j s, nth_error sites j = Some s ->
    0 <= Z.of_nat j / luc < n_ucells /\
    exists s',
      nth_error (_sow_cells sites n_ucells luc bc_ch bc_t) j = Some s' /\
      neighbours s'
      = map (fun b => fst (fst b) + target_cell n_ucells (Z.of_nat j / luc) (snd b) * luc)
            (filter (fun b => negb (droppedb n_ucells bc_ch bc_t (Z.of_nat j / luc)
                                             (snd (fst b)) (snd b)))
                    (bonds s)) /\
      (forall xch xt,
         droppedb n_ucells bc_ch bc_t (Z.of_nat j / luc) xch xt = true <->
         (xch <> 0 /\ bc_ch = "open"%string) \/
         (xt = 1 /\ bc_t = "open"%string /\ Z.of_nat j / luc = n_ucells - 1) \/
         (xt = -1 /\ bc_t = "open"%string /\ Z.of_nat j / luc = 0)) /\
      (forall t, In t (neighbours s') <->
         exists neigh xch xt,
           In (neigh, xch, xt) (bonds s) /\
           ~ dropped n_ucells bc_ch bc_t (Z.of_nat j / luc) xch xt /\
           t = neigh + target_cell n_ucells (Z.of_nat j / luc) xt * luc) /\
      (forall t, In t (neighbours s') -> 0 <= t < n_ucells * luc).
Proof.
  intros Hluc Hlen Hch Ht Hok j s Hs.
  assert (Hj : (j < List.length sites)%nat) by (apply nth_error_Some; congruence).
  assert (Hi : 0 <= Z.of_nat j / luc < n_ucells).
  { split; [apply Z.div_pos; lia |]. apply Z.div_lt_upper_bound; nia. }
  split; [exact Hi |].
  assert (Hsok : forallb (bond_ok luc) (bonds s) = true).
  { rewrite forallb_forall in Hok. apply (Hok s). eapply nth_error_In; eassumption. }
  assert (Hnb : neighbours (sow_site n_ucells luc bc_ch bc_t (Z.of_nat j / luc) s)
                = kept_targets n_ucells luc bc_ch bc_t (Z.of_nat j / luc) (bonds s)).
  { cbn [sow_site set_neighbours neighbours].
    apply resolve_bonds_kept; assumption. }
  exists (sow_site n_ucells luc bc_ch bc_t (Z.of_nat j / luc) s).
  split; [| split; [exact Hnb | split; [| split]]].
  - rewrite sow_cells_nth_error by lia. rewrite Hs. cbn [option_map].
    destruct (Z.ltb_spec (Z.of_nat j) (n_ucells * luc)); [reflexivity | lia].
  - intros xch xt. apply droppedb_spec.
  - intros t. rewrite Hnb. apply kept_targets_In.
  - intros t Hin. rewrite Hnb in Hin. apply kept_targets_In in Hin.
    destruct Hin as (neigh & xch & xt & Hb & Hnd & ->).
    rewrite forallb_forall in Hsok.
    destruct (resolve_bond_spec n_ucells luc bc_ch bc_t (Z.of_nat j / luc) neigh xch xt
                Hi Hch Ht (Hsok _ Hb)) as [_ Hkept].
    apply (Hkept Hnd).
Qed.

Lemma sow_cells_resolves_bonds_witness :
  exists s,
    nth_error ribbon_1_1 7 = Some s /\
    0 <= Z.of_nat 7 / 4 < 2 /\
    exists s',
      nth_error (_sow_cells ribbon_1_1 2 4 "periodic" "open") 7 = Some s' /\
      neighbours s'
      = map (fun b => fst (fst b) + target_cell 2 (Z.of_nat 7 / 4) (snd b) * 4)
            (filter (fun b => negb (droppedb 2 "periodic" "open" (Z.of_nat 7 / 4)
                                             (snd (fst b)) (snd b)))
                    (bonds s)) /\
      (forall xch xt,
         droppedb 2 "periodic" "open" (Z.of_nat 7 / 4) xch xt = true <->
         (xch <> 0 /\ "periodic"%string = "open"%string) \/
         (xt = 1 /\ "open"%string = "open"%string /\ Z.of_nat 7 / 4 = 2 - 1) \/
         (xt = -1 /\ "open"%string = "open"%string /\ Z.of_nat 7 / 4 = 0)) /\
      (forall t, In t (neighbours s') <->
         exists neigh xch xt,
           In (neigh, xch, xt) (bonds s) /\
           ~ dropped 2 "periodic" "open" (Z.of_nat 7 / 4) xch xt /\
           t = neigh + target_cell 2 (Z.of_nat 7 / 4) xt * 4) /\
      (forall t, In t (neighbours s') -> 0 <= t < 2 * 4).
Proof.
  eexists. split; [reflexivity |].
  apply (sow_cells_resolves_bonds ribbon_1_1 2 4 "periodic" "open").
  - lia.
  - reflexivity.
  - left. reflexivity.
  - right. reflexivity.
  - reflexivity.
  - reflexivity.
Defined.

(** ** Neighbours and hopping strengths

    [_connect_sites] writes both lists with one length, and [roll_tube]
    copies both; [_sow_cells] rewrites [neighbours] and leaves
    [hopping] as it was. *)

Lemma sow_site_hopping {P : Type} (n_ucells luc : Z) (bc_ch bc_t : string) (i : Z)
  (s : Site P) :
  hopping (sow_site n_ucells luc bc_ch bc_t i s) = hopping s.
Proof. reflexivity. Qed.

Lemma resolve_bonds_length_le (n_ucells luc : Z) (bc_ch bc_t : string) (i : Z)
  (bs : list (Z * Z * Z)) :
  (List.length (resolve_bonds n_ucells luc bc_ch bc_t i bs) <= List.length bs)%nat.
Proof.
  induction bs as [| b bs IH]; cbn [resolve_bonds List.length].
  - lia.
  - destruct (resolve_bond n_ucells luc bc_ch bc_t i b); cbn [List.length]; lia.
Qed.

Lemma resolve_bonds_periodic_length (n_ucells luc i : Z) (bs : list (Z * Z * Z)) :
  forallb (bond_ok luc) bs = true ->
  List.length (resolve_bonds n_ucells luc "periodic" "periodic" i bs) = List.length bs.
Proof.
  induction bs as [| [[neigh xch] xt] bs IH]; cbn [forallb resolve_bonds List.length].
  - reflexivity.
  - rewrite andb_true_iff. intros [Hb Hbs].
    apply bond_ok_inv in Hb. destruct Hb as (_ & _ & Hxt).
    unfold resolve_bond. rewrite String.eqb_refl, orb_true_r.
    destruct Hxt as [-> | [-> | ->]]; cbn [Z.eqb Pos.eqb andb orb List.length];
      rewrite (IH Hbs); reflexivity.
Qed.


Lemma roll_tube_copies_bonds (gen : TubeGen) (ribbon : Lattice Vec2) (tube : Lattice Vec3) :
  roll_tube gen ribbon = Ok tube ->
  map neighbours (sites tube) = map neighbours (sites ribbon) /\
  map hopping (sites tube) = map hopping (sites ribbon) /\
  map idx (sites tube) = map idx (sites ribbon).
Proof.
  unfold roll_tube. destruct (translation_vector gen) as [T | e]; [| discriminate].
  cbn [bind]. intros [= <-]. cbn [sites].
  rewrite !map_map. repeat split; apply map_ext; reflexivity.
Qed.

(** C1.  The (1, 1) ribbon of two cells, sewn with an open
    circumference: at four of its eight sites two of the three bonds
    are dropped from [neighbours] while [hopping] keeps its three
    entries. *)
Theorem sow_cells_hopping_mismatch :
  map (fun s => (List.length (neighbours s), List.length (hopping s)))
      (_sow_cells ribbon_1_1 2 4 "open" "periodic")
  = [(1, 3); (3, 3); (3, 3); (1, 3); (1, 3); (3, 3); (3, 3); (1, 3)]%nat.
Proof. reflexivity. Qed.

(** ** Boundary conditions of [make_ribbon] *)

Lemma resolve_bond_open_ch (n_ucells luc : Z) (bc_ch bc_t : string) (i : Z)
  (b : Z * Z * Z) :
  bc_ch <> "periodic"%string ->
  resolve_bond n_ucells luc bc_ch bc_t i b = resolve_bond n_ucells luc "open" bc_t i b.
Proof.
  intros H. apply String.eqb_neq in H.
  unfold resolve_bond. destruct b as [[neigh xch] xt]. rewrite H. reflexivity.
Qed.

Lemma resolve_bond_open_t (n_ucells luc : Z) (bc_ch bc_t : string) (i : Z)
  (b : Z * Z * Z) :
  bc_t <> "periodic"%string ->
  resolve_bond n_ucells luc bc_ch bc_t i b = resolve_bond n_ucells luc bc_ch "open" i b.
Proof.
  intros H. apply String.eqb_neq in H.
  unfold resolve_bond. destruct b as [[neigh xch] xt]. rewrite H. reflexivity.
Qed.

Lemma make_ribbon_ext (at_ : list (Site Vec2) -> Vec2 -> option (Site Vec2))
  (gen : TubeGen) (n_ucells : Z) (bc_ch bc_t bc_ch' bc_t' : string) :
  (forall luc i b, resolve_bond n_ucells luc bc_ch bc_t i b
                   = resolve_bond n_ucells luc bc_ch' bc_t' i b) ->
  make_ribbon at_ gen n_ucells bc_ch bc_t = make_ribbon at_ gen n_ucells bc_ch' bc_t'.
Proof.
  intros H. unfold make_ribbon.
  destruct (translation_vector gen) as [T | e]; [| reflexivity]. cbn [bind].
  destruct (_make_ucell at_ gen) as [ucell | e]; [| reflexivity]. cbn [bind].
  rewrite (sow_cells_ext _ n_ucells _ bc_ch bc_t bc_ch' bc_t' (H _)). reflexivity.
Qed.

Lemma make_ribbon_is_ok (at_ : list (Site Vec2) -> Vec2 -> option (Site Vec2))
  (gen : TubeGen) (n_ucells : Z) (bc_ch bc_t bc_ch' bc_t' : string) :
  is_ok (make_ribbon at_ gen n_ucells bc_ch bc_t)
  = is_ok (make_ribbon at_ gen n_ucells bc_ch' bc_t').
Proof.
  unfold make_ribbon.
  destruct (translation_vector gen) as [T | e]; [| reflexivity]. cbn [bind].
  destruct (_make_ucell at_ gen) as [ucell | e]; reflexivity.
Qed.

(** The sites of the ribbon are those of the two loops of
    [make_ribbon], with the boundary conditions handed on as given. *)
Lemma make_ribbon_sites (at_ : list (Site Vec2) -> Vec2 -> option (Site Vec2))
  (gen : TubeGen) (n_ucells : Z) (bc_ch bc_t : string) (lat : Lattice Vec2) :
  make_ribbon at_ gen n_ucells bc_ch bc_t = Ok lat ->
  exists T ucell,
    translation_vector gen = Ok T /\ _make_ucell at_ gen = Ok ucell /\
    sites lat = _sow_cells (replicate_cells ucell T n_ucells) n_ucells
                           (Z.of_nat (List.length ucell)) bc_ch bc_t.
Proof.
  unfold make_ribbon.
  destruct (translation_vector gen) as [T | e]; [| discriminate]. cbn [bind].
  destruct (_make_ucell at_ gen) as [ucell | e]; [| discriminate]. cbn [bind].
  intros [= <-]. exists T, ucell. repeat split.
Qed.

(** C10.  [make_ribbon] neither checks nor rewrites its boundary
    conditions: any [bc_ch] other than the string periodic gives the
    ribbon of an open circumference, any [bc_t] other than periodic the
    ribbon of an open axis, and whether the call returns does not
    depend on the two strings. *)
Theorem make_ribbon_no_validation
  (at_ : list (Site Vec2) -> Vec2 -> option (Site Vec2))
  (gen : TubeGen) (n_ucells : Z) (bc_ch bc_t : string) :
  (bc_ch <> "periodic"%string ->
   make_ribbon at_ gen n_ucells bc_ch bc_t = make_ribbon at_ gen n_ucells "open" bc_t) /\
  (bc_t <> "periodic"%string ->
   make_ribbon at_ gen n_ucells bc_ch bc_t = make_ribbon at_ gen n_ucells bc_ch "open") /\
  is_ok (make_ribbon at_ gen n_ucells bc_ch bc_t)
  = is_ok (make_ribbon at_ gen n_ucells "periodic" "periodic").
Proof.
  split; [| split].
  - intros H. apply make_ribbon_ext. intros luc i b.
    apply resolve_bond_open_ch. exact H.
  - intros H. apply make_ribbon_ext. intros luc i b.
    apply resolve_bond_open_t. exact H.
  - apply make_ribbon_is_ok.
Qed.

Lemma make_ribbon_no_validation_witness :
  make_ribbon no_site gen_1_1 2 "p" "Periodic"
  = make_ribbon no_site gen_1_1 2 "open" "Periodic" /\
  make_ribbon no_site gen_1_1 2 "p" "Periodic"
  = make_ribbon no_site gen_1_1 2 "p" "open" /\
  is_ok (make_ribbon no_site gen_1_1 2 "p" "Periodic")
  = is_ok (make_ribbon no_site gen_1_1 2 "periodic" "periodic").
Proof.
  destruct (make_ribbon_no_validation no_site gen_1_1 2 "p" "Periodic")
    as (Hch & Ht & Hok).
  split; [apply Hch; discriminate |].
  split; [apply Ht; discriminate | exact Hok].
Defined.

Example make_ribbon_1_1_returns :
  is_ok (make_ribbon no_site gen_1_1 2 "bogus" "bogus") = true.
Proof. reflexivity. Qed.

(** ** Degenerate chirality *)

Lemma translation_vector_lat_basis_degenerate (gen : TubeGen) :
  Z.gcd (2 * snd (chirality gen) + fst (chirality gen))
        (2 * fst (chirality gen) + snd (chirality gen)) = 0 ->
  translation_vector_lat_basis gen = Err ZeroDivisionError.
Proof.
  unfold translation_vector_lat_basis, truediv.
  destruct (chirality gen) as [n m]. cbn [fst snd]. intros ->. reflexivity.
Qed.

Lemma translation_vector_degenerate (gen : TubeGen) :
  translation_vector_lat_basis gen = Err ZeroDivisionError ->
  translation_vector gen = Err ZeroDivisionError.
Proof.
  intros H. unfold translation_vector. destruct (unit_vectors gen) as [a1 a2].
  rewrite H. reflexivity.
Qed.

(** C9, as the code has it.  The only chirality with
    gcd(2m+n, 2n+m) = 0 is (0, 0).  The constructor accepts it, and
    every query that divides by the gcd, [make_ribbon] and [roll_tube]
    end in ZeroDivisionError. *)
Theorem degenerate_chirality_divides_by_zero
  (at_ : list (Site Vec2) -> Vec2 -> option (Site Vec2)) (gen : TubeGen) :
  Z.gcd (2 * snd (chirality gen) + fst (chirality gen))
        (2 * fst (chirality gen) + snd (chirality gen)) = 0 ->
  chirality gen = (0, 0) /\
  TubeGen_init (chirality gen) (spacing gen) = Ok gen /\
  n_hex_ucell gen = Err ZeroDivisionError /\
  n_atoms_ucell gen = Err ZeroDivisionError /\
  translation_vector_lat_basis gen = Err ZeroDivisionError /\
  translation_vector gen = Err ZeroDivisionError /\
  symmetry_vector gen = Err ZeroDivisionError /\
  (forall n_ucells bc_ch bc_t,
     make_ribbon at_ gen n_ucells bc_ch bc_t = Err ZeroDivisionError) /\
  (forall ribbon, roll_tube gen ribbon = Err ZeroDivisionError).
Proof.
  intros Hd.
  pose proof (translation_vector_lat_basis_degenerate gen Hd) as Ht.
  pose proof (translation_vector_degenerate gen Ht) as HT.
  assert (Hh : n_hex_ucell gen = Err ZeroDivisionError).
  { unfold n_hex_ucell, floordiv. destruct (chirality gen) as [n m].
    cbn [fst snd] in Hd. rewrite Hd. reflexivity. }
  split.
  { apply dR_zero_iff in Hd. destruct (chirality gen) as [n m].
    cbn [fst snd] in Hd. destruct Hd as [-> ->]. reflexivity. }
  split; [destruct gen; reflexivity |].
  split; [exact Hh |].
  split; [unfold n_atoms_ucell; rewrite Hh; reflexivity |].
  split; [exact Ht |]. split; [exact HT |].
  split.
  { unfold symmetry_vector. destruct (unit_vectors gen) as [a1 a2].
    rewrite Ht. reflexivity. }
  split.
  - intros n_ucells bc_ch bc_t. unfold make_ribbon. rewrite HT. reflexivity.
  - intros ribbon. unfold roll_tube. rewrite HT. reflexivity.
Qed.

Lemma degenerate_chirality_divides_by_zero_witness :
  chirality (mkTubeGen (0, 0) 1%R) = (0, 0) /\
  TubeGen_init (0, 0) 1%R = Ok (mkTubeGen (0, 0) 1%R) /\
  n_hex_ucell (mkTubeGen (0, 0) 1%R) = Err ZeroDivisionError /\
  n_atoms_ucell (mkTubeGen (0, 0) 1%R) = Err ZeroDivisionError /\
  translation_vector_lat_basis (mkTubeGen (0, 0) 1%R) = Err ZeroDivisionError /\
  translation_vector (mkTubeGen (0, 0) 1%R) = Err ZeroDivisionError /\
  symmetry_vector (mkTubeGen (0, 0) 1%R) = Err ZeroDivisionError /\
  (forall n_ucells bc_ch bc_t,
     make_ribbon no_site (mkTubeGen (0, 0) 1%R) n_ucells bc_ch bc_t
     = Err ZeroDivisionError) /\
  (forall ribbon, roll_tube (mkTubeGen (0, 0) 1%R) ribbon = Err ZeroDivisionError).
Proof.
  apply (degenerate_chirality_divides_by_zero no_site (mkTubeGen (0, 0) 1%R)).
  reflexivity.
Defined.

(** C9 as the spec words it fails: chirality (0, 0) is not refused when
    the generator is built, and the first query divides by zero. *)
Lemma degenerate_chirality_counterexample :
  TubeGen_init (0, 0) 1%R = Ok (mkTubeGen (0, 0) 1%R) /\
  n_hex_ucell (mkTubeGen (0, 0) 1%R) = Err ZeroDivisionError /\
  make_ribbon no_site (mkTubeGen (0, 0) 1%R) 1 "periodic" "periodic"
  = Err ZeroDivisionError.
Proof. repeat split. Qed.

(** ** Boundary conditions on the command line *)

Lemma valid_bc_eqb (b : string) :
  ((b =? "periodic")%string || (b =? "open")%string) = true <-> valid_bc b.
Proof.
  unfold valid_bc. rewrite orb_true_iff, !String.eqb_eq. reflexivity.
Qed.

Lemma expand_shorthand_valid (b : string) :
  valid_bc (expand_shorthand b) <-> is_bc_token b.
Proof.
  unfold expand_shorthand, valid_bc, is_bc_token.
  destruct (String.eqb_spec b "p") as [-> | Hp].
  - split; intros _; [left | left]; reflexivity.
  - destruct (String.eqb_spec b "o") as [-> | Ho].
    + split; intros _; [right; left | right]; reflexivity.
    + split.
      * intros [H | H]; [right; right; left | right; right; right]; exact H.
      * intros [H | [H | [H | H]]]; try contradiction; [left | right]; exact H.
Qed.

Lemma expand_shorthand_periodic (b : string) :
  expand_shorthand b = "periodic"%string <->
  b = "p"%string \/ b = "periodic"%string.
Proof.
  unfold expand_shorthand.
  destruct (String.eqb_spec b "p") as [-> | Hp].
  - split; intros _; [left |]; reflexivity.
  - destruct (String.eqb_spec b "o") as [-> | Ho].
    + split; [discriminate | intros [H | H]; discriminate H].
    + split; [intros H; right; exact H | intros [H | H]; [contradiction | exact H]].
Qed.

Example parse_args_shorthands :
  _parse_args (mkArgs (4, 4) 2 "P" "Open" "3D" 1%R "" "")
  = Ok (mkArgs (4, 4) 2 "periodic" "open" "3d" 1%R "" "").
Proof. reflexivity. Qed.

Example parse_args_unknown :
  _parse_args (mkArgs (4, 4) 2 "p" "closed" "3d" 1%R "" "")
  = Err (ParserError "Unknown boundary condition for bc_t: closed").
Proof. reflexivity. Qed.

(** C2, as the code has it.  On the command line ([_parse_args], then
    [run]) each boundary condition is lower-cased, p and o are expanded,
    and the result must be periodic or open; the embedding must be 2d
    or 3d.  When the three tokens are recognised, [run] generates with
    the normalised values; otherwise the parser's error is the result
    of [run], whatever the generator would have done. *)
Theorem parse_args_normalizes
  (at_ : list (Site Vec2) -> Vec2 -> option (Site Vec2)) (a : Args) :
  (tokens_ok a ->
   exists a',
     _parse_args a = Ok a' /\
     arg_bc_ch a' = expand_shorthand (lower (arg_bc_ch a)) /\
     arg_bc_t a' = expand_shorthand (lower (arg_bc_t a)) /\
     valid_bc (arg_bc_ch a') /\ valid_bc (arg_bc_t a') /\
     (arg_bc_ch a' = "periodic"%string <->
      lower (arg_bc_ch a) = "p"%string \/ lower (arg_bc_ch a) = "periodic"%string) /\
     (arg_bc_t a' = "periodic"%string <->
      lower (arg_bc_t a) = "p"%string \/ lower (arg_bc_t a) = "periodic"%string) /\
     arg_emb a' = lower (arg_emb a) /\
     arg_chirality a' = arg_chirality a /\ arg_length a' = arg_length a /\
     arg_spacing a' = arg_spacing a /\
     run at_ a = generate at_ a') /\
  (~ tokens_ok a ->
   exists msg,
     _parse_args a = Err (ParserError msg) /\
     run at_ a = Err (ParserError msg)).
Proof.
  unfold tokens_ok, run, _parse_args.
  destruct (((lower (arg_emb a) =? "2d")%string || (lower (arg_emb a) =? "3d")%string))
    eqn:Eemb; cbn [negb].
  2:{ split.
      - intros [[H | H] _]; apply String.eqb_eq in H; rewrite H in Eemb;
          [discriminate | rewrite orb_true_r in Eemb; discriminate].
      - intros _. eexists. split; reflexivity. }
  assert (Hemb : lower (arg_emb a) = "2d"%string \/ lower (arg_emb a) = "3d"%string).
  { apply orb_true_iff in Eemb. rewrite !String.eqb_eq in Eemb. exact Eemb. }
  destruct (((expand_shorthand (lower (arg_bc_ch a)) =? "periodic")%string
             || (expand_shorthand (lower (arg_bc_ch a)) =? "open")%string))
    eqn:Ech; cbn [negb].
  2:{ split.
      - intros (_ & H & _). apply expand_shorthand_valid, valid_bc_eqb in H. congruence.
      - intros _. eexists. split; reflexivity. }
  apply valid_bc_eqb in Ech.
  destruct (((expand_shorthand (lower (arg_bc_t a)) =? "periodic")%string
             || (expand_shorthand (lower (arg_bc_t a)) =? "open")%string))
    eqn:Et; cbn [negb].
  2:{ split.
      - intros (_ & _ & H). apply expand_shorthand_valid, valid_bc_eqb in H. congruence.
      - intros _. eexists. split; reflexivity. }
  apply valid_bc_eqb in Et.
  split.
  - intros _. eexists. split; [reflexivity |].
    cbn [arg_bc_ch arg_bc_t arg_emb arg_chirality arg_length arg_spacing bind].
    repeat split; trivial; try apply expand_shorthand_periodic.
  - intros Hn. exfalso. apply Hn.
    split; [exact Hemb |]. split; apply expand_shorthand_valid; assumption.
Qed.

Lemma parse_args_normalizes_witness :
  exists a',
    _parse_args (mkArgs (4, 4) 2 "P" "Open" "3D" 1%R "" "") = Ok a' /\
    arg_bc_ch a' = "periodic"%string /\ arg_bc_t a' = "open"%string /\
    run no_site (mkArgs (4, 4) 2 "P" "Open" "3D" 1%R "" "") = generate no_site a'.
Proof.
  destruct (proj1 (parse_args_normalizes no_site
                     (mkArgs (4, 4) 2 "P" "Open" "3D" 1%R "" "")))
    as (a' & Hp & Hch & Ht & _ & _ & _ & _ & _ & _ & _ & _ & Hrun).
  - split; [right; reflexivity |].
    split; [left; reflexivity | right; right; right; reflexivity].
  - exists a'. repeat split; assumption.
Defined.

(** C2 as the spec words it fails for [make_ribbon]: an unrecognised
    token is not reported, and the shorthand p (like any spelling other
    than periodic) gives the open ribbon, not the periodic one. *)
Lemma make_ribbon_shorthand_counterexample :
  is_ok (make_ribbon no_site gen_1_1 2 "bogus" "bogus") = true /\
  map neighbours (_sow_cells ribbon_1_1 2 4 "p" "P")
  = map neighbours (_sow_cells ribbon_1_1 2 4 "open" "open") /\
  map neighbours (_sow_cells ribbon_1_1 2 4 "p" "P")
  <> map neighbours (_sow_cells ribbon_1_1 2 4 "periodic" "periodic").
Proof.
  split; [reflexivity |]. split; [reflexivity |]. discriminate.
Qed.

(** ** Geometry of the embedding *)

Lemma Q2R_inject_Z (z : Z) : Q2R (inject_Z z) = IZR z.
Proof. unfold Q2R, inject_Z. cbn [Qnum Qden]. field. Qed.

Lemma norm_nonneg (v : Vec2) : (0 <= norm v)%R.
Proof. unfold norm. apply sqrt_pos. Qed.

Lemma norm_square (v : Vec2) :
  (norm v * norm v = fst v * fst v + snd v * snd v)%R.
Proof. unfold norm. apply sqrt_sqrt. nra. Qed.

(** A combination [x*a1 + y*a2] of the unit vectors other than the zero
    combination has positive length. *)
Lemma lattice_vector_norm_pos (gen : TubeGen) (x y : R) :
  (0 < spacing gen)%R -> x <> 0%R \/ y <> 0%R ->
  (0 < norm (vadd (vscale x (fst (unit_vectors gen)))
                  (vscale y (snd (unit_vectors gen)))))%R.
Proof.
  intros Hs Hxy. unfold norm, unit_vectors, vadd, vscale. cbn [fst snd].
  apply sqrt_lt_R0.
  assert (H3 : (sqrt 3 * sqrt 3 = 3)%R) by (apply sqrt_sqrt; lra).
  set (s := spacing gen) in *. set (r := sqrt 3) in *.
  replace ((x * (s * (3 / 2)) + y * (s * (3 / 2))) * (x * (s * (3 / 2)) + y * (s * (3 / 2)))
           + (x * (s * (r / 2)) + y * (s * (- r / 2))) * (x * (s * (r / 2)) + y * (s * (- r / 2))))%R
    with (s * s * (9 / 4 * ((x + y) * (x + y)) + (r * r) / 4 * ((x - y) * (x - y))))%R
    by field.
  rewrite H3.
  assert (Hq : (0 < 9 / 4 * ((x + y) * (x + y)) + 3 / 4 * ((x - y) * (x - y)))%R).
  { assert (Hsq : (0 < x * x + y * y)%R).
    { pose proof (Rle_0_sqr x) as Hx2. pose proof (Rle_0_sqr y) as Hy2.
      unfold Rsqr in Hx2, Hy2.
      destruct Hxy as [Hx | Hy].
      - pose proof (Rsqr_pos_lt x Hx) as Hp. unfold Rsqr in Hp. lra.
      - pose proof (Rsqr_pos_lt y Hy) as Hp. unfold Rsqr in Hp. lra. }
    pose proof (Rle_0_sqr (x + y)) as Hp2. unfold Rsqr in Hp2.
    replace (9 / 4 * ((x + y) * (x + y)) + 3 / 4 * ((x - y) * (x - y)))%R
      with (3 / 2 * ((x + y) * (x + y)) + 3 / 2 * (x * x + y * y))%R by field.
    lra. }
  apply Rmult_lt_0_compat; [nra | exact Hq].
Qed.



Lemma circumference_pos (gen : TubeGen) :
  fst (chirality gen) <> 0 \/ snd (chirality gen) <> 0 ->
  (0 < spacing gen)%R -> (0 < circumference gen)%R.
Proof.
  intros Hnz Hs. unfold circumference, chiral_vector.
  pose proof (lattice_vector_norm_pos gen (IZR (fst (chirality gen)))
                (IZR (snd (chirality gen))) Hs) as H.
  destruct (unit_vectors gen) as [a1 a2]. cbn [fst snd] in H. apply H.
  destruct Hnz as [Hn | Hm]; [left | right]; apply not_0_IZR; assumption.
Qed.

Lemma translation_vector_pos (gen : TubeGen) :
  fst (chirality gen) <> 0 \/ snd (chirality gen) <> 0 ->
  (0 < spacing gen)%R ->
  exists T, translation_vector gen = Ok T /\ (0 < norm T)%R.
Proof.
  intros Hnz Hs.
  assert (Hd : Z.gcd (2 * snd (chirality gen) + fst (chirality gen))
                     (2 * fst (chirality gen) + snd (chirality gen)) <> 0).
  { intros H0. apply dR_zero_iff in H0. lia. }
  destruct (translation_vector_lat_basis_value gen Hd)
    as (a & b & t1 & t2 & _ & _ & Hg & _ & Ht & E1 & E2).
  unfold translation_vector.
  pose proof (lattice_vector_norm_pos gen (Q2R t1) (Q2R t2) Hs) as H.
  destruct (unit_vectors gen) as [a1 a2]. cbn [fst snd] in H.
  rewrite Ht. cbn [bind fst snd]. eexists. split; [reflexivity |].
  apply H.
  rewrite (Qeq_eqR _ _ E1), (Qeq_eqR _ _ E2), !Q2R_inject_Z.
  destruct (Z.eq_dec a 0) as [-> | Ha].
  - right. apply not_0_IZR. rewrite Z.gcd_0_l in Hg. lia.
  - left. apply not_0_IZR. exact Ha.
Qed.



(** ** Fully periodic sewing keeps every recorded bond *)

Lemma bonds_length {P : Type} (s : Site P) :
  List.length (neighbours s) = List.length (cross_ch_boundary s) ->
  List.length (neighbours s) = List.length (cross_t_boundary s) ->
  List.length (bonds s) = List.length (neighbours s).
Proof.
  intros H1 H2. unfold bonds. rewrite !length_combine. lia.
Qed.

Lemma sow_cells_periodic_keeps_bonds {P : Type} (sites : list (Site P))
  (n_ucells luc : Z) (j : nat) (s : Site P) :
  0 <= luc ->
  forallb (site_ok luc) sites = true ->
  nth_error sites j = Some s ->
  List.length (neighbours s) = List.length (cross_ch_boundary s) ->
  List.length (neighbours s) = List.length (cross_t_boundary s) ->
  exists s',
    nth_error (_sow_cells sites n_ucells luc "periodic" "periodic") j = Some s' /\
    List.length (neighbours s') = List.length (neighbours s) /\
    hopping s' = hopping s.
Proof.
  intros Hluc Hok Hs H1 H2.
  rewrite sow_cells_nth_error by assumption. rewrite Hs. cbn [option_map].
  eexists. split; [reflexivity |].
  destruct (Z.of_nat j <? n_ucells * luc); [| split; reflexivity].
  cbn [sow_site set_neighbours neighbours hopping]. split; [| reflexivity].
  rewrite resolve_bonds_periodic_length.
  - apply bonds_length; assumption.
  - rewrite forallb_forall in Hok. apply (Hok s). eapply nth_error_In; eassumption.
Qed.

(** * Further properties of the code *)

(** ** Hexagon counts of the two achiral families *)

(** X1.  An armchair tube (n, n) and a zigzag tube (n, 0), n >= 1,
    both have 2n hexagons and 4n atoms in the unit cell. *)
Theorem n_hex_ucell_achiral (s : R) (n : Z) :
  1 <= n ->
  n_hex_ucell (mkTubeGen (n, n) s) = Ok (2 * n) /\
  n_atoms_ucell (mkTubeGen (n, n) s) = Ok (4 * n) /\
  n_hex_ucell (mkTubeGen (n, 0) s) = Ok (2 * n) /\
  n_atoms_ucell (mkTubeGen (n, 0) s) = Ok (4 * n).
Proof.
  intros Hn.
  assert (Harm : n_hex_ucell (mkTubeGen (n, n) s) = Ok (2 * n)).
  { unfold n_hex_ucell, floordiv. cbn [chirality].
    rewrite Z.gcd_diag, Z.abs_eq by lia.
    destruct (Z.eqb_spec (2 * n + n) 0); [lia |].
    f_equal. replace (2 * (n * n + n * n + n * n)) with (2 * n * (2 * n + n)) by ring.
    apply Z.div_mul. lia. }
  assert (Hzig : n_hex_ucell (mkTubeGen (n, 0) s) = Ok (2 * n)).
  { unfold n_hex_ucell, floordiv. cbn [chirality].
    replace (2 * 0 + n) with n by ring. replace (2 * n + 0) with (n * 2) by ring.
    rewrite Z.gcd_mul_diag_l by lia.
    destruct (Z.eqb_spec n 0); [lia |].
    f_equal. replace (2 * (0 * 0 + n * n + 0 * n)) with (2 * n * n) by ring.
    apply Z.div_mul. lia. }
  split; [exact Harm |].
  split; [unfold n_atoms_ucell; rewrite Harm; cbn [bind]; f_equal; ring |].
  split; [exact Hzig |].
  unfold n_atoms_ucell. rewrite Hzig. cbn [bind]. f_equal. ring.
Qed.

Lemma n_hex_ucell_achiral_witness :
  n_hex_ucell (mkTubeGen (4, 4) 1%R) = Ok (2 * 4) /\
  n_atoms_ucell (mkTubeGen (4, 4) 1%R) = Ok (4 * 4) /\
  n_hex_ucell (mkTubeGen (4, 0) 1%R) = Ok (2 * 4) /\
  n_atoms_ucell (mkTubeGen (4, 0) 1%R) = Ok (4 * 4).
Proof.
  apply (n_hex_ucell_achiral 1%R 4). lia.
Defined.

Lemma n_hex_ucell_exact (s : R) (n m : Z) :
  n <> 0 \/ m <> 0 ->
  exists h,
    n_hex_ucell (mkTubeGen (n, m) s) = Ok h /\
    0 < h /\
    h * Z.gcd (2 * m + n) (2 * n + m) = 2 * (n * n + m * m + n * m) /\
    n_hex_ucell (mkTubeGen (m, n) s) = Ok h.
Proof.
  intros Hnz.
  assert (Hd : Z.gcd (2 * m + n) (2 * n + m) <> 0).
  { intros H0. apply dR_zero_iff in H0. lia. }
  assert (Hdpos : 0 < Z.gcd (2 * m + n) (2 * n + m)).
  { pose proof (Z.gcd_nonneg (2 * m + n) (2 * n + m)). lia. }
  destruct (dR_divides_hexes n m) as [k Hk].
  assert (Hhex : n_hex_ucell (mkTubeGen (n, m) s) = Ok k).
  { unfold n_hex_ucell, floordiv. cbn [chirality].
    destruct (Z.eqb_spec (Z.gcd (2 * m + n) (2 * n + m)) 0); [contradiction |].
    rewrite Hk, Z.div_mul by assumption. reflexivity. }
  exists k. split; [exact Hhex |].
  assert (Hsum : 0 < 2 * (m * m + n * n + m * n)) by nia.
  split; [nia |]. split; [rewrite <- Hk; ring |].
  unfold n_hex_ucell, floordiv. cbn [chirality].
  rewrite (Z.gcd_comm (2 * n + m) (2 * m + n)).
  destruct (Z.eqb_spec (Z.gcd (2 * m + n) (2 * n + m)) 0); [contradiction |].
  replace (2 * (n * n + m * m + n * m)) with (2 * (m * m + n * n + m * n)) by ring.
  rewrite Hk, Z.div_mul by assumption. reflexivity.
Qed.


(** X2.  For every integer chirality other than (0, 0), negative
    entries included, [n_hex_ucell] returns a positive number, the gcd
    divides 2(n^2 + m^2 + nm) without remainder, and exchanging n and m
    gives the same count. *)
Theorem n_hex_ucell_positive (s : R) (n m : Z) :
  n <> 0 \/ m <> 0 ->
  exists h,
    n_hex_ucell (mkTubeGen (n, m) s) = Ok h /\
    0 < h /\
    h * Z.gcd (2 * m + n) (2 * n + m) = 2 * (n * n + m * m + n * m) /\
    n_hex_ucell (mkTubeGen (m, n) s) = Ok h.
Proof. apply n_hex_ucell_exact. Qed.

Lemma n_hex_ucell_positive_witness :
  exists h,
    n_hex_ucell (mkTubeGen (-3, 5) 1%R) = Ok h /\
    0 < h /\
    h * Z.gcd (2 * 5 + -3) (2 * -3 + 5) = 2 * (-3 * -3 + 5 * 5 + -3 * 5) /\
    n_hex_ucell (mkTubeGen (5, -3) 1%R) = Ok h.
Proof.
  apply (n_hex_ucell_positive 1%R (-3) 5). left. lia.
Defined.

(** ** The translation vector *)

Lemma unit_vector_products (gen : TubeGen) (x y u v : R) :
  dot (vadd (vscale x (fst (unit_vectors gen))) (vscale y (snd (unit_vectors gen))))
      (vadd (vscale u (fst (unit_vectors gen))) (vscale v (snd (unit_vectors gen))))
  = (spacing gen * spacing gen
     * (9 / 4 * ((x + y) * (u + v)) + 3 / 4 * ((x - y) * (u - v))))%R.
Proof.
  assert (H3 : (sqrt 3 * sqrt 3 = 3)%R) by (apply sqrt_sqrt; lra).
  unfold unit_vectors, dot, vadd, vscale. cbn [fst snd].
  set (s := spacing gen). set (r := sqrt 3) in *.
  replace ((x * (s * (3 / 2)) + y * (s * (3 / 2))) * (u * (s * (3 / 2)) + v * (s * (3 / 2)))
           + (x * (s * (r / 2)) + y * (s * (- r / 2))) * (u * (s * (r / 2)) + v * (s * (- r / 2))))%R
    with (s * s * (9 / 4 * ((x + y) * (u + v)) + (r * r) / 4 * ((x - y) * (u - v))))%R
    by field.
  rewrite H3. reflexivity.
Qed.

Lemma translation_vector_perpendicular_spec (gen : TubeGen) :
  fst (chirality gen) <> 0 \/ snd (chirality gen) <> 0 ->
  exists T,
    translation_vector gen = Ok T /\
    dot T (chiral_vector gen) = 0%R /\
    (IZR (Z.gcd (2 * snd (chirality gen) + fst (chirality gen))
                (2 * fst (chirality gen) + snd (chirality gen)))
     * IZR (Z.gcd (2 * snd (chirality gen) + fst (chirality gen))
                  (2 * fst (chirality gen) + snd (chirality gen)))
     * (norm T * norm T)
     = 3 * (circumference gen * circumference gen))%R.
Proof.
  intros Hnz.
  assert (Hd : Z.gcd (2 * snd (chirality gen) + fst (chirality gen))
                     (2 * fst (chirality gen) + snd (chirality gen)) <> 0).
  { intros H0. apply dR_zero_iff in H0. lia. }
  destruct (translation_vector_lat_basis_value gen Hd)
    as (a & b & t1 & t2 & Ha & Hb & _ & _ & Ht & E1 & E2).
  set (d := Z.gcd (2 * snd (chirality gen) + fst (chirality gen))
                  (2 * fst (chirality gen) + snd (chirality gen))) in *.
  assert (HA : (IZR a * IZR d = 2 * IZR (snd (chirality gen)) + IZR (fst (chirality gen)))%R).
  { rewrite <- mult_IZR, <- Ha, plus_IZR, mult_IZR. reflexivity. }
  assert (HB : (IZR b * IZR d = 2 * IZR (fst (chirality gen)) + IZR (snd (chirality gen)))%R).
  { rewrite <- mult_IZR, <- Hb, plus_IZR, mult_IZR. reflexivity. }
  assert (HD : IZR d <> 0%R) by (apply not_0_IZR; exact Hd).
  set (A := IZR a) in *. set (B := IZR b) in *. set (D := IZR d) in *.
  set (N := IZR (fst (chirality gen))) in *. set (M := IZR (snd (chirality gen))) in *.
  assert (Hdiff : ((A - B) * D = M - N)%R) by lra.
  assert (Hsum : ((A + B) * D = 3 * (M + N))%R) by lra.
  exists (vadd (vscale A (fst (unit_vectors gen))) (vscale (- B) (snd (unit_vectors gen)))).
  split.
  { unfold translation_vector. destruct (unit_vectors gen) as [a1 a2].
    rewrite Ht. cbn [bind fst snd].
    rewrite (Qeq_eqR _ _ E1), (Qeq_eqR _ _ E2), !Q2R_inject_Z, opp_IZR. reflexivity. }
  assert (HCh : chiral_vector gen
                = vadd (vscale N (fst (unit_vectors gen))) (vscale M (snd (unit_vectors gen)))).
  { unfold chiral_vector. destruct (unit_vectors gen); reflexivity. }
  split.
  - rewrite HCh, unit_vector_products.
    apply (Rmult_eq_reg_l D); [| exact HD].
    replace (A + - B)%R with (A - B)%R by ring.
    replace (A - - B)%R with (A + B)%R by ring.
    transitivity (spacing gen * spacing gen
                  * (9 / 4 * (((A - B) * D) * (N + M))
                     + 3 / 4 * (((A + B) * D) * (N - M))))%R; [field |].
    rewrite Hdiff, Hsum. field.
  - unfold circumference. rewrite !norm_square.
    fold (dot (vadd (vscale A (fst (unit_vectors gen))) (vscale (- B) (snd (unit_vectors gen))))
              (vadd (vscale A (fst (unit_vectors gen))) (vscale (- B) (snd (unit_vectors gen))))).
    fold (dot (chiral_vector gen) (chiral_vector gen)).
    rewrite HCh, !unit_vector_products.
    replace (A + - B)%R with (A - B)%R by ring.
    replace (A - - B)%R with (A + B)%R by ring.
    transitivity (spacing gen * spacing gen
                  * (9 / 4 * (((A - B) * D) * ((A - B) * D))
                     + 3 / 4 * (((A + B) * D) * ((A + B) * D))))%R; [field |].
    rewrite Hdiff, Hsum. field.
Qed.

(** X4.  For a chirality other than (0, 0) the translation vector is
    perpendicular to the chiral vector, and dR^2 |T|^2 = 3 |Ch|^2. *)
Theorem translation_vector_perpendicular (gen : TubeGen) :
  fst (chirality gen) <> 0 \/ snd (chirality gen) <> 0 ->
  exists T,
    translation_vector gen = Ok T /\
    dot T (chiral_vector gen) = 0%R /\
    (IZR (Z.gcd (2 * snd (chirality gen) + fst (chirality gen))
                (2 * fst (chirality gen) + snd (chirality gen)))
     * IZR (Z.gcd (2 * snd (chirality gen) + fst (chirality gen))
                  (2 * fst (chirality gen) + snd (chirality gen)))
     * (norm T * norm T)
     = 3 * (circumference gen * circumference gen))%R.
Proof. apply translation_vector_perpendicular_spec. Qed.

Lemma translation_vector_perpendicular_witness :
  exists T,
    translation_vector gen_3_1 = Ok T /\
    dot T (chiral_vector gen_3_1) = 0%R /\
    (IZR (Z.gcd (2 * snd (chirality gen_3_1) + fst (chirality gen_3_1))
                (2 * fst (chirality gen_3_1) + snd (chirality gen_3_1)))
     * IZR (Z.gcd (2 * snd (chirality gen_3_1) + fst (chirality gen_3_1))
                  (2 * fst (chirality gen_3_1) + snd (chirality gen_3_1)))
     * (norm T * norm T)
     = 3 * (circumference gen_3_1 * circumference gen_3_1))%R.
Proof.
  apply (translation_vector_perpendicular gen_3_1). left. simpl. lia.
Defined.

(** ** Circumference and diameter *)

(** X5.  The circumference is non-negative with
    circumference^2 = 3 * spacing^2 * (n^2 + n*m + m^2); it does not
    change when n and m are exchanged, and diameter * pi is the
    circumference. *)
Theorem circumference_closed_form (s : R) (n m : Z) :
  (0 <= circumference (mkTubeGen (n, m) s))%R /\
  (circumference (mkTubeGen (n, m) s) * circumference (mkTubeGen (n, m) s)
   = 3 * (s * s) * IZR (n * n + n * m + m * m))%R /\
  circumference (mkTubeGen (m, n) s) = circumference (mkTubeGen (n, m) s) /\
  (diameter (mkTubeGen (n, m) s) * PI = circumference (mkTubeGen (n, m) s))%R.
Proof.
  assert (Hsq : forall n' m',
             (circumference (mkTubeGen (n', m') s) * circumference (mkTubeGen (n', m') s)
              = 3 * (s * s) * IZR (n' * n' + n' * m' + m' * m'))%R).
  { intros n' m'. unfold circumference. rewrite norm_square.
    fold (dot (chiral_vector (mkTubeGen (n', m') s)) (chiral_vector (mkTubeGen (n', m') s))).
    assert (HCh : chiral_vector (mkTubeGen (n', m') s)
                  = vadd (vscale (IZR n') (fst (unit_vectors (mkTubeGen (n', m') s))))
                         (vscale (IZR m') (snd (unit_vectors (mkTubeGen (n', m') s)))))
      by reflexivity.
    rewrite HCh, unit_vector_products. cbn [spacing].
    rewrite !plus_IZR, !mult_IZR. field. }
  split; [apply norm_nonneg |].
  split; [apply Hsq |].
  split.
  - apply Rsqr_inj; try apply norm_nonneg.
    unfold Rsqr. rewrite !Hsq. f_equal. f_equal. ring.
  - unfold diameter. field. apply PI_neq0.
Qed.

(** ** Symmetry vectors of the two achiral families *)

Lemma search_p_first (t1 t2 : Q) (cnt : nat) :
  close_to_integer t1 t2 1 = true -> search_p t1 t2 (S cnt) 1 = Some 1.
Proof. intros H. cbn [search_p]. rewrite H. reflexivity. Qed.

Lemma symmetry_vector_first (gen : TubeGen) (a b k : Z) (t1 t2 : Q) (h : Z) :
  translation_vector_lat_basis gen = Ok (t1, t2) ->
  (t1 == inject_Z a)%Q -> (t2 == inject_Z b)%Q ->
  n_hex_ucell gen = Ok h -> 0 < h ->
  a <> 0 -> 1 + 1 * b = k * a ->
  symmetry_vector gen
  = Ok (vadd (vscale 1 (fst (unit_vectors gen)))
             (vscale (IZR k) (snd (unit_vectors gen)))).
Proof.
  intros Ht E1 E2 Hh Hpos Ha Hk.
  rewrite (symmetry_vector_unfold gen t1 t2 (2 * h) Ht (n_atoms_of_hex gen h Hh)).
  assert (Hclose : close_to_integer t1 t2 1 = true).
  { rewrite (close_to_integer_compat t1 (inject_Z a) t2 (inject_Z b) 1 E1 E2).
    apply close_to_integer_exact; [exact Ha | exists k; exact Hk]. }
  destruct (Z.to_nat (2 * h)) as [| cnt] eqn:Ecnt; [lia |].
  rewrite (search_p_first t1 t2 cnt Hclose).
  assert (Hq : (q_of t1 t2 1 == inject_Z k)%Q).
  { rewrite (q_of_compat t1 (inject_Z a) t2 (inject_Z b) 1 E1 E2).
    apply q_of_quotient; assumption. }
  rewrite (Qeq_eqR _ _ Hq), Q2R_inject_Z. reflexivity.
Qed.

(** X6.  For n >= 1 the symmetry vector of the armchair tube (n, n) is
    a1 (p = 1, q = 0) and that of the zigzag tube (n, 0) is a1 - a2
    (p = 1, q = -1). *)
Theorem symmetry_vector_achiral (s : R) (n : Z) :
  1 <= n ->
  symmetry_vector (mkTubeGen (n, n) s)
  = Ok (vadd (vscale 1 (fst (unit_vectors (mkTubeGen (n, n) s))))
             (vscale 0 (snd (unit_vectors (mkTubeGen (n, n) s))))) /\
  symmetry_vector (mkTubeGen (n, 0) s)
  = Ok (vadd (vscale 1 (fst (unit_vectors (mkTubeGen (n, 0) s))))
             (vscale (-1) (snd (unit_vectors (mkTubeGen (n, 0) s))))).
Proof.
  intros Hn.
  destruct (n_hex_ucell_exact s n n ltac:(lia)) as (h1 & Hh1 & Hpos1 & _ & _).
  destruct (n_hex_ucell_exact s n 0 ltac:(lia)) as (h0 & Hh0 & Hpos0 & _ & _).
  split.
  - assert (Hd : Z.gcd (2 * snd (chirality (mkTubeGen (n, n) s)) + fst (chirality (mkTubeGen (n, n) s)))
                       (2 * fst (chirality (mkTubeGen (n, n) s)) + snd (chirality (mkTubeGen (n, n) s)))
                 <> 0).
    { intros H0. apply dR_zero_iff in H0. cbn in H0. lia. }
    destruct (translation_vector_lat_basis_value _ Hd)
      as (a & b & t1 & t2 & Ha & Hb & _ & _ & Ht & E1 & E2).
    cbn [chirality fst snd] in Ha, Hb.
    rewrite Z.gcd_diag, Z.abs_eq in Ha, Hb by lia.
    assert (a = 1) by nia. assert (b = 1) by nia. subst a b.
    apply (symmetry_vector_first _ 1 (-1) 0 t1 t2 h1 Ht E1 E2 Hh1 Hpos1); lia.
  - assert (Hd : Z.gcd (2 * snd (chirality (mkTubeGen (n, 0) s)) + fst (chirality (mkTubeGen (n, 0) s)))
                       (2 * fst (chirality (mkTubeGen (n, 0) s)) + snd (chirality (mkTubeGen (n, 0) s)))
                 <> 0).
    { intros H0. apply dR_zero_iff in H0. cbn in H0. lia. }
    destruct (translation_vector_lat_basis_value _ Hd)
      as (a & b & t1 & t2 & Ha & Hb & _ & _ & Ht & E1 & E2).
    cbn [chirality fst snd] in Ha, Hb.
    replace (2 * 0 + n) with n in Ha, Hb by ring.
    replace (2 * n + 0) with (n * 2) in Ha, Hb by ring.
    rewrite Z.gcd_mul_diag_l in Ha, Hb by lia.
    assert (a = 1) by nia. assert (b = 2) by nia. subst a b.
    apply (symmetry_vector_first _ 1 (-2) (-1) t1 t2 h0 Ht E1 E2 Hh0 Hpos0); lia.
Qed.

Lemma symmetry_vector_achiral_witness :
  symmetry_vector (mkTubeGen (4, 4) 1%R)
  = Ok (vadd (vscale 1 (fst (unit_vectors (mkTubeGen (4, 4) 1%R))))
             (vscale 0 (snd (unit_vectors (mkTubeGen (4, 4) 1%R))))) /\
  symmetry_vector (mkTubeGen (4, 0) 1%R)
  = Ok (vadd (vscale 1 (fst (unit_vectors (mkTubeGen (4, 0) 1%R))))
             (vscale (-1) (snd (unit_vectors (mkTubeGen (4, 0) 1%R))))).
Proof.
  apply (symmetry_vector_achiral 1%R 4). lia.
Defined.

Lemma search_p_succeeds (gen : TubeGen) :
  0 <= snd (chirality gen) <= fst (chirality gen) ->
  fst (chirality gen) <> 0 \/ snd (chirality gen) <> 0 ->
  exists t1 t2 N p,
    translation_vector_lat_basis gen = Ok (t1, t2) /\
    n_atoms_ucell gen = Ok N /\
    search_p t1 t2 (Z.to_nat N) 1 = Some p /\
    1 <= p /\ (inject_Z p <= t1)%Q /\ (t1 <= inject_Z N)%Q.
Proof.
  intros Hnm Hnz.
  assert (Hd : Z.gcd (2 * snd (chirality gen) + fst (chirality gen))
                     (2 * fst (chirality gen) + snd (chirality gen)) <> 0).
  { intros H0. apply dR_zero_iff in H0. lia. }
  destruct (translation_vector_lat_basis_value gen Hd)
    as (a & b & t1 & t2 & Ha & Hb & Hg & Hh & Ht & E1 & E2).
  set (n := fst (chirality gen)) in *. set (m := snd (chirality gen)) in *.
  set (d := Z.gcd (2 * m + n) (2 * n + m)) in *.
  assert (Hdpos : 0 < d) by (pose proof (Z.gcd_nonneg (2 * m + n) (2 * n + m)); lia).
  destruct (reduced_entry_in_range n m a b d Hnm Hnz Hdpos Ha Hb) as [Hapos Hle].
  destruct (exists_solution a b Hapos Hg) as (p0 & Hp0 & Hdiv).
  assert (Hclose : close_to_integer t1 t2 p0 = true).
  { rewrite (close_to_integer_compat t1 (inject_Z a) t2 (inject_Z (- b)) p0 E1 E2).
    apply close_to_integer_exact; [lia | exact Hdiv]. }
  exists t1, t2, (2 * (m * a + n * b)).
  destruct (search_p t1 t2 (Z.to_nat (2 * (m * a + n * b))) 1) as [p |] eqn:Es.
  - exists p. apply search_p_some in Es. destruct Es as (Hr & _ & Hmin).
    split; [exact Ht |]. split; [apply n_atoms_of_hex; exact Hh |].
    split; [reflexivity |]. split; [lia |].
    assert (Hpp0 : p <= p0).
    { destruct (Z.le_gt_cases p p0) as [H | H]; [exact H |].
      rewrite (Hmin p0 ltac:(lia)) in Hclose. discriminate. }
    split; rewrite E1; unfold Qle; cbn [Qnum Qden inject_Z]; lia.
  - exfalso. rewrite search_p_none in Es.
    rewrite (Es p0 ltac:(lia)) in Hclose. discriminate.
Qed.

(** X7.  For n >= m >= 0, not both zero, the search of
    [symmetry_vector] stops at some p with 1 <= p <= t1, and
    t1 <= n_atoms_ucell(): the loop never needs more than
    t1 = (2m+n)/dR turns. *)
Theorem symmetry_vector_search_bound (gen : TubeGen) :
  0 <= snd (chirality gen) <= fst (chirality gen) ->
  fst (chirality gen) <> 0 \/ snd (chirality gen) <> 0 ->
  exists t1 t2 N p,
    translation_vector_lat_basis gen = Ok (t1, t2) /\
    n_atoms_ucell gen = Ok N /\
    search_p t1 t2 (Z.to_nat N) 1 = Some p /\
    1 <= p /\ (inject_Z p <= t1)%Q /\ (t1 <= inject_Z N)%Q.
Proof. apply search_p_succeeds. Qed.

Lemma symmetry_vector_search_bound_witness :
  exists t1 t2 N p,
    translation_vector_lat_basis gen_3_1 = Ok (t1, t2) /\
    n_atoms_ucell gen_3_1 = Ok N /\
    search_p t1 t2 (Z.to_nat N) 1 = Some p /\
    1 <= p /\ (inject_Z p <= t1)%Q /\ (t1 <= inject_Z N)%Q.
Proof.
  apply (symmetry_vector_search_bound gen_3_1).
  - simpl. lia.
  - left. simpl. lia.
Defined.

(** ** Lists built block by block *)

Lemma flat_map_blocks_nth_error {A : Type} (F : Z -> list A) (L k j : nat) :
  (forall i, List.length (F i) = L) -> (0 < L)%nat ->
  nth_error (flat_map F (map Z.of_nat (seq 0 k))) j =
  if (j <? k * L)%nat then nth_error (F (Z.of_nat (j / L))) (j mod L) else None.
Proof.
  intros HL Hpos. induction k as [| k IH].
  - cbn [seq map flat_map]. destruct j; reflexivity.
  - rewrite seq_S, map_app, flat_map_app. cbn [Nat.add map flat_map].
    rewrite app_nil_r.
    assert (Hlen : List.length (flat_map F (map Z.of_nat (seq 0 k))) = (k * L)%nat).
    { clear IH. induction k as [| k IHk]; [reflexivity |].
      rewrite seq_S, map_app, flat_map_app, length_app. cbn [Nat.add map flat_map].
      rewrite app_nil_r, HL, IHk. lia. }
    destruct (Nat.ltb_spec j (k * L)) as [Hj | Hj].
    + rewrite nth_error_app1 by lia. rewrite IH.
      destruct (Nat.ltb_spec j (k * L)); [| lia].
      destruct (Nat.ltb_spec j (S k * L)); [reflexivity | lia].
    + rewrite nth_error_app2 by lia. rewrite Hlen.
      destruct (Nat.ltb_spec j (S k * L)) as [Hj' | Hj'].
      * assert (Hq : (j / L = k)%nat).
        { symmetry. apply (Nat.div_unique j L k (j - k * L)); lia. }
        assert (Hr : (j mod L = j - k * L)%nat).
        { symmetry. apply (Nat.mod_unique j L k (j - k * L)); lia. }
        rewrite Hq, Hr. reflexivity.
      * apply nth_error_None. rewrite HL. lia.
Qed.

Lemma flat_map_blocks_length {A : Type} (F : Z -> list A) (L k : nat) :
  (forall i, List.length (F i) = L) ->
  List.length (flat_map F (map Z.of_nat (seq 0 k))) = (k * L)%nat.
Proof.
  intros HL. induction k as [| k IHk]; [reflexivity |].
  rewrite seq_S, map_app, flat_map_app, length_app. cbn [Nat.add map flat_map].
  rewrite app_nil_r, HL, IHk. lia.
Qed.

(** ** The padded lattice *)


Lemma Ok_inj {A : Type} (x y : A) : Ok x = Ok y -> x = y.
Proof. congruence. Qed.

Lemma padded_lattice_members (gen : TubeGen) (lat padded : list (Site Vec2)) (T : Vec2) :
  translation_vector gen = Ok T ->
  _padded_lattice gen lat = Ok padded ->
  forall s', In s' padded ->
    exists s, In s lat /\
      idx s' = idx s /\ neighbours s' = neighbours s /\
      hopping s' = hopping s /\ even s' = even s /\
      -1 <= pad_ch s' <= 1 /\ -1 <= pad_t s' <= 1 /\
      pos s' = vadd (pos s)
                    (vadd (vscale (IZR (pad_ch s')) (chiral_vector gen))
                          (vscale (IZR (pad_t s')) T)).
Proof.
  intros HT. unfold _padded_lattice. rewrite HT. cbn [bind].
  intros Heq s' Hin. apply Ok_inj in Heq. subst padded. apply in_flat_map in Hin.
  destruct Hin as ([pc pt] & Hoff & Hin).
  apply in_map_iff in Hin. destruct Hin as (s1 & <- & Hin).
  unfold shifted_lattice in Hin. apply in_map_iff in Hin.
  destruct Hin as (s & <- & Hin).
  exists s. split; [exact Hin |].
  cbn [set_pad set_pos idx pos neighbours hopping even pad_ch pad_t].
  assert (Hrange : -1 <= pc <= 1 /\ -1 <= pt <= 1).
  { unfold pad_offsets in Hoff. cbn [In] in Hoff.
    repeat (destruct Hoff as [Hoff | Hoff]; [injection Hoff as <- <-; lia |]).
    contradiction. }
  repeat split; try reflexivity; lia.
Qed.

Lemma translation_vector_returns (gen : TubeGen) :
  fst (chirality gen) <> 0 \/ snd (chirality gen) <> 0 ->
  exists T, translation_vector gen = Ok T.
Proof.
  intros Hnz.
  assert (Hd : Z.gcd (2 * snd (chirality gen) + fst (chirality gen))
                     (2 * fst (chirality gen) + snd (chirality gen)) <> 0).
  { intros H0. apply dR_zero_iff in H0. lia. }
  destruct (translation_vector_lat_basis_value gen Hd)
    as (a & b & t1 & t2 & _ & _ & _ & _ & Ht & _ & _).
  unfold translation_vector. destruct (unit_vectors gen) as [a1 a2].
  rewrite Ht. eexists. reflexivity.
Qed.



(** ** Connecting the sites of a lattice *)

Lemma find_neighbours_length (at_ : list (Site Vec2) -> Vec2 -> option (Site Vec2))
  (padded : list (Site Vec2)) (s0 s1 s2 : Vec2) (site : Site Vec2) :
  (List.length (find_neighbours at_ padded [s0; s1; s2] site) <= 3)%nat.
Proof.
  unfold find_neighbours. cbn [flat_map].
  repeat (destruct (at_ padded _); cbn [List.length app]); lia.
Qed.

Lemma find_neighbours_members (at_ : list (Site Vec2) -> Vec2 -> option (Site Vec2))
  (padded : list (Site Vec2)) (shifts : list Vec2) (site : Site Vec2) (b : Z * Z * Z) :
  at_within at_ ->
  In b (find_neighbours at_ padded shifts site) ->
  exists s', In s' padded /\ b = (idx s', pad_ch s', pad_t s').
Proof.
  intros Hat Hin. unfold find_neighbours in Hin. apply in_flat_map in Hin.
  destruct Hin as (shift & _ & Hin).
  destruct (at_ padded _) as [s' |] eqn:E; [| contradiction].
  destruct Hin as [<- | []]. exists s'. split; [| reflexivity].
  apply (Hat _ _ _ E).
Qed.

Lemma combine_map_triple (found : list (Z * Z * Z)) :
  combine (combine (map (fun b => fst (fst b)) found)
                   (map (fun b => snd (fst b)) found))
          (map (fun b => snd b) found) = found.
Proof.
  induction found as [| [[x y] z] found IH]; cbn [map combine fst snd].
  - reflexivity.
  - rewrite IH. reflexivity.
Qed.

Lemma connect_sites_spec
  (at_ : list (Site Vec2) -> Vec2 -> option (Site Vec2))
  (gen : TubeGen) (lat : list (Site Vec2)) :
  fst (chirality gen) <> 0 \/ snd (chirality gen) <> 0 ->
  exists lat',
    _connect_sites at_ gen lat = Ok lat' /\
    List.length lat' = List.length lat /\
    forall j s, nth_error lat j = Some s ->
      exists s',
        nth_error lat' j = Some s' /\
        idx s' = idx s /\ pos s' = pos s /\ even s' = even s /\
        (List.length (neighbours s') <= 3)%nat /\
        hopping s' = repeat 1 (List.length (neighbours s')) /\
        List.length (cross_ch_boundary s') = List.length (neighbours s') /\
        List.length (cross_t_boundary s') = List.length (neighbours s') /\
        (at_within at_ ->
         forall neigh xch xt, In (neigh, xch, xt) (bonds s') ->
           (exists s0, In s0 lat /\ neigh = idx s0) /\
           -1 <= xch <= 1 /\ -1 <= xt <= 1).
Proof.
  intros Hnz.
  destruct (translation_vector_returns gen Hnz) as [T HT].
  assert (Hp : exists padded, _padded_lattice gen lat = Ok padded).
  { unfold _padded_lattice. rewrite HT. eexists. reflexivity. }
  destruct Hp as [padded Hp].
  unfold _connect_sites. rewrite Hp. cbn [bind].
  destruct (unit_vectors gen) as [a1 a2].
  eexists. split; [reflexivity |]. split; [apply length_map |].
  intros j s Hs. rewrite nth_error_map, Hs. cbn [option_map].
  eexists. split; [reflexivity |].
  cbn [set_bonds idx pos even neighbours hopping cross_ch_boundary cross_t_boundary].
  unfold ones. rewrite !length_map.
  repeat split; try reflexivity.
  - apply find_neighbours_length.
  - unfold bonds in H0.
    cbn [set_bonds neighbours cross_ch_boundary cross_t_boundary] in H0.
    rewrite combine_map_triple in H0.
    destruct (find_neighbours_members at_ padded _ s _ H H0) as (s' & Hin & Hb).
    injection Hb as -> -> ->.
    destruct (padded_lattice_members gen lat padded T HT Hp s' Hin)
      as (s0 & Hs0 & Hidx & _).
    exists s0. split; assumption.
  - unfold bonds in H0.
    cbn [set_bonds neighbours cross_ch_boundary cross_t_boundary] in H0.
    rewrite combine_map_triple in H0.
    destruct (find_neighbours_members at_ padded _ s _ H H0) as (s' & Hin & Hb).
    injection Hb as -> -> ->.
    destruct (padded_lattice_members gen lat padded T HT Hp s' Hin)
      as (s0 & _ & _ & _ & _ & _ & Hc & _). lia.
  - unfold bonds in H0.
    cbn [set_bonds neighbours cross_ch_boundary cross_t_boundary] in H0.
    rewrite combine_map_triple in H0.
    destruct (find_neighbours_members at_ padded _ s _ H H0) as (s' & Hin & Hb).
    injection Hb as -> -> ->.
    destruct (padded_lattice_members gen lat padded T HT Hp s' Hin)
      as (s0 & _ & _ & _ & _ & _ & Hc & _). lia.
  - unfold bonds in H0.
    cbn [set_bonds neighbours cross_ch_boundary cross_t_boundary] in H0.
    rewrite combine_map_triple in H0.
    destruct (find_neighbours_members at_ padded _ s _ H H0) as (s' & Hin & Hb).
    injection Hb as -> -> ->.
    destruct (padded_lattice_members gen lat padded T HT Hp s' Hin)
      as (s0 & _ & _ & _ & _ & _ & _ & Hc & _). lia.
  - unfold bonds in H0.
    cbn [set_bonds neighbours cross_ch_boundary cross_t_boundary] in H0.
    rewrite combine_map_triple in H0.
    destruct (find_neighbours_members at_ padded _ s _ H H0) as (s' & Hin & Hb).
    injection Hb as -> -> ->.
    destruct (padded_lattice_members gen lat padded T HT Hp s' Hin)
      as (s0 & _ & _ & _ & _ & _ & _ & Hc & _). lia.
Qed.




Lemma no_site_within : at_within no_site.
Proof. intros l p s H. discriminate H. Qed.

(** ** The unit cell *)

Lemma pair_blocks_nth_error {A : Type} (f g : Z -> A) (k j : nat) :
  nth_error (flat_map (fun i => [f i; g i]) (map Z.of_nat (seq 0 k))) j =
  if (j <? 2 * k)%nat
  then Some (if Nat.even j then f (Z.of_nat (j / 2)) else g (Z.of_nat (j / 2)))
  else None.
Proof.
  rewrite (flat_map_blocks_nth_error (fun i => [f i; g i]) 2 k j) by (reflexivity || lia).
  replace (k * 2)%nat with (2 * k)%nat by lia.
  destruct (j <? 2 * k)%nat; [| reflexivity].
  pose proof (Nat.mod_upper_bound j 2 ltac:(lia)) as Hm.
  destruct (Nat.even j) eqn:Ev.
  - apply Nat.even_spec in Ev. destruct Ev as [c ->].
    replace (2 * c)%nat with (c * 2)%nat by lia. rewrite Nat.Div0.mod_mul. reflexivity.
  - assert (Hodd : Nat.odd j = true) by (rewrite <- Nat.negb_even, Ev; reflexivity).
    apply Nat.odd_spec in Hodd. destruct Hodd as [c ->].
    replace (2 * c + 1)%nat with (1 + c * 2)%nat by lia.
    rewrite Nat.Div0.mod_add. reflexivity.
Qed.

Lemma symmetry_vector_returns (gen : TubeGen) :
  0 <= snd (chirality gen) <= fst (chirality gen) ->
  fst (chirality gen) <> 0 \/ snd (chirality gen) <> 0 ->
  exists v, symmetry_vector gen = Ok v.
Proof.
  intros Hnm Hnz.
  destruct (search_p_succeeds gen Hnm Hnz) as (t1 & t2 & N & p & Ht & HN & Hs & _).
  rewrite (symmetry_vector_unfold gen t1 t2 N Ht HN), Hs. eexists. reflexivity.
Qed.

Lemma n_atoms_ucell_returns (gen : TubeGen) :
  fst (chirality gen) <> 0 \/ snd (chirality gen) <> 0 ->
  exists h, n_atoms_ucell gen = Ok (2 * h) /\ 0 < h.
Proof.
  intros Hnz. destruct gen as [[n m] s]. cbn [chirality fst snd] in Hnz.
  destruct (n_hex_ucell_exact s n m Hnz) as (h & Hh & Hpos & _).
  exists h. split; [apply n_atoms_of_hex; exact Hh | exact Hpos].
Qed.

Lemma make_ucell_spec
  (at_ : list (Site Vec2) -> Vec2 -> option (Site Vec2)) (gen : TubeGen) :
  0 <= snd (chirality gen) <= fst (chirality gen) ->
  fst (chirality gen) <> 0 \/ snd (chirality gen) <> 0 ->
  exists N ucell,
    n_atoms_ucell gen = Ok N /\ 0 < N /\
    _make_ucell at_ gen = Ok ucell /\
    Z.of_nat (List.length ucell) = N /\
    forall j s, nth_error ucell j = Some s ->
      idx s = Z.of_nat j /\ even s = Nat.even j /\
      (List.length (neighbours s) <= 3)%nat /\
      List.length (hopping s) = List.length (neighbours s) /\
      (at_within at_ -> site_ok N s = true).
Proof.
  intros Hnm Hnz.
  destruct (translation_vector_returns gen Hnz) as [T HT].
  destruct (symmetry_vector_returns gen Hnm Hnz) as [Rv HR].
  destruct (n_atoms_ucell_returns gen Hnz) as (h & HN & Hh).
  exists (2 * h).
  unfold _make_ucell. rewrite HT. cbn [bind]. rewrite HR. cbn [bind].
  destruct (unit_vectors gen) as [a1 a2]. rewrite HN. cbn [bind].
  replace (2 * h / 2) with h by (rewrite Z.mul_comm, Z.div_mul; lia).
  unfold range.
  set (ev := fun i : Z =>
         new_site_even (P := Vec2) (2 * i)
           (vadd (vscale (fmod (dot (vscale (IZR i) Rv)
                                    (vdiv (chiral_vector gen) (norm (chiral_vector gen))))
                               (norm (chiral_vector gen)))
                         (vdiv (chiral_vector gen) (norm (chiral_vector gen))))
                 (vscale (fmod (dot (vscale (IZR i) Rv) (vdiv T (norm T))) (norm T))
                         (vdiv T (norm T))))
           true).
  set (od := fun i : Z =>
         new_site_even (P := Vec2) (2 * i + 1)
           (vadd (vscale (fmod (dot (vadd (vscale (IZR i) Rv)
                                          (vscale (1 / 3) (vadd a1 a2)))
                                    (vdiv (chiral_vector gen) (norm (chiral_vector gen))))
                               (norm (chiral_vector gen)))
                         (vdiv (chiral_vector gen) (norm (chiral_vector gen))))
                 (vscale (fmod (dot (vadd (vscale (IZR i) Rv)
                                          (vscale (1 / 3) (vadd a1 a2)))
                                    (vdiv T (norm T)))
                               (norm T))
                         (vdiv T (norm T))))
           false).
  change (flat_map _ (map Z.of_nat (seq 0 (Z.to_nat h))))
    with (flat_map (fun i => [ev i; od i]) (map Z.of_nat (seq 0 (Z.to_nat h)))).
  set (ucell0 := flat_map (fun i => [ev i; od i]) (map Z.of_nat (seq 0 (Z.to_nat h)))).
  assert (Hlen0 : List.length ucell0 = (Z.to_nat h * 2)%nat).
  { unfold ucell0. apply flat_map_blocks_length. reflexivity. }
  assert (Hnth0 : forall j s, nth_error ucell0 j = Some s ->
                    idx s = Z.of_nat j /\ even s = Nat.even j).
  { intros j s Hs. unfold ucell0 in Hs. rewrite pair_blocks_nth_error in Hs.
    destruct (j <? 2 * Z.to_nat h)%nat; [| discriminate].
    injection Hs as <-.
    destruct (Nat.even j) eqn:Ev; unfold ev, od, new_site_even; cbn [idx even];
      (split; [| reflexivity]).
    - apply Nat.even_spec in Ev. destruct Ev as [c Hc].
      change (fst (Nat.divmod j 1 0 1)) with (j / 2)%nat.
      pose proof (Nat.div_mod_eq j 2) as Hdm.
      pose proof (Nat.mod_upper_bound j 2 ltac:(lia)) as Hm. lia.
    - assert (Hodd : Nat.odd j = true) by (rewrite <- Nat.negb_even, Ev; reflexivity).
      apply Nat.odd_spec in Hodd. destruct Hodd as [c Hc].
      change (fst (Nat.divmod j 1 0 1)) with (j / 2)%nat.
      pose proof (Nat.div_mod_eq j 2) as Hdm.
      pose proof (Nat.mod_upper_bound j 2 ltac:(lia)) as Hm. lia. }
  destruct (connect_sites_spec at_ gen ucell0 Hnz) as (ucell & Hc & Hlen & Hsites).
  exists ucell. split; [reflexivity |]. split; [lia |].
  split; [exact Hc |]. split; [lia |].
  intros j s Hs.
  assert (Hj : (j < List.length ucell0)%nat).
  { rewrite <- Hlen. apply nth_error_Some. congruence. }
  destruct (nth_error ucell0 j) as [s0 |] eqn:Es0;
    [| apply nth_error_None in Es0; lia].
  destruct (Hsites j s0 Es0)
    as (s' & Hs' & Hidx & _ & Hev & Hle & Hhop & _ & _ & Hbonds).
  rewrite Hs in Hs'. injection Hs' as <-.
  destruct (Hnth0 j s0 Es0) as [Hidx0 Hev0].
  split; [congruence |]. split; [congruence |]. split; [exact Hle |].
  split; [rewrite Hhop; apply repeat_length |].
  intros Hat. unfold site_ok. apply forallb_forall.
  intros [[neigh xch] xt] Hin.
  destruct (Hbonds Hat neigh xch xt Hin) as ((s1 & Hs1 & ->) & Hxch & Hxt).
  apply In_nth_error in Hs1. destruct Hs1 as [j1 Hj1].
  destruct (Hnth0 j1 s1 Hj1) as [Hidx1 _].
  assert (Hj1' : (j1 < List.length ucell0)%nat) by (apply nth_error_Some; congruence).
  unfold bond_ok. rewrite !andb_true_iff, !Z.leb_le, Z.ltb_lt. lia.
Qed.



(** ** The assembled ribbon *)

Lemma replicate_cells_length (ucell : list (Site Vec2)) (T : Vec2) (n_ucells : Z) :
  List.length (replicate_cells ucell T n_ucells)
  = (Z.to_nat n_ucells * List.length ucell)%nat.
Proof.
  unfold replicate_cells, range. apply flat_map_blocks_length.
  intros i. unfold shifted_lattice. rewrite !length_map. reflexivity.
Qed.

Lemma replicate_cells_nth_error (ucell : list (Site Vec2)) (T : Vec2) (n_ucells : Z)
  (j : nat) (s : Site Vec2) :
  nth_error (replicate_cells ucell T n_ucells) j = Some s ->
  (j < Z.to_nat n_ucells * List.length ucell)%nat /\
  exists u,
    nth_error ucell (j mod List.length ucell) = Some u /\
    s = set_idx (set_pos u (vadd (pos u) (vscale (IZR (Z.of_nat (j / List.length ucell))) T)))
                (idx u + Z.of_nat (j / List.length ucell) * Z.of_nat (List.length ucell)).
Proof.
  intros Hs.
  assert (Hj : (j < Z.to_nat n_ucells * List.length ucell)%nat).
  { rewrite <- replicate_cells_length with (T := T). apply nth_error_Some. congruence. }
  split; [exact Hj |].
  assert (HL : (0 < List.length ucell)%nat) by nia.
  unfold replicate_cells, range in Hs.
  rewrite (flat_map_blocks_nth_error _ (List.length ucell)) in Hs; try exact HL.
  2:{ intros i. unfold shifted_lattice. rewrite !length_map. reflexivity. }
  destruct (Nat.ltb_spec j (Z.to_nat n_ucells * List.length ucell)); [| lia].
  unfold shifted_lattice in Hs. rewrite !nth_error_map in Hs.
  destruct (nth_error ucell (j mod List.length ucell)) as [u |]; [| discriminate].
  cbn [option_map] in Hs.
  apply (f_equal (fun o => match o with Some x => x | None => s end)) in Hs.
  exists u. split; [reflexivity |]. symmetry. exact Hs.
Qed.

Lemma resolve_bond_range (n_ucells luc : Z) (bc_ch bc_t : string) (i t : Z)
  (b : Z * Z * Z) :
  0 <= i < n_ucells -> bond_ok luc b = true ->
  resolve_bond n_ucells luc bc_ch bc_t i b = Some t ->
  0 <= t < n_ucells * luc.
Proof.
  intros Hi Hok. destruct b as [[neigh xch] xt].
  apply bond_ok_inv in Hok. destruct Hok as (Hn & _ & _).
  pose proof (Z.mod_pos_bound (i + 1) n_ucells ltac:(lia)) as Hup.
  pose proof (Z.mod_pos_bound (i - 1) n_ucells ltac:(lia)) as Hdown.
  unfold resolve_bond.
  destruct ((xch =? 0) || (bc_ch =? "periodic")%string); [| discriminate].
  destruct (xt =? 0); [intros [= <-]; nia |].
  destruct ((xt =? 1) && ((bc_t =? "periodic")%string || negb (i =? n_ucells - 1)));
    [intros [= <-]; nia |].
  destruct ((xt =? -1) && ((bc_t =? "periodic")%string || negb (i =? 0)));
    [intros [= <-]; nia | discriminate].
Qed.

Lemma bonds_length_le {P : Type} (s : Site P) :
  (List.length (bonds s) <= List.length (neighbours s))%nat.
Proof. unfold bonds. rewrite !length_combine. lia. Qed.

Lemma even_block (L q r : nat) :
  Nat.even L = true -> Nat.even (L * q + r) = Nat.even r.
Proof.
  intros HL. rewrite Nat.even_add, Nat.even_mul, HL. cbn [orb].
  destruct (Nat.even r); reflexivity.
Qed.

(** The site at position [j] of the sewn ribbon is the site at position
    [j mod L] of the unit cell, moved to cell [j / L] and sewn there. *)
Lemma sown_ribbon_nth_error (ucell : list (Site Vec2)) (T : Vec2) (n_ucells : Z)
  (bc_ch bc_t : string) (j : nat) (s : Site Vec2) :
  nth_error (_sow_cells (replicate_cells ucell T n_ucells) n_ucells
                        (Z.of_nat (List.length ucell)) bc_ch bc_t) j = Some s ->
  (j < Z.to_nat n_ucells * List.length ucell)%nat /\
  exists u,
    nth_error ucell (j mod List.length ucell) = Some u /\
    s = sow_site n_ucells (Z.of_nat (List.length ucell)) bc_ch bc_t
          (Z.of_nat (j / List.length ucell))
          (set_idx (set_pos u (vadd (pos u)
                                    (vscale (IZR (Z.of_nat (j / List.length ucell))) T)))
                   (idx u + Z.of_nat (j / List.length ucell)
                            * Z.of_nat (List.length ucell))).
Proof.
  intros Hs. rewrite sow_cells_nth_error in Hs by lia.
  destruct (nth_error (replicate_cells ucell T n_ucells) j) as [s0 |] eqn:E0;
    [| discriminate].
  apply replicate_cells_nth_error in E0. destruct E0 as (Hj & u & Hu & ->).
  split; [exact Hj |]. exists u. split; [exact Hu |].
  cbn [option_map] in Hs.
  destruct (Z.ltb_spec (Z.of_nat j) (n_ucells * Z.of_nat (List.length ucell))); [| nia].
  rewrite <- Nat2Z.inj_div in Hs.
  apply (f_equal (fun o => match o with Some x => x | None => s end)) in Hs.
  symmetry. exact Hs.
Qed.

Lemma make_ribbon_spec
  (at_ : list (Site Vec2) -> Vec2 -> option (Site Vec2)) (gen : TubeGen)
  (n_ucells : Z) (bc_ch bc_t : string) :
  0 <= snd (chirality gen) <= fst (chirality gen) ->
  fst (chirality gen) <> 0 \/ snd (chirality gen) <> 0 ->
  exists N lat,
    n_atoms_ucell gen = Ok N /\
    make_ribbon at_ gen n_ucells bc_ch bc_t = Ok lat /\
    name lat = RibbonName (fst (chirality gen)) (snd (chirality gen)) /\
    Z.of_nat (List.length (sites lat)) = Z.max n_ucells 0 * N /\
    forall j s, nth_error (sites lat) j = Some s ->
      idx s = Z.of_nat j /\ even s = Nat.even j /\
      (List.length (neighbours s) <= 3)%nat /\
      (List.length (neighbours s) <= List.length (hopping s))%nat /\
      (at_within at_ ->
       forall t, In t (neighbours s) -> 0 <= t < n_ucells * N).
Proof.
  intros Hnm Hnz.
  destruct (make_ucell_spec at_ gen Hnm Hnz) as (N & ucell & HN & Hpos & Hu & Hlen & Hsites).
  destruct (n_atoms_ucell_returns gen Hnz) as (h & HN' & Hh).
  assert (HNh : N = 2 * h) by congruence.
  destruct (translation_vector_returns gen Hnz) as [T HT].
  exists N. unfold make_ribbon. rewrite HT. cbn [bind]. rewrite Hu. cbn [bind].
  eexists. split; [exact HN |]. split; [reflexivity |]. cbn [sites name].
  split; [reflexivity |]. split.
  - rewrite sow_cells_length, replicate_cells_length, Nat2Z.inj_mul, Hlen.
    destruct (Z.le_gt_cases 0 n_ucells) as [Hn | Hn].
    + rewrite Z2Nat.id by exact Hn. rewrite Z.max_l by exact Hn. reflexivity.
    + replace (Z.to_nat n_ucells) with 0%nat by lia.
      rewrite Z.max_r by lia. reflexivity.
  - intros j s Hs. apply sown_ribbon_nth_error in Hs.
    destruct Hs as (Hj & u & Hu' & ->).
    set (L := List.length ucell) in *.
    assert (HL : (0 < L)%nat) by lia.
    destruct (Hsites _ u Hu') as (Hidx & Hev & Hle & Hhop & Hok).
    pose proof (Nat.div_mod_eq j L) as Hdm.
    unfold sow_site.
    cbn [set_neighbours set_idx set_pos idx even hopping neighbours].
    change (bonds (set_idx (set_pos u _) _)) with (bonds u).
    pose proof (resolve_bonds_length_le n_ucells (Z.of_nat L) bc_ch bc_t
                  (Z.of_nat (j / L)) (bonds u)) as Hres.
    pose proof (bonds_length_le u) as Hbl.
    split; [rewrite Hidx, <- Nat2Z.inj_mul, <- Nat2Z.inj_add; f_equal; lia |].
    split.
    { rewrite Hev. rewrite Hdm at 2. symmetry. apply even_block.
      apply Nat.even_spec. exists (Z.to_nat h). lia. }
    split; [lia |]. split; [lia |].
    intros Hat t Hin.
    apply resolve_bonds_In in Hin. destruct Hin as (b & Hb & Hr).
    rewrite <- Hlen.
    apply (resolve_bond_range n_ucells (Z.of_nat L) bc_ch bc_t (Z.of_nat (j / L)) t b).
    + assert (j / L < Z.to_nat n_ucells)%nat by (apply Nat.Div0.div_lt_upper_bound; lia).
      lia.
    + specialize (Hok Hat). unfold site_ok in Hok.
      rewrite forallb_forall in Hok. rewrite Hlen. apply Hok. exact Hb.
    + exact Hr.
Qed.



(** ** What [_sow_cells] leaves alone *)

(** X12.  [_sow_cells] with a cell length [luc >= 0] keeps the number
    of sites and, at every position, the index, position, hopping list,
    sublattice, padding tags and crossing lists of the site; the list
    of neighbours never grows; a site at a position from
    [n_ucells*luc] on is left as it was, and with [n_ucells <= 0]
    nothing is changed at all. *)
Theorem sow_cells_frame {P : Type} (sites : list (Site P)) (n_ucells luc : Z)
  (bc_ch bc_t : string) :
  0 <= luc ->
  List.length (_sow_cells sites n_ucells luc bc_ch bc_t) = List.length sites /\
  (forall j s, nth_error sites j = Some s ->
     exists s',
       nth_error (_sow_cells sites n_ucells luc bc_ch bc_t) j = Some s' /\
       idx s' = idx s /\ pos s' = pos s /\ hopping s' = hopping s /\
       even s' = even s /\ pad_ch s' = pad_ch s /\ pad_t s' = pad_t s /\
       cross_ch_boundary s' = cross_ch_boundary s /\
       cross_t_boundary s' = cross_t_boundary s /\
       (List.length (neighbours s') <= List.length (neighbours s))%nat /\
       (n_ucells * luc <= Z.of_nat j -> s' = s)) /\
  (n_ucells <= 0 -> _sow_cells sites n_ucells luc bc_ch bc_t = sites).
Proof.
  intros Hluc. split; [apply sow_cells_length |]. split.
  - intros j s Hs. rewrite sow_cells_nth_error by exact Hluc. rewrite Hs.
    cbn [option_map]. eexists. split; [reflexivity |].
    destruct (Z.ltb_spec (Z.of_nat j) (n_ucells * luc)) as [Hj | Hj].
    + unfold sow_site.
      cbn [set_neighbours idx pos hopping even pad_ch pad_t
           cross_ch_boundary cross_t_boundary neighbours].
      repeat (split; [reflexivity |]). split; [| lia].
      pose proof (resolve_bonds_length_le n_ucells luc bc_ch bc_t (Z.of_nat j / luc)
                    (bonds s)).
      pose proof (bonds_length_le s). lia.
    + repeat (split; [reflexivity |]). intros _. reflexivity.
  - intros Hn. unfold _sow_cells, range.
    replace (Z.to_nat n_ucells) with 0%nat by lia. reflexivity.
Qed.

Lemma sow_cells_frame_witness :
  List.length (_sow_cells ribbon_1_1 1 4 "open" "periodic") = List.length ribbon_1_1 /\
  (forall j s, nth_error ribbon_1_1 j = Some s ->
     exists s',
       nth_error (_sow_cells ribbon_1_1 1 4 "open" "periodic") j = Some s' /\
       idx s' = idx s /\ pos s' = pos s /\ hopping s' = hopping s /\
       even s' = even s /\ pad_ch s' = pad_ch s /\ pad_t s' = pad_t s /\
       cross_ch_boundary s' = cross_ch_boundary s /\
       cross_t_boundary s' = cross_t_boundary s /\
       (List.length (neighbours s') <= List.length (neighbours s))%nat /\
       (1 * 4 <= Z.of_nat j -> s' = s)) /\
  (1 <= 0 -> _sow_cells ribbon_1_1 1 4 "open" "periodic" = ribbon_1_1).
Proof.
  apply (sow_cells_frame ribbon_1_1 1 4 "open" "periodic"). lia.
Defined.

(** ** Ribbons that are periodic along both directions *)





(** ** Ribbons with an open axis *)




(** ** The seam of the rolled tube *)

Lemma cos_period_Z (x : R) (k : Z) : cos (x + 2 * IZR k * PI) = cos x.
Proof.
  destruct (Z.le_gt_cases 0 k) as [Hk | Hk].
  - rewrite <- (Z2Nat.id k) by exact Hk. rewrite <- INR_IZR_INZ. apply cos_period.
  - rewrite <- (cos_period (x + 2 * IZR k * PI) (Z.to_nat (- k))).
    f_equal. rewrite INR_IZR_INZ, Z2Nat.id by lia. rewrite opp_IZR. ring.
Qed.

Lemma sin_period_Z (x : R) (k : Z) : sin (x + 2 * IZR k * PI) = sin x.
Proof.
  destruct (Z.le_gt_cases 0 k) as [Hk | Hk].
  - rewrite <- (Z2Nat.id k) by exact Hk. rewrite <- INR_IZR_INZ. apply sin_period.
  - rewrite <- (sin_period (x + 2 * IZR k * PI) (Z.to_nat (- k))).
    f_equal. rewrite INR_IZR_INZ, Z2Nat.id by lia. rewrite opp_IZR. ring.
Qed.

(** Components along the unit vector of [u] of a position moved by
    [x*u + y*v], for [v] perpendicular to [u]. *)
Lemma dot_shifted_along (p u v : Vec2) (x y : R) :
  (0 < norm u)%R -> dot v u = 0%R ->
  dot (vadd p (vadd (vscale x u) (vscale y v))) (vdiv u (norm u))
  = (dot p (vdiv u (norm u)) + x * norm u)%R.
Proof.
  intros Hu Hperp. pose proof (norm_square u) as Hsq.
  destruct p as [p1 p2], u as [u1 u2], v as [v1 v2].
  unfold dot, vadd, vscale, vdiv in *. cbn [fst snd] in *.
  set (nu := norm (u1, u2)) in *.
  replace ((p1 + (x * u1 + y * v1)) * (u1 / nu) + (p2 + (x * u2 + y * v2)) * (u2 / nu))%R
    with (p1 * (u1 / nu) + p2 * (u2 / nu)
          + (x * (u1 * u1 + u2 * u2) + y * (v1 * u1 + v2 * u2)) / nu)%R
    by (field; lra).
  rewrite Hperp, <- Hsq. field. lra.
Qed.

Lemma dot_sym (u v : Vec2) : dot u v = dot v u.
Proof. unfold dot. ring. Qed.

Lemma vadd_swap_shift (p u v : Vec2) (x y : R) :
  vadd p (vadd (vscale x u) (vscale y v)) = vadd p (vadd (vscale y v) (vscale x u)).
Proof.
  destruct p, u, v. unfold vadd, vscale. cbn [fst snd]. f_equal; ring.
Qed.

(** X15.  For a chirality other than (0, 0) and a positive spacing:
    two ribbon sites whose positions differ by k chiral vectors and l
    translation vectors (k, l integers) are rolled to points with the
    same x and y, the z of the second being that of the first plus
    l*|T|.  The two edges of the ribbon meet on the tube, and a shift
    along T is a shift along the axis. *)
Theorem roll_tube_seam (gen : TubeGen) (ribbon ribbon' : Lattice Vec2) :
  fst (chirality gen) <> 0 \/ snd (chirality gen) <> 0 ->
  (0 < spacing gen)%R ->
  exists T tube tube',
    translation_vector gen = Ok T /\
    roll_tube gen ribbon = Ok tube /\
    roll_tube gen ribbon' = Ok tube' /\
    forall (j j' : nat) (s s' : Site Vec2) (k l : Z),
      nth_error (sites ribbon) j = Some s ->
      nth_error (sites ribbon') j' = Some s' ->
      pos s' = vadd (pos s) (vadd (vscale (IZR k) (chiral_vector gen))
                                  (vscale (IZR l) T)) ->
      exists r r',
        nth_error (sites tube) j = Some r /\
        nth_error (sites tube') j' = Some r' /\
        fst (fst (pos r')) = fst (fst (pos r)) /\
        snd (fst (pos r')) = snd (fst (pos r)) /\
        snd (pos r') = (snd (pos r) + IZR l * norm T)%R.
Proof.
  intros Hnz Hs.
  destruct (translation_vector_perpendicular_spec gen Hnz) as (T & HT & Hperp & _).
  destruct (translation_vector_pos gen Hnz Hs) as (T' & HT' & HTpos).
  assert (T' = T) by congruence. subst T'.
  pose proof (circumference_pos gen Hnz Hs) as Hc. unfold circumference in Hc.
  exists T. unfold roll_tube. rewrite HT. cbn [bind].
  eexists. eexists. split; [reflexivity |]. split; [reflexivity |].
  split; [reflexivity |]. cbn [sites].
  intros j j' s s' k l Hj Hj' Hpos.
  rewrite !nth_error_map, Hj, Hj'. cbn [option_map].
  eexists. eexists. split; [reflexivity |]. split; [reflexivity |].
  cbn [new_site pos fst snd]. rewrite Hpos.
  rewrite (dot_shifted_along (pos s) (chiral_vector gen) T (IZR k) (IZR l) Hc Hperp).
  rewrite (vadd_swap_shift (pos s) (chiral_vector gen) T).
  rewrite (dot_shifted_along (pos s) T (chiral_vector gen) (IZR l) (IZR k) HTpos)
    by (rewrite dot_sym; exact Hperp).
  set (nc := norm (chiral_vector gen)) in *.
  set (d := dot (pos s) (vdiv (chiral_vector gen) nc)).
  replace (2 * PI / nc * (d + IZR k * nc))%R
    with (2 * PI / nc * d + 2 * IZR k * PI)%R by (field; lra).
  rewrite cos_period_Z, sin_period_Z. repeat split.
Qed.

Lemma roll_tube_seam_witness :
  exists T tube tube',
    translation_vector gen_1_1 = Ok T /\
    roll_tube gen_1_1 ribbon_lattice_1_1 = Ok tube /\
    roll_tube gen_1_1 ribbon_lattice_1_1 = Ok tube' /\
    forall (j j' : nat) (s s' : Site Vec2) (k l : Z),
      nth_error (sites ribbon_lattice_1_1) j = Some s ->
      nth_error (sites ribbon_lattice_1_1) j' = Some s' ->
      pos s' = vadd (pos s) (vadd (vscale (IZR k) (chiral_vector gen_1_1))
                                  (vscale (IZR l) T)) ->
      exists r r',
        nth_error (sites tube) j = Some r /\
        nth_error (sites tube') j' = Some r' /\
        fst (fst (pos r')) = fst (fst (pos r)) /\
        snd (fst (pos r')) = snd (fst (pos r)) /\
        snd (pos r') = (snd (pos r) + IZR l * norm T)%R.
Proof.
  apply (roll_tube_seam gen_1_1 ribbon_lattice_1_1 ribbon_lattice_1_1).
  - left. simpl. lia.
  - simpl. lra.
Defined.

(** ** The command line, end to end *)

Lemma parse_args_ok (a : Args) :
  tokens_ok a ->
  _parse_args a
  = Ok (mkArgs (arg_chirality a) (arg_length a)
               (expand_shorthand (lower (arg_bc_ch a)))
               (expand_shorthand (lower (arg_bc_t a)))
               (lower (arg_emb a))
               (arg_spacing a) (arg_name a) (arg_comment a)).
Proof.
  unfold tokens_ok, _parse_args. intros (He & Hch & Ht).
  apply expand_shorthand_valid, valid_bc_eqb in Hch.
  apply expand_shorthand_valid, valid_bc_eqb in Ht.
  rewrite Hch, Ht. cbn [negb].
  destruct He as [-> | ->]; reflexivity.
Qed.

(** X16.  [_parse_args] is idempotent: arguments it has accepted are
    accepted again and returned unchanged; the accepted embedding is 2d
    or 3d; name and comment are handed on as given. *)
Theorem parse_args_idempotent (a a' : Args) :
  _parse_args a = Ok a' ->
  _parse_args a' = Ok a' /\
  (arg_emb a' = "2d"%string \/ arg_emb a' = "3d"%string) /\
  arg_name a' = arg_name a /\ arg_comment a' = arg_comment a.
Proof.
  unfold _parse_args at 1.
  destruct ((lower (arg_emb a) =? "2d")%string || (lower (arg_emb a) =? "3d")%string)
    eqn:Eemb; cbn [negb]; [| discriminate].
  destruct ((expand_shorthand (lower (arg_bc_ch a)) =? "periodic")%string
            || (expand_shorthand (lower (arg_bc_ch a)) =? "open")%string)
    eqn:Ech; cbn [negb]; [| discriminate].
  destruct ((expand_shorthand (lower (arg_bc_t a)) =? "periodic")%string
            || (expand_shorthand (lower (arg_bc_t a)) =? "open")%string)
    eqn:Et; cbn [negb]; [| discriminate].
  intros H. apply Ok_inj in H. subst a'.
  apply orb_true_iff in Eemb. rewrite !String.eqb_eq in Eemb.
  apply valid_bc_eqb in Ech. apply valid_bc_eqb in Et.
  unfold _parse_args. cbn [arg_emb arg_bc_ch arg_bc_t arg_chirality arg_length
                           arg_spacing arg_name arg_comment].
  split; [| split; [exact Eemb | split; reflexivity]].
  destruct Eemb as [-> | ->]; destruct Ech as [-> | ->]; destruct Et as [-> | ->];
    reflexivity.
Qed.

Lemma parse_args_idempotent_witness :
  _parse_args (mkArgs (4, 4) 2 "periodic" "open" "3d" 1%R "tube" "")
  = Ok (mkArgs (4, 4) 2 "periodic" "open" "3d" 1%R "tube" "") /\
  (arg_emb (mkArgs (4, 4) 2 "periodic" "open" "3d" 1%R "tube" "") = "2d"%string \/
   arg_emb (mkArgs (4, 4) 2 "periodic" "open" "3d" 1%R "tube" "") = "3d"%string) /\
  arg_name (mkArgs (4, 4) 2 "periodic" "open" "3d" 1%R "tube" "")
  = arg_name (mkArgs (4, 4) 2 "P" "Open" "3D" 1%R "tube" "") /\
  arg_comment (mkArgs (4, 4) 2 "periodic" "open" "3d" 1%R "tube" "")
  = arg_comment (mkArgs (4, 4) 2 "P" "Open" "3D" 1%R "tube" "").
Proof.
  apply (parse_args_idempotent (mkArgs (4, 4) 2 "P" "Open" "3D" 1%R "tube" "")).
  reflexivity.
Defined.

Lemma idx_in_order {P : Type} (l : list (Site P)) :
  (forall j s, nth_error l j = Some s -> idx s = Z.of_nat j) ->
  map idx l = map Z.of_nat (seq 0 (List.length l)).
Proof.
  induction l as [| x l IH] using rev_ind; intros H.
  - reflexivity.
  - rewrite length_app. cbn [List.length]. rewrite Nat.add_1_r, seq_S, !map_app.
    cbn [Nat.add map]. f_equal.
    + apply IH. intros j s Hs. apply H. rewrite nth_error_app1; [exact Hs |].
      apply nth_error_Some. congruence.
    + f_equal. apply H. rewrite nth_error_app2 by lia.
      rewrite Nat.sub_diag. reflexivity.
Qed.

(** X17.  When the three tokens of the command line are recognised and
    the chirality has n >= m >= 0, not both zero, [run] returns, for
    any length: a flat ribbon when the embedding is 2d, a rolled tube
    when it is 3d.  The result is named as asked, or after the
    chirality when no name is given, carries the given comment, has
    max(length, 0) * n_atoms_ucell() sites, and its sites are numbered
    0, 1, 2, ... in order. *)
Theorem run_returns
  (at_ : list (Site Vec2) -> Vec2 -> option (Site Vec2)) (a : Args) :
  tokens_ok a ->
  0 <= snd (arg_chirality a) <= fst (arg_chirality a) ->
  fst (arg_chirality a) <> 0 \/ snd (arg_chirality a) <> 0 ->
  exists N st,
    n_atoms_ucell (mkTubeGen (arg_chirality a) (arg_spacing a)) = Ok N /\
    run at_ a = Ok st /\
    match st with
    | Flat l =>
        lower (arg_emb a) = "2d"%string /\
        name l = (if (arg_name a =? "")%string
                  then RibbonName (fst (arg_chirality a)) (snd (arg_chirality a))
                  else GivenName (arg_name a)) /\
        comment l = arg_comment a /\
        Z.of_nat (List.length (sites l)) = Z.max (arg_length a) 0 * N /\
        map idx (sites l) = map Z.of_nat (seq 0 (List.length (sites l)))
    | Rolled l =>
        lower (arg_emb a) = "3d"%string /\
        name l = (if (arg_name a =? "")%string
                  then TubeName (fst (arg_chirality a)) (snd (arg_chirality a))
                  else GivenName (arg_name a)) /\
        comment l = arg_comment a /\
        Z.of_nat (List.length (sites l)) = Z.max (arg_length a) 0 * N /\
        map idx (sites l) = map Z.of_nat (seq 0 (List.length (sites l)))
    end.
Proof.
  intros Htok Hnm Hnz.
  set (gen := mkTubeGen (arg_chirality a) (arg_spacing a)).
  destruct (make_ribbon_spec at_ gen (arg_length a)
              (expand_shorthand (lower (arg_bc_ch a)))
              (expand_shorthand (lower (arg_bc_t a))) Hnm Hnz)
    as (N & lat & HN & Hlat & Hname & Hlen & Hsites).
  assert (Hidx : map idx (sites lat) = map Z.of_nat (seq 0 (List.length (sites lat)))).
  { apply idx_in_order. intros j s Hs. apply (Hsites j s Hs). }
  assert (Hcomment : comment lat = ""%string).
  { revert Hlat. unfold make_ribbon.
    destruct (translation_vector gen) as [T | e]; [| discriminate]. cbn [bind].
    destruct (_make_ucell at_ gen) as [ucell | e]; [| discriminate]. cbn [bind].
    intros H. apply Ok_inj in H. subst lat. reflexivity. }
  destruct (translation_vector_returns gen Hnz) as [T HT].
  exists N. unfold run. rewrite (parse_args_ok a Htok). cbn [bind].
  unfold generate.
  cbn [arg_chirality arg_length arg_bc_ch arg_bc_t arg_emb arg_spacing
       arg_name arg_comment].
  fold gen. rewrite Hlat. cbn [bind].
  destruct Htok as ([He | He] & _ & _); rewrite He.
  - change ("2d" =? "3d")%string with false. cbn [bind rename].
    eexists. split; [exact HN |]. split; [reflexivity |].
    cbn [name comment sites]. rewrite Hname, Hcomment.
    split; [reflexivity |]. split; [reflexivity |].
    split; [destruct (String.eqb_spec (arg_comment a) ""); congruence |].
    split; [exact Hlen | exact Hidx].
  - change ("3d" =? "3d")%string with true.
    unfold roll_tube. rewrite HT. cbn [bind rename].
    eexists. split; [exact HN |]. split; [reflexivity |].
    cbn [name comment sites].
    split; [reflexivity |]. split; [reflexivity |].
    split; [destruct (String.eqb_spec (arg_comment a) ""); congruence |].
    rewrite length_map, map_map. cbn [new_site idx].
    split; [exact Hlen | exact Hidx].
Qed.

Lemma run_returns_witness :
  exists N st,
    n_atoms_ucell (mkTubeGen (arg_chirality (mkArgs (3, 1) 2 "P" "Open" "3D" 1%R "" "c"))
                             (arg_spacing (mkArgs (3, 1) 2 "P" "Open" "3D" 1%R "" "c")))
    = Ok N /\
    run first_site (mkArgs (3, 1) 2 "P" "Open" "3D" 1%R "" "c") = Ok st /\
    match st with
    | Flat l =>
        lower (arg_emb (mkArgs (3, 1) 2 "P" "Open" "3D" 1%R "" "c")) = "2d"%string /\
        name l = (if (arg_name (mkArgs (3, 1) 2 "P" "Open" "3D" 1%R "" "c") =? "")%string
                  then RibbonName (fst (arg_chirality (mkArgs (3, 1) 2 "P" "Open" "3D" 1%R "" "c")))
                                  (snd (arg_chirality (mkArgs (3, 1) 2 "P" "Open" "3D" 1%R "" "c")))
                  else GivenName (arg_name (mkArgs (3, 1) 2 "P" "Open" "3D" 1%R "" "c"))) /\
        comment l = arg_comment (mkArgs (3, 1) 2 "P" "Open" "3D" 1%R "" "c") /\
        Z.of_nat (List.length (sites l))
        = Z.max (arg_length (mkArgs (3, 1) 2 "P" "Open" "3D" 1%R "" "c")) 0 * N /\
        map idx (sites l) = map Z.of_nat (seq 0 (List.length (sites l)))
    | Rolled l =>
        lower (arg_emb (mkArgs (3, 1) 2 "P" "Open" "3D" 1%R "" "c")) = "3d"%string /\
        name l = (if (arg_name (mkArgs (3, 1) 2 "P" "Open" "3D" 1%R "" "c") =? "")%string
                  then TubeName (fst (arg_chirality (mkArgs (3, 1) 2 "P" "Open" "3D" 1%R "" "c")))
                                (snd (arg_chirality (mkArgs (3, 1) 2 "P" "Open" "3D" 1%R "" "c")))
                  else GivenName (arg_name (mkArgs (3, 1) 2 "P" "Open" "3D" 1%R "" "c"))) /\
        comment l = arg_comment (mkArgs (3, 1) 2 "P" "Open" "3D" 1%R "" "c") /\
        Z.of_nat (List.length (sites l))
        = Z.max (arg_length (mkArgs (3, 1) 2 "P" "Open" "3D" 1%R "" "c")) 0 * N /\
        map idx (sites l) = map Z.of_nat (seq 0 (List.length (sites l)))
    end.
Proof.
  apply (run_returns first_site (mkArgs (3, 1) 2 "P" "Open" "3D" 1%R "" "c")).
  - split; [right; reflexivity | split; [left; reflexivity |]].
    right. right. right. reflexivity.
  - simpl. lia.
  - left. simpl. lia.
Defined.

(** ** Chiralities without a symmetry vector *)

Lemma close_to_integer_zero (t1 t2 : Q) (p : Z) :
  (t1 == 0)%Q -> close_to_integer t1 t2 p = false.
Proof.
  intros E. unfold close_to_integer. apply Qeq_eq_bool in E. rewrite E. reflexivity.
Qed.

Lemma exists_solution_signed (a b : Z) :
  a <> 0 -> Z.gcd a b = 1 ->
  exists p, 1 <= p <= Z.abs a /\ (a | 1 + p * - b).
Proof.
  intros Ha Hg.
  destruct (exists_solution (Z.abs a) b) as (p & Hp & Hdiv).
  - lia.
  - rewrite Z.gcd_abs_l. exact Hg.
  - exists p. split; [exact Hp |]. apply Z.divide_abs_l. exact Hdiv.
Qed.

Lemma reduced_entry_bound (n m a d h : Z) :
  0 < d -> 2 * m + n = a * d -> h * d = 2 * (n * n + m * m + n * m) ->
  Z.abs a <= 2 * h.
Proof.
  intros Hd Ha Hh.
  assert (H1 : 2 * h * d = a * a * d * d + 3 * n * n) by nia.
  assert (H2 : a * a * d <= 2 * h).
  { apply (Zmult_le_reg_r _ _ d); [lia |]. nia. }
  assert (H3 : Z.abs a <= a * a) by nia.
  nia.
Qed.

(** X18.  For a chirality (n, m) other than (0, 0), with t1, t2 and q
    taken as exact rationals: [symmetry_vector] returns whenever
    2m + n <> 0, for either sign of n and m; when 2m + n = 0, as for
    (2, -1), t1 is zero, no p passes the test, and [symmetry_vector],
    [_make_ucell] and [make_ribbon] all end in the RuntimeError of the
    failed search, whatever the length and boundary conditions. *)
Theorem symmetry_vector_domain
  (at_ : list (Site Vec2) -> Vec2 -> option (Site Vec2)) (gen : TubeGen)
  (n_ucells : Z) (bc_ch bc_t : string) :
  fst (chirality gen) <> 0 \/ snd (chirality gen) <> 0 ->
  (2 * snd (chirality gen) + fst (chirality gen) <> 0 ->
   is_ok (symmetry_vector gen) = true) /\
  (2 * snd (chirality gen) + fst (chirality gen) = 0 ->
   symmetry_vector gen = Err no_symmetry_vector /\
   _make_ucell at_ gen = Err no_symmetry_vector /\
   make_ribbon at_ gen n_ucells bc_ch bc_t = Err no_symmetry_vector).
Proof.
  intros Hnz.
  assert (Hd : Z.gcd (2 * snd (chirality gen) + fst (chirality gen))
                     (2 * fst (chirality gen) + snd (chirality gen)) <> 0).
  { intros H0. apply dR_zero_iff in H0. lia. }
  destruct (translation_vector_lat_basis_value gen Hd)
    as (a & b & t1 & t2 & Ha & Hb & Hg & Hh & Ht & E1 & E2).
  destruct (translation_vector_returns gen Hnz) as [T HT].
  pose proof (n_atoms_of_hex gen _ Hh) as HN.
  destruct gen as [[n m] s]. cbn [chirality fst snd] in *.
  set (gen := mkTubeGen (n, m) s) in *.
  set (d := Z.gcd (2 * m + n) (2 * n + m)) in *.
  assert (Hdpos : 0 < d) by (pose proof (Z.gcd_nonneg (2 * m + n) (2 * n + m)); lia).
  destruct (n_hex_ucell_exact s n m Hnz) as (h & Hh' & Hhpos & Hhd & _).
  fold gen in Hh'. fold d in Hhd.
  assert (Hheq : h = m * a + n * b) by congruence.
  rewrite (symmetry_vector_unfold gen t1 t2 _ Ht HN).
  split.
  - intros Hne.
    assert (Hane : a <> 0) by nia.
    destruct (exists_solution_signed a b Hane Hg) as (p0 & Hp0 & Hdiv).
    pose proof (reduced_entry_bound n m a d h Hdpos Ha Hhd) as Hbound.
    assert (Hclose : close_to_integer t1 t2 p0 = true).
    { rewrite (close_to_integer_compat t1 (inject_Z a) t2 (inject_Z (- b)) p0 E1 E2).
      apply close_to_integer_exact; [exact Hane | exact Hdiv]. }
    destruct (search_p t1 t2 (Z.to_nat (2 * (m * a + n * b))) 1) as [p |] eqn:Es;
      [reflexivity |].
    exfalso. rewrite search_p_none in Es.
    rewrite (Es p0 ltac:(lia)) in Hclose. discriminate.
  - intros H0.
    assert (Ha0 : a = 0) by nia.
    assert (Et1 : (t1 == 0)%Q) by (rewrite E1, Ha0; reflexivity).
    assert (Hnone : search_p t1 t2 (Z.to_nat (2 * (m * a + n * b))) 1 = None).
    { apply search_p_none. intros p _. apply close_to_integer_zero. exact Et1. }
    assert (Hsym : symmetry_vector gen = Err no_symmetry_vector).
    { rewrite (symmetry_vector_unfold gen t1 t2 _ Ht HN), Hnone. reflexivity. }
    assert (Hcell : _make_ucell at_ gen = Err no_symmetry_vector).
    { unfold _make_ucell. rewrite HT. cbn [bind]. rewrite Hsym. reflexivity. }
    rewrite Hnone. split; [reflexivity |]. split; [exact Hcell |].
    unfold make_ribbon. rewrite HT. cbn [bind]. rewrite Hcell. reflexivity.
Qed.

Lemma symmetry_vector_domain_witness :
  (2 * snd (chirality (mkTubeGen (2, -1) 1%R)) + fst (chirality (mkTubeGen (2, -1) 1%R)) <> 0 ->
   is_ok (symmetry_vector (mkTubeGen (2, -1) 1%R)) = true) /\
  (2 * snd (chirality (mkTubeGen (2, -1) 1%R)) + fst (chirality (mkTubeGen (2, -1) 1%R)) = 0 ->
   symmetry_vector (mkTubeGen (2, -1) 1%R) = Err no_symmetry_vector /\
   _make_ucell first_site (mkTubeGen (2, -1) 1%R) = Err no_symmetry_vector /\
   make_ribbon first_site (mkTubeGen (2, -1) 1%R) 3 "periodic" "open"
   = Err no_symmetry_vector).
Proof.
  apply (symmetry_vector_domain first_site (mkTubeGen (2, -1) 1%R) 3 "periodic" "open").
  left. simpl. lia.
Defined.

(** * The computation in float64 *)

(** ** Powers of two and binary exponents *)

Lemma pow2_Qpower (e : Z) : (F64.pow2 e == 2 ^ e)%Q.
Proof.
  unfold F64.pow2. destruct (Z.leb_spec 0 e) as [He | He].
  - rewrite Zpower_Qpower by exact He. reflexivity.
  - destruct e as [| p | p]; try lia.
    change (- Z.neg p) with (Z.pos p).
    change (2 ^ Z.neg p)%Q with (/ (inject_Z 2 ^ Z.pos p))%Q.
    rewrite <- Zpower_Qpower by lia.
    assert (Hpos : 0 < 2 ^ Z.pos p) by (apply Z.pow_pos_nonneg; lia).
    destruct (2 ^ Z.pos p) as [| q | q]; try lia. reflexivity.
Qed.

Lemma pow2_pos (e : Z) : (0 < F64.pow2 e)%Q.
Proof. rewrite pow2_Qpower. apply Qpower_0_lt. reflexivity. Qed.

Lemma pow2_add (a b : Z) : (F64.pow2 (a + b) == F64.pow2 a * F64.pow2 b)%Q.
Proof. rewrite !pow2_Qpower. apply Qpower_plus. discriminate. Qed.

Lemma pow2_le (a b : Z) : a <= b -> (F64.pow2 a <= F64.pow2 b)%Q.
Proof.
  intros H. rewrite !pow2_Qpower. apply Qpower_le_compat_l; [exact H | discriminate].
Qed.

Lemma pow2_lt_inv (a b : Z) : (F64.pow2 a < F64.pow2 b)%Q -> a < b.
Proof.
  rewrite !pow2_Qpower. intros H. apply (Qpower_lt_compat_l_inv 2); [exact H | reflexivity].
Qed.

Lemma pow2_nonneg (e : Z) : 0 <= e -> F64.pow2 e = inject_Z (2 ^ e).
Proof.
  intros H. unfold F64.pow2. destruct (Z.leb_spec 0 e); [reflexivity | lia].
Qed.

Lemma pow2_inv (e : Z) : (F64.pow2 e * F64.pow2 (- e) == 1)%Q.
Proof. rewrite <- pow2_add. rewrite Z.add_opp_diag_r. reflexivity. Qed.

Lemma Qpos_num (x : Q) : (0 < x)%Q -> 0 < Qnum x.
Proof. unfold Qlt. cbn. lia. Qed.

Lemma ilog2_le (x : Q) : (0 < x)%Q -> (F64.pow2 (F64.ilog2 x) <= x)%Q.
Proof.
  intros Hx. pose proof (Qpos_num x Hx) as Hn. unfold F64.ilog2.
  destruct (Qle_bool _ x) eqn:E; [apply Qle_bool_iff; exact E |].
  destruct x as [n d]. cbn [Qnum Qden] in *.
  pose proof (Z.log2_spec n Hn) as [Hn1 _].
  pose proof (Z.log2_spec (Z.pos d) ltac:(lia)) as [_ Hd2].
  pose proof (Z.log2_nonneg n) as Hln.
  pose proof (Z.log2_nonneg (Z.pos d)) as Hld.
  replace (Z.log2 n - Z.log2 (Z.pos d) - 1)
    with (Z.log2 n + - Z.succ (Z.log2 (Z.pos d))) by lia.
  rewrite pow2_add, (pow2_nonneg (Z.log2 n)) by lia.
  unfold F64.pow2 at 1.
  destruct (Z.leb_spec 0 (- Z.succ (Z.log2 (Z.pos d)))); [lia |].
  rewrite Z.opp_involutive.
  assert (Hp : 0 < 2 ^ Z.succ (Z.log2 (Z.pos d))) by (apply Z.pow_pos_nonneg; lia).
  unfold Qle, Qmult, inject_Z. cbn [Qnum Qden].
  rewrite Pos.mul_1_l, Z2Pos.id by lia. nia.
Qed.

Lemma ilog2_inject_Z (k : Z) : 0 < k -> F64.ilog2 (inject_Z k) = Z.log2 k.
Proof.
  intros Hk. unfold F64.ilog2. cbn [Qnum Qden inject_Z].
  change (Z.log2 1) with 0. rewrite Z.sub_0_r.
  pose proof (Z.log2_spec k Hk) as [H1 _].
  pose proof (Z.log2_nonneg k) as Hl.
  destruct (Qle_bool _ _) eqn:E; [reflexivity |].
  exfalso. assert (Hle : (F64.pow2 (Z.log2 k) <= inject_Z k)%Q).
  { rewrite pow2_nonneg by lia. rewrite <- Zle_Qle. exact H1. }
  apply Qle_bool_iff in Hle. congruence.
Qed.

(** ** The nearest integer *)

Lemma round_half_even_comp (y y' : Q) :
  (y == y')%Q -> F64.round_half_even y = F64.round_half_even y'.
Proof.
  intros H. unfold F64.round_half_even.
  rewrite (Qfloor_comp _ _ H).
  assert (Hc : (y - inject_Z (Qfloor y') ?= 1 # 2)%Q = (y' - inject_Z (Qfloor y') ?= 1 # 2)%Q)
    by (rewrite H; reflexivity).
  rewrite Hc. reflexivity.
Qed.

Lemma round_half_even_int (k : Z) : F64.round_half_even (inject_Z k) = k.
Proof.
  unfold F64.round_half_even. rewrite Qfloor_Z.
  destruct (Qcompare_spec (inject_Z k - inject_Z k) (1 # 2)) as [E | E | E];
    [lra | reflexivity | lra].
Qed.

Lemma round_half_even_floor (y : Q) :
  Qfloor y <= F64.round_half_even y <= Qfloor y + 1.
Proof.
  unfold F64.round_half_even.
  destruct (_ ?= _)%Q; [destruct (Z.even _) |..]; lia.
Qed.

Lemma round_half_even_err (y : Q) :
  (Qabs (inject_Z (F64.round_half_even y) - y) <= 1 # 2)%Q.
Proof.
  pose proof (Qfloor_le y) as H1. pose proof (Qlt_floor y) as H2.
  rewrite inject_Z_plus in H2. change (inject_Z 1) with 1%Q in H2.
  apply Qabs_Qle_condition. unfold F64.round_half_even.
  destruct (Qcompare_spec (y - inject_Z (Qfloor y)) (1 # 2)) as [E | E | E].
  - destruct (Z.even (Qfloor y));
      [| rewrite inject_Z_plus; change (inject_Z 1) with 1%Q]; lra.
  - lra.
  - rewrite inject_Z_plus. change (inject_Z 1) with 1%Q. lra.
Qed.

Lemma round_half_even_ge (G : Z) (y : Q) :
  (inject_Z G <= y)%Q -> G <= F64.round_half_even y.
Proof.
  intros H. apply Qfloor_resp_le in H. rewrite Qfloor_Z in H.
  pose proof (round_half_even_floor y). lia.
Qed.

Lemma round_half_even_le (G : Z) (y : Q) :
  (y <= inject_Z G)%Q -> F64.round_half_even y <= G.
Proof.
  intros H. pose proof (round_half_even_floor y) as Hf.
  pose proof (Qfloor_le y) as H1.
  assert (Hfl : Qfloor y <= G).
  { apply Qfloor_resp_le in H. rewrite Qfloor_Z in H. exact H. }
  destruct (Z.eq_dec (Qfloor y) G) as [E | E]; [| lia].
  assert (Hy : (y == inject_Z G)%Q) by (rewrite E in H1; lra).
  rewrite (round_half_even_comp _ _ Hy), round_half_even_int. lia.
Qed.

(** ** Rounding *)

Lemma Qred_inject_Z (k : Z) : Qred (inject_Z k) = inject_Z k.
Proof.
  unfold Qred, inject_Z.
  pose proof (Z.ggcd_gcd k 1) as Hg.
  pose proof (Z.ggcd_correct_divisors k 1) as Hd.
  destruct (Z.ggcd k 1) as [g [aa bb]]. cbn [fst snd] in *.
  rewrite Z.gcd_1_r in Hg. subst g. destruct Hd as [Ha Hb].
  rewrite Z.mul_1_l in Ha, Hb. subst aa bb. reflexivity.
Qed.

Lemma round_comp (x x' : Q) : (x == x')%Q -> F64.round x = F64.round x'.
Proof.
  intros H. unfold F64.round.
  rewrite (Qeqb_comp x x' H 0%Q 0%Q (Qeq_refl 0)), (Qred_complete x x' H). reflexivity.
Qed.

Lemma fin_comp (x x' : Q) : (x == x')%Q -> F64.fin x = F64.fin x'.
Proof. intros H. unfold F64.fin. rewrite (Qred_complete x x' H). reflexivity. Qed.

Lemma fin_inject_Z (k : Z) : F64.fin (inject_Z k) = F64.Fin (inject_Z k).
Proof. unfold F64.fin. rewrite Qred_inject_Z. reflexivity. Qed.

(** A rational that is a multiple of its last bit is a float64. *)
Lemma round_nonzero_multiple (x : Q) (K : Z) :
  (x == inject_Z K * F64.pow2 (F64.ulp_exp x))%Q ->
  (Qabs x < F64.pow2 1024)%Q ->
  F64.round_nonzero x = F64.fin x.
Proof.
  intros HK Hb. unfold F64.round_nonzero.
  pose proof (pow2_pos (F64.ulp_exp x)) as Hp.
  set (s := F64.ulp_exp x) in *.
  assert (Hq : (x / F64.pow2 s == inject_Z K)%Q).
  { rewrite HK at 1. field. lra. }
  rewrite (round_half_even_comp _ _ Hq), round_half_even_int.
  assert (Hle : Qle_bool (F64.pow2 1024) (Qabs (inject_Z K * F64.pow2 s)) = false).
  { destruct (Qle_bool _ _) eqn:E; [| reflexivity].
    apply Qle_bool_iff in E. rewrite <- HK in E. lra. }
  rewrite Hle. apply fin_comp. symmetry. exact HK.
Qed.

Lemma Qabs_inject_Z (k : Z) : Qabs (inject_Z k) = inject_Z (Z.abs k).
Proof. reflexivity. Qed.

Lemma inject_Z_nonzero (k : Z) : k <> 0 -> ~ (inject_Z k == 0)%Q.
Proof. intros H E. apply H. unfold Qeq in E. cbn in E. lia. Qed.

(** Integers of at most 53 bits are float64 numbers. *)
Lemma round_int (k : Z) :
  Z.abs k <= 2 ^ 53 -> F64.round (inject_Z k) = F64.Fin (inject_Z k).
Proof.
  intros Hk. unfold F64.round.
  destruct (Qeq_bool (inject_Z k) 0) eqn:E0.
  - apply Qeq_bool_eq in E0. rewrite (fin_comp 0 (inject_Z k)) by (symmetry; exact E0).
    apply fin_inject_Z.
  - apply Qeq_bool_neq in E0.
    assert (Hnz : k <> 0) by (intros ->; apply E0; reflexivity).
    rewrite Qred_inject_Z.
    assert (Hl : 0 <= Z.log2 (Z.abs k) <= 53).
    { split; [apply Z.log2_nonneg |].
      apply Z.log2_le_mono in Hk. rewrite Z.log2_pow2 in Hk by lia. exact Hk. }
    assert (Hs : F64.ulp_exp (inject_Z k) = Z.log2 (Z.abs k) - 52).
    { unfold F64.ulp_exp. rewrite Qabs_inject_Z, ilog2_inject_Z by lia. lia. }
    rewrite <- fin_inject_Z.
    destruct (Z.eq_dec (Z.log2 (Z.abs k)) 53) as [E53 | E53].
    + assert (Habs : Z.abs k = 2 ^ 53).
      { pose proof (Z.log2_spec (Z.abs k) ltac:(lia)) as [H1 _].
        rewrite E53 in H1. lia. }
      apply (round_nonzero_multiple _ (k / 2)).
      * rewrite Hs, E53. change (F64.pow2 (53 - 52)) with (inject_Z 2).
        rewrite <- inject_Z_mult. apply inject_Z_injective.
        change (2 ^ 53) with 9007199254740992 in Habs.
        destruct (Z.abs_spec k) as [[_ Hk'] | [_ Hk']]; rewrite Habs in Hk'.
        -- subst k. reflexivity.
        -- assert (k = -9007199254740992) by lia. subst k. reflexivity.
      * rewrite Qabs_inject_Z, Habs. reflexivity.
    + apply (round_nonzero_multiple _ (k * 2 ^ (52 - Z.log2 (Z.abs k)))).
      * rewrite Hs, inject_Z_mult, <- pow2_nonneg by lia.
        rewrite <- Qmult_assoc, <- pow2_add.
        replace (52 - Z.log2 (Z.abs k) + (Z.log2 (Z.abs k) - 52)) with 0 by lia.
        change (F64.pow2 0) with 1%Q. ring.
      * rewrite Qabs_inject_Z.
        apply Qle_lt_trans with (inject_Z (2 ^ 53)); [rewrite <- Zle_Qle; exact Hk |].
        reflexivity.
Qed.

Lemma Qabs_bounds (x : Q) : (- Qabs x <= x <= Qabs x)%Q.
Proof. apply Qabs_Qle_condition. apply Qle_refl. Qed.

Lemma Qabs_pos_nonzero (x : Q) : ~ (x == 0)%Q -> (0 < Qabs x)%Q.
Proof.
  intros H. destruct (Qlt_le_dec 0 (Qabs x)) as [Hlt | Hle]; [exact Hlt |].
  exfalso. apply H. pose proof (Qabs_nonneg x). pose proof (Qabs_bounds x). lra.
Qed.

(** The last bit of a number of the normal range is at most 2^-52 of it. *)
Lemma ulp_exp_le (x : Q) :
  ~ (x == 0)%Q -> (F64.pow2 (-1022) <= Qabs x)%Q ->
  (F64.pow2 (F64.ulp_exp x) * F64.pow2 52 <= Qabs x)%Q.
Proof.
  intros Hnz Hn. rewrite <- pow2_add. unfold F64.ulp_exp.
  pose proof (ilog2_le (Qabs x) (Qabs_pos_nonzero x Hnz)) as He.
  destruct (Z.max_spec (F64.ilog2 (Qabs x)) (-1022)) as [[_ ->] | [_ ->]].
  - replace (-1022 - 52 + 52) with (-1022) by lia. exact Hn.
  - replace (F64.ilog2 (Qabs x) - 52 + 52) with (F64.ilog2 (Qabs x)) by lia. exact He.
Qed.

(** What [round_nonzero] returns, and how far it is from its argument. *)
Lemma round_nonzero_near (x : Q) :
  (Qabs x + F64.pow2 (F64.ulp_exp x) < F64.pow2 1024)%Q ->
  exists y,
    F64.round_nonzero x = F64.Fin y /\
    (y == inject_Z (F64.round_half_even (x / F64.pow2 (F64.ulp_exp x)))
          * F64.pow2 (F64.ulp_exp x))%Q /\
    (Qabs (y - x) <= F64.pow2 (F64.ulp_exp x) * (1 # 2))%Q.
Proof.
  intros Hb. unfold F64.round_nonzero.
  pose proof (pow2_pos (F64.ulp_exp x)) as Hp.
  set (s := F64.ulp_exp x) in *.
  pose proof (round_half_even_err (x / F64.pow2 s)) as Herr.
  set (K := F64.round_half_even (x / F64.pow2 s)) in *.
  apply Qabs_Qle_condition in Herr.
  assert (Hx : (x == x / F64.pow2 s * F64.pow2 s)%Q) by (field; lra).
  set (u := (x / F64.pow2 s)%Q) in *.
  assert (Hd : (- (F64.pow2 s * (1 # 2)) <= inject_Z K * F64.pow2 s - x
                <= F64.pow2 s * (1 # 2))%Q).
  { rewrite Hx. nra. }
  pose proof (Qabs_bounds x) as Hax.
  assert (Hle : Qle_bool (F64.pow2 1024) (Qabs (inject_Z K * F64.pow2 s)) = false).
  { destruct (Qle_bool _ _) eqn:E; [| reflexivity].
    apply Qle_bool_iff in E. exfalso.
    assert (Hy : (Qabs (inject_Z K * F64.pow2 s) <= Qabs x + F64.pow2 s * (1 # 2))%Q).
    { apply Qabs_Qle_condition. lra. }
    lra. }
  rewrite Hle. exists (Qred (inject_Z K * F64.pow2 s)).
  split; [reflexivity |]. split; [apply Qred_correct |].
  rewrite Qred_correct. apply Qabs_Qle_condition. exact Hd.
Qed.

Lemma round_nonzero_unfold (x : Q) :
  ~ (x == 0)%Q -> F64.round x = F64.round_nonzero (Qred x).
Proof.
  intros H. unfold F64.round.
  destruct (Qeq_bool x 0) eqn:E; [apply Qeq_bool_eq in E; contradiction | reflexivity].
Qed.

(** The relative error of a rounding in the normal range is at most 2^-53. *)
Lemma round_err (x : Q) :
  ~ (x == 0)%Q -> (F64.pow2 (-1022) <= Qabs x)%Q -> (Qabs x <= F64.pow2 1000)%Q ->
  exists y, F64.round x = F64.Fin y /\ (Qabs (y - x) <= Qabs x * F64.pow2 (-53))%Q.
Proof.
  intros Hnz Hlo Hhi. rewrite (round_nonzero_unfold x Hnz).
  pose proof (Qred_correct x) as Hr.
  assert (Hnz' : ~ (Qred x == 0)%Q) by (rewrite Hr; exact Hnz).
  assert (Hlo' : (F64.pow2 (-1022) <= Qabs (Qred x))%Q) by (rewrite Hr; exact Hlo).
  assert (Ha : (Qabs (Qred x) == Qabs x)%Q) by (rewrite Hr; reflexivity).
  pose proof (ulp_exp_le (Qred x) Hnz' Hlo') as Hu. rewrite Ha in Hu.
  pose proof (pow2_pos (F64.ulp_exp (Qred x))) as Hp.
  assert (H52 : F64.pow2 52 = 4503599627370496%Q) by reflexivity.
  assert (H53 : F64.pow2 (-53) = (1 # 9007199254740992)%Q) by reflexivity.
  assert (Hbig : (F64.pow2 1000 * 2 < F64.pow2 1024)%Q) by (vm_compute; reflexivity).
  rewrite H52 in Hu.
  destruct (round_nonzero_near (Qred x)) as (y & Hy & _ & Herr).
  { rewrite Ha. lra. }
  exists y. split; [exact Hy |].
  assert (Hyx : (Qabs (y - Qred x) == Qabs (y - x))%Q) by (rewrite Hr; reflexivity).
  rewrite Hyx in Herr. rewrite H53. lra.
Qed.

(** Rounding a number of [2^-27, 1) does not take it below 2^-27. *)
Lemma round_unit_bracket (x : Q) :
  (F64.pow2 (-27) <= x)%Q -> (x < 1)%Q ->
  exists y, F64.round x = F64.Fin y /\ (F64.pow2 (-27) <= y)%Q.
Proof.
  intros Hlo Hhi.
  pose proof (pow2_pos (-27)) as H27.
  assert (Hnz : ~ (x == 0)%Q) by lra.
  rewrite (round_nonzero_unfold x Hnz).
  pose proof (Qred_correct x) as Hr.
  set (x' := Qred x) in *.
  assert (Habs : (Qabs x' == x')%Q) by (apply Qabs_pos; lra).
  assert (He : F64.ilog2 (Qabs x') < 0).
  { apply pow2_lt_inv. change (F64.pow2 0) with 1%Q.
    pose proof (ilog2_le (Qabs x') ltac:(lra)). lra. }
  assert (Hs : F64.ulp_exp x' <= -53) by (unfold F64.ulp_exp; lia).
  pose proof (pow2_pos (F64.ulp_exp x')) as Hp.
  assert (Hsle : (F64.pow2 (F64.ulp_exp x') <= F64.pow2 (-53))%Q) by (apply pow2_le; exact Hs).
  assert (H53 : F64.pow2 (-53) = (1 # 9007199254740992)%Q) by reflexivity.
  assert (Hbig : (2 < F64.pow2 1024)%Q) by (vm_compute; reflexivity).
  rewrite H53 in Hsle.
  destruct (round_nonzero_near x') as (y & Hy & Hyv & _).
  { lra. }
  exists y. split; [exact Hy |]. rewrite Hyv.
  set (s := F64.ulp_exp x') in *.
  assert (HG : (F64.pow2 (-27) == inject_Z (2 ^ (-27 - s)) * F64.pow2 s)%Q).
  { rewrite <- pow2_nonneg by lia. rewrite <- pow2_add.
    replace (-27 - s + s) with (-27) by lia. reflexivity. }
  assert (Hge : 2 ^ (-27 - s) <= F64.round_half_even (x' / F64.pow2 s)).
  { apply round_half_even_ge. apply Qle_shift_div_l; [exact Hp |].
    rewrite <- HG. lra. }
  rewrite HG. apply Qmult_le_compat_r; [| lra].
  rewrite <- Zle_Qle. exact Hge.
Qed.

(** ** The test of the loop *)

Lemma tol_value :
  F64.tol = F64.Fin (7737125245533627 # 77371252455336267181195264).
Proof. vm_compute. reflexivity. Qed.

Lemma negative_iff (x : Q) : F64.negative x = true <-> (x < 0)%Q.
Proof.
  unfold F64.negative, Qlt. cbn [Qnum Qden]. rewrite Z.ltb_lt. lia.
Qed.

Lemma negative_false_iff (x : Q) : F64.negative x = false <-> (0 <= x)%Q.
Proof.
  unfold F64.negative, Qle. cbn [Qnum Qden]. rewrite Z.ltb_ge. lia.
Qed.

Lemma Qfloor_eq (y : Q) (z : Z) :
  (inject_Z z <= y)%Q -> (y < inject_Z z + 1)%Q -> Qfloor y = z.
Proof.
  intros H1 H2. pose proof (Qfloor_le y) as H3. pose proof (Qlt_floor y) as H4.
  rewrite inject_Z_plus in H4. change (inject_Z 1) with 1%Q in H4.
  assert (Ha : (inject_Z (Qfloor y) < inject_Z (z + 1))%Q).
  { rewrite inject_Z_plus. change (inject_Z 1) with 1%Q. lra. }
  assert (Hb : (inject_Z z < inject_Z (Qfloor y + 1))%Q).
  { rewrite inject_Z_plus. change (inject_Z 1) with 1%Q. lra. }
  rewrite <- Zlt_Qlt in Ha, Hb. lia.
Qed.

Lemma Qceiling_eq (y : Q) (z : Z) :
  (inject_Z z - 1 < y)%Q -> (y <= inject_Z z)%Q -> Qceiling y = z.
Proof.
  intros H1 H2. unfold Qceiling.
  rewrite (Qfloor_eq (- y) (- z)); [lia | |]; rewrite inject_Z_opp; lra.
Qed.

(** A float above the tolerance fails the comparison with it. *)
Lemma lt_tol_false (w : Q) :
  (F64.pow2 (-27) <= w)%Q -> F64.lt (F64.abs (F64.Fin w)) F64.tol = false.
Proof.
  intros Hw. rewrite tol_value. unfold F64.abs, F64.fin, F64.lt.
  assert (H27 : F64.pow2 (-27) = (1 # 134217728)%Q) by reflexivity.
  rewrite H27 in Hw.
  assert (Ha : (Qabs w == w)%Q) by (apply Qabs_pos; lra).
  assert (Hle : (7737125245533627 # 77371252455336267181195264 <= Qred (Qabs w))%Q).
  { rewrite Qred_correct, Ha. lra. }
  apply Qle_bool_iff in Hle. rewrite Hle. reflexivity.
Qed.

(** The test of the loop on an integer. *)
Lemma close_to_integer_int (z : Z) :
  F64.close_to_integer (F64.Fin (inject_Z z)) = true.
Proof.
  unfold F64.close_to_integer, F64.mod1.
  assert (Hc : Qceiling (inject_Z z) = z) by (apply Qceiling_eq; lra).
  rewrite Hc, Qfloor_Z.
  assert (Hr : (inject_Z z - inject_Z (if F64.negative (inject_Z z) then z else z) == 0)%Q).
  { destruct (F64.negative (inject_Z z)); ring. }
  destruct (F64.negative (inject_Z z)).
  all: match goal with
       | |- context [F64.negative ?r] =>
           assert (Hn : F64.negative r = false) by (apply negative_false_iff; lra);
           rewrite Hn
       end.
  all: rewrite (fin_comp _ 0) by lra; reflexivity.
Qed.

(** The test of the loop on a float that is at least 2^-27 away from
    the integers around it. *)
Lemma close_to_integer_frac (z0 : Z) (y : Q) :
  (inject_Z z0 + F64.pow2 (-27) <= y)%Q ->
  (y <= inject_Z z0 + 1 - F64.pow2 (-27))%Q ->
  F64.close_to_integer (F64.Fin y) = false.
Proof.
  intros H1 H2. pose proof (pow2_pos (-27)) as Hp.
  assert (H27 : F64.pow2 (-27) = (1 # 134217728)%Q) by reflexivity.
  unfold F64.close_to_integer, F64.mod1.
  assert (Hf : Qfloor y = z0) by (apply Qfloor_eq; lra).
  assert (Hc : Qceiling y = z0 + 1).
  { apply Qceiling_eq; rewrite inject_Z_plus; change (inject_Z 1) with 1%Q; lra. }
  rewrite Hf, Hc.
  destruct (F64.negative y).
  - assert (Hn : F64.negative (y - inject_Z (z0 + 1)) = true).
    { apply negative_iff. rewrite inject_Z_plus. change (inject_Z 1) with 1%Q. lra. }
    rewrite Hn.
    destruct (round_unit_bracket (y - inject_Z (z0 + 1) + 1)) as (w & Hw & Hwb).
    + rewrite inject_Z_plus. change (inject_Z 1) with 1%Q. lra.
    + rewrite inject_Z_plus. change (inject_Z 1) with 1%Q. lra.
    + rewrite Hw. apply lt_tol_false. exact Hwb.
  - assert (Hn : F64.negative (y - inject_Z z0) = false).
    { apply negative_false_iff. lra. }
    rewrite Hn. unfold F64.fin. apply lt_tol_false. rewrite Qred_correct. lra.
Qed.

(** An infinity or a nan fails the test. *)
Lemma close_to_integer_not_finite (q : F64.f64) :
  (forall x, q <> F64.Fin x) -> F64.close_to_integer q = false.
Proof.
  intros H. destruct q as [x | s |]; [exfalso; apply (H x); reflexivity | |]; reflexivity.
Qed.

(** ** Arithmetic on small integers *)

Lemma of_int_exact (p : Z) :
  Z.abs p <= 2 ^ 53 -> F64.of_int p = Ok (F64.Fin (inject_Z p)).
Proof. intros H. unfold F64.of_int. rewrite (round_int p H). reflexivity. Qed.

Lemma truediv_exact_f64 (x d z : Z) :
  d <> 0 -> x = z * d -> Z.abs z <= 2 ^ 53 ->
  F64.truediv x d = Ok (F64.Fin (inject_Z z)).
Proof.
  intros Hd Hx Hz. unfold F64.truediv.
  destruct (Z.eqb_spec d 0); [contradiction |].
  assert (Hq : (inject_Z x / inject_Z d == inject_Z z)%Q).
  { subst x. rewrite inject_Z_mult. field. apply inject_Z_nonzero. exact Hd. }
  rewrite (round_comp _ _ Hq), (round_int z Hz). reflexivity.
Qed.

Lemma neg_int (z : Z) : F64.neg (F64.Fin (inject_Z z)) = F64.Fin (inject_Z (- z)).
Proof.
  unfold F64.neg. rewrite <- fin_inject_Z. apply fin_comp.
  rewrite inject_Z_opp. reflexivity.
Qed.

Lemma mul_int (x y : Z) :
  Z.abs (x * y) <= 2 ^ 53 ->
  F64.mul (F64.Fin (inject_Z x)) (F64.Fin (inject_Z y)) = F64.Fin (inject_Z (x * y)).
Proof.
  intros H. unfold F64.mul.
  rewrite (round_comp _ (inject_Z (x * y))) by (rewrite inject_Z_mult; reflexivity).
  apply round_int. exact H.
Qed.

Lemma add_one_int (x : Z) :
  Z.abs (1 + x) <= 2 ^ 53 ->
  F64.add (F64.fin 1) (F64.Fin (inject_Z x)) = F64.Fin (inject_Z (1 + x)).
Proof.
  intros H. change (F64.fin 1) with (F64.Fin (inject_Z 1)). unfold F64.add.
  rewrite (round_comp _ (inject_Z (1 + x))) by (rewrite inject_Z_plus; reflexivity).
  apply round_int. exact H.
Qed.

Lemma div_int (x a : Z) :
  a <> 0 ->
  F64.div (F64.Fin (inject_Z x)) (F64.Fin (inject_Z a))
  = F64.round (inject_Z x / inject_Z a).
Proof.
  intros Ha. unfold F64.div, F64.is_zero.
  destruct (Qeq_bool (inject_Z a) 0) eqn:E; [| reflexivity].
  apply Qeq_bool_eq in E. exfalso. revert E. apply inject_Z_nonzero. exact Ha.
Qed.

(** A quotient of integers that is not an integer rounds to a float64
    that is at least 2^-27 away from the integers around it, as long as
    the numerator has at most 52 bits and the denominator less than 26. *)
Lemma round_quotient_frac (x a : Z) :
  a <> 0 -> Z.abs a < 2 ^ 26 -> Z.abs x <= 2 ^ 52 -> ~ (a | x) ->
  exists y z0,
    F64.round (inject_Z x / inject_Z a) = F64.Fin y /\
    (inject_Z z0 + F64.pow2 (-27) <= y)%Q /\
    (y <= inject_Z z0 + 1 - F64.pow2 (-27))%Q.
Proof.
  intros Ha Hab Hxb Hnd.
  set (A := Z.abs a). set (Y := x * Z.sgn a).
  assert (HA : 0 < A) by (unfold A; lia).
  assert (HY : Z.abs Y = Z.abs x).
  { unfold Y. destruct (Z.lt_trichotomy a 0) as [H | [H | H]];
      [rewrite Z.sgn_neg by lia | lia | rewrite Z.sgn_pos by lia]; lia. }
  assert (Hq : (inject_Z x / inject_Z a == inject_Z Y / inject_Z A)%Q).
  { unfold Y, A. rewrite inject_Z_mult.
    destruct (Z.abs_spec a) as [[Hs ->] | [Hs ->]].
    - rewrite Z.sgn_pos by lia. field. apply inject_Z_nonzero. exact Ha.
    - rewrite Z.sgn_neg by lia. rewrite inject_Z_opp. change (inject_Z (-1)) with (-1)%Q.
      field. apply inject_Z_nonzero. exact Ha. }
  rewrite (round_comp _ _ Hq).
  assert (HndA : Y mod A <> 0).
  { intros H0. apply Hnd. apply Z.mod_divide in H0; [| lia].
    destruct H0 as [k Hk]. unfold Y, A in Hk. exists k.
    destruct (Z.abs_spec a) as [[Hs Habs] | [Hs Habs]]; rewrite Habs in Hk.
    - rewrite Z.sgn_pos in Hk by lia. lia.
    - rewrite Z.sgn_neg in Hk by lia. lia. }
  pose proof (Z.div_mod Y A ltac:(lia)) as Hdm.
  pose proof (Z.mod_pos_bound Y A HA) as Hr.
  set (z0 := Y / A) in *. set (r := Y mod A) in *.
  set (qx := (inject_Z Y / inject_Z A)%Q).
  assert (HqA : (0 < inject_Z A)%Q) by (rewrite <- (Zlt_Qlt 0); exact HA).
  assert (Hqx : (qx * inject_Z A == inject_Z z0 * inject_Z A + inject_Z r)%Q).
  { unfold qx. rewrite Hdm, inject_Z_plus, inject_Z_mult. field. lra. }
  assert (Hrlo : (1 <= inject_Z r)%Q) by (rewrite <- (Zle_Qle 1); lia).
  assert (Hrhi : (inject_Z r <= inject_Z A - 1)%Q).
  { assert (H : (inject_Z r <= inject_Z (A - 1))%Q) by (rewrite <- Zle_Qle; lia).
    unfold Z.sub in H. rewrite inject_Z_plus, inject_Z_opp in H.
    change (inject_Z 1) with 1%Q in H. lra. }
  assert (HAb : (inject_Z A <= 67108863)%Q).
  { change 67108863%Q with (inject_Z 67108863). rewrite <- Zle_Qle.
    change (2 ^ 26) with 67108864 in Hab. unfold A. lia. }
  assert (Hax : (Qabs qx * inject_Z A <= 4503599627370496)%Q).
  { unfold qx.
    assert (E : (Qabs (inject_Z Y / inject_Z A) * inject_Z A == inject_Z (Z.abs Y))%Q).
    { unfold Qdiv. rewrite Qabs_Qmult, Qabs_Qinv, Qabs_inject_Z.
      rewrite (Qabs_pos (inject_Z A)) by lra. field. lra. }
    rewrite E, HY. change 4503599627370496%Q with (inject_Z 4503599627370496).
    rewrite <- Zle_Qle. exact Hxb. }
  assert (HY0 : Y <> 0).
  { intros E0. apply HndA. unfold r. rewrite E0. apply Z.mod_0_l. lia. }
  assert (Hnz : ~ (qx == 0)%Q).
  { intros E. apply (inject_Z_nonzero Y HY0).
    assert (E' : (inject_Z Y == qx * inject_Z A)%Q) by (unfold qx; field; lra).
    rewrite E', E. ring. }
  assert (Hlow : (1 <= Qabs qx * inject_Z A)%Q).
  { unfold qx.
    assert (E : (Qabs (inject_Z Y / inject_Z A) * inject_Z A == inject_Z (Z.abs Y))%Q).
    { unfold Qdiv. rewrite Qabs_Qmult, Qabs_Qinv, Qabs_inject_Z.
      rewrite (Qabs_pos (inject_Z A)) by lra. field. lra. }
    rewrite E. rewrite <- (Zle_Qle 1). lia. }
  pose proof (Qabs_nonneg qx) as Hqn.
  assert (H1022 : (F64.pow2 (-1022) <= 1 # 67108864)%Q) by (vm_compute; discriminate).
  assert (H1000 : (4503599627370496 <= F64.pow2 1000)%Q) by (vm_compute; discriminate).
  assert (H53 : F64.pow2 (-53) = (1 # 9007199254740992)%Q) by reflexivity.
  assert (H27 : F64.pow2 (-27) = (1 # 134217728)%Q) by reflexivity.
  assert (Hlo : (F64.pow2 (-1022) <= Qabs qx)%Q).
  { apply Qle_trans with (1 # 67108864)%Q; [exact H1022 |]. nra. }
  assert (Hhi : (Qabs qx <= F64.pow2 1000)%Q).
  { apply Qle_trans with 4503599627370496%Q; [| exact H1000]. nra. }
  destruct (round_err qx Hnz Hlo Hhi) as (y & Hy & Herr).
  exists y, z0. split; [exact Hy |].
  apply Qabs_Qle_condition in Herr. rewrite H53 in Herr. rewrite H27.
  set (e := (Qabs qx * (1 # 9007199254740992))%Q) in *.
  assert (He : (e * inject_Z A <= 1 # 2)%Q) by (unfold e; nra).
  split.
  - apply (Qmult_le_r _ _ (inject_Z A)); [exact HqA |]. nra.
  - apply (Qmult_le_r _ _ (inject_Z A)); [exact HqA |]. nra.
Qed.

(** ** The loop *)

Lemma divide_dec (a x : Z) : a <> 0 -> {(a | x)} + {~ (a | x)}.
Proof.
  intros Ha. destruct (Z.eq_dec (x mod a) 0) as [E | E].
  - left. apply Z.mod_divide; assumption.
  - right. intros H. apply E. apply Z.mod_divide; assumption.
Qed.

Lemma q_of_int (a t2 p : Z) :
  a <> 0 -> Z.abs p <= 2 ^ 53 -> Z.abs (p * t2) <= 2 ^ 53 -> Z.abs (1 + p * t2) <= 2 ^ 53 ->
  F64.q_of (F64.Fin (inject_Z a)) (F64.Fin (inject_Z t2)) p
  = Ok (F64.round (inject_Z (1 + p * t2) / inject_Z a)).
Proof.
  intros Ha Hp Hm Hs. unfold F64.q_of.
  rewrite (of_int_exact p Hp). cbn [bind].
  rewrite (mul_int p t2 Hm), (add_one_int (p * t2) Hs), (div_int _ a Ha). reflexivity.
Qed.

(** With [t1 = 0] the candidate is an infinity or a nan and fails. *)
Lemma q_of_zero (t2 : F64.f64) (p : Z) :
  Z.abs p <= 2 ^ 53 ->
  exists q, F64.q_of (F64.Fin (inject_Z 0)) t2 p = Ok q /\ F64.close_to_integer q = false.
Proof.
  intros Hp. unfold F64.q_of. rewrite (of_int_exact p Hp). cbn [bind].
  eexists. split; [reflexivity |].
  apply close_to_integer_not_finite. intros x.
  destruct (F64.add (F64.fin 1) (F64.mul (F64.Fin (inject_Z p)) t2)) as [y | s |];
    cbn [F64.div]; [| discriminate | discriminate].
  change (F64.is_zero (inject_Z 0)) with true. cbn iota.
  destruct (F64.is_zero y); discriminate.
Qed.


(** The test of the loop, as long as the numbers stay small: it passes
    exactly when [t1] divides [1 + p*t2], and then [q] is that
    quotient. *)
Lemma f64_test_divides (a t2 p : Z) :
  a <> 0 -> Z.abs a < 2 ^ 26 -> Z.abs p <= 2 ^ 53 -> Z.abs (p * t2) < 2 ^ 52 ->
  exists q,
    F64.q_of (F64.Fin (inject_Z a)) (F64.Fin (inject_Z t2)) p = Ok q /\
    (F64.close_to_integer q = true <-> (a | 1 + p * t2)) /\
    (forall z, 1 + p * t2 = z * a -> q = F64.Fin (inject_Z z)).
Proof.
  intros Ha Hab Hp Hm.
  assert (H52 : 2 ^ 53 = 2 * 2 ^ 52) by reflexivity.
  rewrite (q_of_int a t2 p Ha Hp) by lia.
  eexists. split; [reflexivity |].
  set (X := 1 + p * t2) in *.
  assert (HX : Z.abs X <= 2 ^ 52) by (unfold X; lia).
  assert (Hdiv : forall z, X = z * a ->
            F64.round (inject_Z X / inject_Z a) = F64.Fin (inject_Z z)).
  { intros z Hz.
    assert (Hq : (inject_Z X / inject_Z a == inject_Z z)%Q).
    { rewrite Hz, inject_Z_mult. field. apply inject_Z_nonzero. exact Ha. }
    rewrite (round_comp _ _ Hq). apply round_int.
    assert (Z.abs z <= Z.abs X) by (rewrite Hz, Z.abs_mul; nia). lia. }
  split; [| exact Hdiv].
  destruct (divide_dec a X Ha) as [Hd | Hnd].
  - destruct Hd as [z Hz]. rewrite (Hdiv z Hz), close_to_integer_int.
    split; [intros _; exists z; exact Hz | reflexivity].
  - destruct (round_quotient_frac X a Ha Hab HX Hnd) as (y & z0 & Hy & H1 & H2).
    rewrite Hy, (close_to_integer_frac z0 y H1 H2).
    split; [discriminate | intros Hd; contradiction].
Qed.

Lemma f64_search_none (t1 t2 : F64.f64) (cnt : nat) (p0 : Z) :
  (forall p, p0 <= p < p0 + Z.of_nat cnt ->
     exists q, F64.q_of t1 t2 p = Ok q /\ F64.close_to_integer q = false) ->
  F64.search_p t1 t2 cnt p0 = Ok None.
Proof.
  revert p0. induction cnt as [| cnt IH]; intros p0 H; cbn [F64.search_p].
  - reflexivity.
  - destruct (H p0 ltac:(lia)) as (q & Hq & Hc). rewrite Hq. cbn [bind]. rewrite Hc.
    apply IH. intros p Hp. apply H. lia.
Qed.

Lemma f64_search_found (t1 t2 : F64.f64) (cnt : nat) (p0 p : Z) (q : F64.f64) :
  p0 <= p < p0 + Z.of_nat cnt ->
  (forall p', p0 <= p' < p ->
     exists q', F64.q_of t1 t2 p' = Ok q' /\ F64.close_to_integer q' = false) ->
  F64.q_of t1 t2 p = Ok q -> F64.close_to_integer q = true ->
  F64.search_p t1 t2 cnt p0 = Ok (Some (p, q)).
Proof.
  revert p0. induction cnt as [| cnt IH]; intros p0 Hr Hbefore Hq Hc; cbn [F64.search_p].
  - lia.
  - destruct (Z.eq_dec p0 p) as [-> | Hne].
    + rewrite Hq. cbn [bind]. rewrite Hc. reflexivity.
    + destruct (Hbefore p0 ltac:(lia)) as (q' & Hq' & Hc'). rewrite Hq'. cbn [bind].
      rewrite Hc'. apply IH; [lia | | exact Hq | exact Hc].
      intros p' Hp'. apply Hbefore. lia.
Qed.

(** The least positive solution of a divisibility that has one. *)
Lemma least_solution (a b p0 : Z) :
  a <> 0 -> 1 <= p0 -> (a | 1 + p0 * b) ->
  exists p, 1 <= p <= p0 /\ (a | 1 + p * b) /\
            forall p', 1 <= p' < p -> ~ (a | 1 + p' * b).
Proof.
  intros Ha Hp0 Hd.
  assert (H : forall k : nat, forall p1, 1 <= p1 -> Z.of_nat k = p0 - p1 + 1 ->
                (forall p', 1 <= p' < p1 -> ~ (a | 1 + p' * b)) ->
                exists p, 1 <= p <= p0 /\ (a | 1 + p * b) /\
                          forall p', 1 <= p' < p -> ~ (a | 1 + p' * b)).
  { induction k as [| k IH]; intros p1 Hp1 Hk Hbefore.
    - exfalso. apply (Hbefore p0); [lia | exact Hd].
    - destruct (divide_dec a (1 + p1 * b) Ha) as [Hy | Hn].
      + exists p1. split; [lia |]. split; [exact Hy | exact Hbefore].
      + apply (IH (p1 + 1)); [lia | lia |].
        intros p' Hp'. destruct (Z.eq_dec p' p1) as [-> | Hne]; [exact Hn |].
        apply Hbefore. lia. }
  apply (H (Z.to_nat p0) 1); [lia | lia |]. intros p' Hp'. lia.
Qed.

(** ** The translation vector and the search *)

Lemma f64_translation_vector_lat_basis_value (gen : TubeGen) :
  fst (chirality gen) <> 0 \/ snd (chirality gen) <> 0 ->
  Z.abs (2 * snd (chirality gen) + fst (chirality gen)) <= 2 ^ 53 ->
  Z.abs (2 * fst (chirality gen) + snd (chirality gen)) <= 2 ^ 53 ->
  exists a b h t1 t2,
    a * Z.gcd (2 * snd (chirality gen) + fst (chirality gen))
              (2 * fst (chirality gen) + snd (chirality gen))
    = 2 * snd (chirality gen) + fst (chirality gen) /\
    b * Z.gcd (2 * snd (chirality gen) + fst (chirality gen))
              (2 * fst (chirality gen) + snd (chirality gen))
    = 2 * fst (chirality gen) + snd (chirality gen) /\
    Z.gcd a b = 1 /\
    n_hex_ucell gen = Ok h /\ 0 < h /\
    h = snd (chirality gen) * a + fst (chirality gen) * b /\
    Z.abs a <= 2 * h /\
    F64.translation_vector_lat_basis gen
    = Ok (F64.Fin (inject_Z a), F64.Fin (inject_Z (- b))) /\
    translation_vector_lat_basis gen = Ok (t1, t2) /\
    (t1 == inject_Z a)%Q /\ (t2 == inject_Z (- b))%Q.
Proof.
  intros Hnz Hab Hbb.
  assert (Hd : Z.gcd (2 * snd (chirality gen) + fst (chirality gen))
                     (2 * fst (chirality gen) + snd (chirality gen)) <> 0).
  { intros H0. apply dR_zero_iff in H0. lia. }
  destruct (translation_vector_lat_basis_value gen Hd)
    as (a & b & t1 & t2 & Ha & Hb & Hg & Hh & Ht & E1 & E2).
  destruct gen as [[n m] s]. cbn [chirality fst snd] in *.
  set (d := Z.gcd (2 * m + n) (2 * n + m)) in *.
  assert (Hdpos : 0 < d) by (pose proof (Z.gcd_nonneg (2 * m + n) (2 * n + m)); lia).
  destruct (n_hex_ucell_exact s n m Hnz) as (h & Hh' & Hhpos & Hhd & _).
  fold d in Hhd.
  assert (Hheq : h = m * a + n * b) by congruence.
  exists a, b, h, t1, t2.
  split; [lia |]. split; [lia |]. split; [exact Hg |]. split; [exact Hh' |].
  split; [exact Hhpos |]. split; [exact Hheq |].
  split; [apply (reduced_entry_bound n m a d h Hdpos Ha Hhd) |].
  split; [| split; [exact Ht | split; assumption]].
  unfold F64.translation_vector_lat_basis. cbn [chirality]. fold d.
  rewrite (truediv_exact_f64 (2 * m + n) d a) by nia. cbn [bind].
  rewrite (truediv_exact_f64 (2 * n + m) d b) by nia. cbn [bind].
  rewrite neg_int. reflexivity.
Qed.

Lemma f64_symmetry_core (gen : TubeGen) :
  fst (chirality gen) <> 0 \/ snd (chirality gen) <> 0 ->
  Z.abs (2 * snd (chirality gen) + fst (chirality gen)) < 2 ^ 26 ->
  Z.abs (2 * fst (chirality gen) + snd (chirality gen)) < 2 ^ 26 ->
  exists a b h,
    a * Z.gcd (2 * snd (chirality gen) + fst (chirality gen))
              (2 * fst (chirality gen) + snd (chirality gen))
    = 2 * snd (chirality gen) + fst (chirality gen) /\
    b * Z.gcd (2 * snd (chirality gen) + fst (chirality gen))
              (2 * fst (chirality gen) + snd (chirality gen))
    = 2 * fst (chirality gen) + snd (chirality gen) /\
    Z.gcd a b = 1 /\
    n_hex_ucell gen = Ok h /\ 0 < h /\ Z.abs a <= 2 * h /\
    Z.abs a < 2 ^ 26 /\ Z.abs b < 2 ^ 26 /\
    F64.translation_vector_lat_basis gen
    = Ok (F64.Fin (inject_Z a), F64.Fin (inject_Z (- b))) /\
    (a = 0 -> F64.symmetry_pq gen = Err no_symmetry_vector) /\
    (a <> 0 ->
     exists p z,
       1 <= p <= Z.abs a /\ 1 + p * - b = z * a /\
       (forall p', 1 <= p' < p -> ~ (a | 1 + p' * - b)) /\
       F64.symmetry_pq gen = Ok (p, F64.Fin (inject_Z z))).
Proof.
  intros Hnz Hab Hbb.
  assert (H2653 : 2 ^ 26 <= 2 ^ 53) by (vm_compute; discriminate).
  destruct (f64_translation_vector_lat_basis_value gen Hnz ltac:(lia) ltac:(lia))
    as (a & b & h & t1 & t2 & Ha & Hb & Hg & Hh & Hhpos & Hheq & Hbound & Hf & _).
  set (n := fst (chirality gen)) in *. set (m := snd (chirality gen)) in *.
  set (d := Z.gcd (2 * m + n) (2 * n + m)) in *.
  assert (Hdpos : 0 < d).
  { pose proof (Z.gcd_nonneg (2 * m + n) (2 * n + m)).
    assert (d <> 0) by (intros H0; apply dR_zero_iff in H0; lia). lia. }
  assert (Haa : Z.abs a < 2 ^ 26).
  { assert (Z.abs a <= Z.abs (2 * m + n)) by (rewrite <- Ha, Z.abs_mul; nia). lia. }
  assert (Hba : Z.abs b < 2 ^ 26).
  { assert (Z.abs b <= Z.abs (2 * n + m)) by (rewrite <- Hb, Z.abs_mul; nia). lia. }
  pose proof (n_atoms_of_hex gen h Hh) as HN.
  exists a, b, h. repeat (split; [assumption |]).
  change (2 ^ 26) with 67108864 in *. change (2 ^ 53) with 9007199254740992 in *.
  split.
  - intros Ha0. unfold F64.symmetry_pq. rewrite Hf, HN. cbn [bind fst snd].
    assert (Hh2 : 2 * h < 2 ^ 53).
    { subst a. assert (Hn : n = -2 * m) by lia.
      assert (Hb' : b * d = -3 * m) by lia.
      assert (Hg' : Z.abs b = 1) by (rewrite Z.gcd_0_l in Hg; exact Hg).
      assert (Hm : Z.abs m < 2 ^ 26) by (change (2 ^ 26) with 67108864; lia).
      change (2 ^ 26) with 67108864 in Hm. change (2 ^ 53) with 9007199254740992.
      nia. }
    change (2 ^ 53) with 9007199254740992 in Hh2.
    rewrite (f64_search_none _ _ (Z.to_nat (2 * h)) 1); [reflexivity |].
    intros p Hp. subst a. apply q_of_zero.
    change (2 ^ 53) with 9007199254740992. lia.
  - intros Hane.
    destruct (exists_solution_signed a b Hane Hg) as (p0 & Hp0 & Hdiv).
    destruct (least_solution a (- b) p0 Hane ltac:(lia) Hdiv) as (p & Hp & Hpd & Hmin).
    destruct Hpd as [z Hz].
    exists p, z. split; [lia |]. split; [exact Hz |]. split; [exact Hmin |].
    unfold F64.symmetry_pq. rewrite Hf, HN. cbn [bind fst snd].
    assert (Htest : forall p', 1 <= p' <= Z.abs a ->
              exists q,
                F64.q_of (F64.Fin (inject_Z a)) (F64.Fin (inject_Z (- b))) p' = Ok q /\
                (F64.close_to_integer q = true <-> (a | 1 + p' * - b)) /\
                (forall z, 1 + p' * - b = z * a -> q = F64.Fin (inject_Z z))).
    { intros p' Hp'. apply f64_test_divides.
      - exact Hane.
      - change (2 ^ 26) with 67108864. exact Haa.
      - change (2 ^ 53) with 9007199254740992. lia.
      - change (2 ^ 52) with 4503599627370496. nia. }
    destruct (Htest p ltac:(lia)) as (q & Hq & _ & Hqz).
    rewrite (Hqz z Hz) in Hq.
    rewrite (f64_search_found _ _ (Z.to_nat (2 * h)) 1 p (F64.Fin (inject_Z z)));
      [reflexivity | lia | | exact Hq | apply close_to_integer_int].
    intros p' Hp'. destruct (Htest p' ltac:(lia)) as (q' & Hq' & Hiff & _).
    exists q'. split; [exact Hq' |].
    destruct (F64.close_to_integer q') eqn:E; [| reflexivity].
    exfalso. apply (Hmin p' Hp'). apply Hiff. reflexivity.
Qed.

Lemma f64_symmetry_vector_pq (gen : TubeGen) :
  F64.symmetry_vector gen
  = (pq <- F64.symmetry_pq gen ;;
     Ok (vadd (vscale (IZR (fst pq)) (fst (unit_vectors gen)))
              (vscale (F64.to_R (snd pq)) (snd (unit_vectors gen))))).
Proof. unfold F64.symmetry_vector. destruct (unit_vectors gen); reflexivity. Qed.



(** C5, as the code has it.  For |2m+n| and |2n+m| below 2^26,
    computed in float64: when [symmetry_vector] returns [v], then
    [v = p*a1 + q*a2] where p, between 1 and n_atoms_ucell(), is the
    smallest positive integer for which q = (1 + p*t2)/t1 is an
    integer; the q of the loop is exactly that integer, and
    t1*q - t2*p = 1 holds exactly, (t1, t2) being the lattice-basis
    translation vector.  Outside these bounds q need not be an integer:
    see the counterexample below. *)
Theorem symmetry_vector_smallest (gen : TubeGen) (v : Vec2) :
  Z.abs (2 * snd (chirality gen) + fst (chirality gen)) < 2 ^ 26 ->
  Z.abs (2 * fst (chirality gen) + snd (chirality gen)) < 2 ^ 26 ->
  F64.symmetry_vector gen = Ok v ->
  exists a b N p z,
    a * Z.gcd (2 * snd (chirality gen) + fst (chirality gen))
              (2 * fst (chirality gen) + snd (chirality gen))
    = 2 * snd (chirality gen) + fst (chirality gen) /\
    b * Z.gcd (2 * snd (chirality gen) + fst (chirality gen))
              (2 * fst (chirality gen) + snd (chirality gen))
    = 2 * fst (chirality gen) + snd (chirality gen) /\
    F64.translation_vector_lat_basis gen
    = Ok (F64.Fin (inject_Z a), F64.Fin (inject_Z (- b))) /\
    n_atoms_ucell gen = Ok N /\
    1 <= p <= N /\
    F64.symmetry_pq gen = Ok (p, F64.Fin (inject_Z z)) /\
    a <> 0 /\ 1 + p * - b = z * a /\
    a * z - - b * p = 1 /\
    (forall p' z', 1 <= p' < p -> 1 + p' * - b <> z' * a) /\
    v = vadd (vscale (IZR p) (fst (unit_vectors gen)))
             (vscale (IZR z) (snd (unit_vectors gen))).
Proof.
  intros Hab Hbb Hv.
  assert (Hnz : fst (chirality gen) <> 0 \/ snd (chirality gen) <> 0).
  { destruct (Z.eq_dec (fst (chirality gen)) 0) as [En | En]; [| left; exact En].
    destruct (Z.eq_dec (snd (chirality gen)) 0) as [Em | Em]; [| right; exact Em].
    exfalso. rewrite f64_symmetry_vector_pq in Hv.
    unfold F64.symmetry_pq, F64.translation_vector_lat_basis in Hv.
    destruct (chirality gen) as [n m]. cbn [fst snd] in En, Em. subst n m.
    discriminate Hv. }
  destruct (f64_symmetry_core gen Hnz Hab Hbb)
    as (a & b & h & Ha & Hb & Hg & Hh & Hhpos & Hbound & Haa & Hba & Hf & Hzero & Hfound).
  rewrite f64_symmetry_vector_pq in Hv.
  destruct (Z.eq_dec a 0) as [E | E].
  { rewrite (Hzero E) in Hv. discriminate Hv. }
  destruct (Hfound E) as (p & z & Hp & Hz & Hmin & Hs).
  rewrite Hs in Hv. cbn [bind fst snd F64.to_R] in Hv. rewrite Q2R_inject_Z in Hv.
  apply Ok_inj in Hv.
  exists a, b, (2 * h), p, z.
  split; [exact Ha |]. split; [exact Hb |]. split; [exact Hf |].
  split; [apply n_atoms_of_hex; exact Hh |]. split; [lia |].
  split; [exact Hs |]. split; [exact E |]. split; [exact Hz |]. split; [lia |].
  split; [| symmetry; exact Hv].
  intros p' z' Hp' Hz'. apply (Hmin p' Hp'). exists z'. exact Hz'.
Qed.

Lemma symmetry_vector_smallest_witness :
  F64.symmetry_vector gen_3_1 = Ok symmetry_vector_3_1 /\
  exists a b N p z,
    a * Z.gcd (2 * snd (chirality gen_3_1) + fst (chirality gen_3_1))
              (2 * fst (chirality gen_3_1) + snd (chirality gen_3_1))
    = 2 * snd (chirality gen_3_1) + fst (chirality gen_3_1) /\
    b * Z.gcd (2 * snd (chirality gen_3_1) + fst (chirality gen_3_1))
              (2 * fst (chirality gen_3_1) + snd (chirality gen_3_1))
    = 2 * fst (chirality gen_3_1) + snd (chirality gen_3_1) /\
    F64.translation_vector_lat_basis gen_3_1
    = Ok (F64.Fin (inject_Z a), F64.Fin (inject_Z (- b))) /\
    n_atoms_ucell gen_3_1 = Ok N /\
    1 <= p <= N /\
    F64.symmetry_pq gen_3_1 = Ok (p, F64.Fin (inject_Z z)) /\
    a <> 0 /\ 1 + p * - b = z * a /\
    a * z - - b * p = 1 /\
    (forall p' z', 1 <= p' < p -> 1 + p' * - b <> z' * a) /\
    symmetry_vector_3_1
    = vadd (vscale (IZR p) (fst (unit_vectors gen_3_1)))
           (vscale (IZR z) (snd (unit_vectors gen_3_1))).
Proof.
  assert (H : F64.symmetry_vector gen_3_1 = Ok symmetry_vector_3_1).
  { rewrite f64_symmetry_vector_pq.
    assert (Hpq : F64.symmetry_pq gen_3_1 = Ok (3, F64.Fin (inject_Z (-4))))
      by (vm_compute; reflexivity).
    rewrite Hpq. reflexivity. }
  split; [exact H |].
  apply (symmetry_vector_smallest gen_3_1 symmetry_vector_3_1).
  - vm_compute. reflexivity.
  - vm_compute. reflexivity.
  - exact H.
Defined.

(** X3.  For a chirality other than (0, 0) with |2m+n| and |2n+m| at
    most 2^53, the two float64 entries of
    [translation_vector_lat_basis] are exactly the integers
    a = (2m+n)/dR and -b = -(2n+m)/dR; a and b are coprime, and
    n*t2 - m*t1 = -n_hex_ucell(): the cell spanned by Ch and T holds
    n_hex_ucell() hexagons. *)
Theorem translation_vector_lat_basis_coprime (gen : TubeGen) :
  fst (chirality gen) <> 0 \/ snd (chirality gen) <> 0 ->
  Z.abs (2 * snd (chirality gen) + fst (chirality gen)) <= 2 ^ 53 ->
  Z.abs (2 * fst (chirality gen) + snd (chirality gen)) <= 2 ^ 53 ->
  exists a b h,
    F64.translation_vector_lat_basis gen
    = Ok (F64.Fin (inject_Z a), F64.Fin (inject_Z (- b))) /\
    a * Z.gcd (2 * snd (chirality gen) + fst (chirality gen))
              (2 * fst (chirality gen) + snd (chirality gen))
    = 2 * snd (chirality gen) + fst (chirality gen) /\
    b * Z.gcd (2 * snd (chirality gen) + fst (chirality gen))
              (2 * fst (chirality gen) + snd (chirality gen))
    = 2 * fst (chirality gen) + snd (chirality gen) /\
    Z.gcd a b = 1 /\
    n_hex_ucell gen = Ok h /\
    fst (chirality gen) * - b - snd (chirality gen) * a = - h.
Proof.
  intros Hnz Hab Hbb.
  destruct (f64_translation_vector_lat_basis_value gen Hnz Hab Hbb)
    as (a & b & h & t1 & t2 & Ha & Hb & Hg & Hh & _ & Hheq & _ & Hf & _).
  exists a, b, h. repeat (split; [assumption |]). lia.
Qed.

Lemma translation_vector_lat_basis_coprime_witness :
  exists a b h,
    F64.translation_vector_lat_basis gen_3_1
    = Ok (F64.Fin (inject_Z a), F64.Fin (inject_Z (- b))) /\
    a * Z.gcd (2 * snd (chirality gen_3_1) + fst (chirality gen_3_1))
              (2 * fst (chirality gen_3_1) + snd (chirality gen_3_1))
    = 2 * snd (chirality gen_3_1) + fst (chirality gen_3_1) /\
    b * Z.gcd (2 * snd (chirality gen_3_1) + fst (chirality gen_3_1))
              (2 * fst (chirality gen_3_1) + snd (chirality gen_3_1))
    = 2 * fst (chirality gen_3_1) + snd (chirality gen_3_1) /\
    Z.gcd a b = 1 /\
    n_hex_ucell gen_3_1 = Ok h /\
    fst (chirality gen_3_1) * - b - snd (chirality gen_3_1) * a = - h.
Proof.
  apply (translation_vector_lat_basis_coprime gen_3_1).
  - left. simpl. lia.
  - vm_compute. discriminate.
  - vm_compute. discriminate.
Defined.

(** Beyond 53 bits the entries are rounded: for chirality (2^53, 1)
    the second entry is -2^54 where the quotient is -(2^54 + 1). *)
Example translation_vector_lat_basis_rounds :
  F64.translation_vector_lat_basis (mkTubeGen (2 ^ 53, 1) 1%R)
  = Ok (F64.Fin (inject_Z (2 ^ 53 + 2)), F64.Fin (inject_Z (- 2 ^ 54))).
Proof. vm_compute. reflexivity. Qed.

Example translation_vector_lat_basis_overflows :
  F64.translation_vector_lat_basis (mkTubeGen (10 ^ 400, 1) 1%R) = Err OverflowError.
Proof. vm_compute. reflexivity. Qed.

(** For chirality (10^17 + 3, 10^17 + 1) both entries round to
    3*10^17 in absolute value and the loop accepts p = 1 with
    q = -1. *)
Example symmetry_pq_rounded_entries :
  F64.translation_vector_lat_basis (mkTubeGen (10 ^ 17 + 3, 10 ^ 17 + 1) 1%R)
  = Ok (F64.Fin (inject_Z (3 * 10 ^ 17)), F64.Fin (inject_Z (- (3 * 10 ^ 17)))) /\
  F64.q_of (F64.Fin (inject_Z (3 * 10 ^ 17))) (F64.Fin (inject_Z (- (3 * 10 ^ 17)))) 1
  = Ok (F64.Fin (inject_Z (-1))).
Proof. split; vm_compute; reflexivity. Qed.



(** C5, counterexample.  For chirality (5*10^10, 1) the translation
    vector is (50000000002, -100000000001) and the loop stops at p = 1
    with q = -1.99999999992, which lies strictly between -2 and -1:
    the test lets it pass because q % 1 is below 1e-10, and that q is
    not an integer. *)
Lemma symmetry_vector_not_integer_counterexample :
  exists q,
    F64.symmetry_pq (mkTubeGen (50000000000, 1) 1%R) = Ok (1, F64.Fin q) /\
    (inject_Z (-2) < q)%Q /\ (q < inject_Z (-1))%Q.
Proof.
  exists (-281474976699397 # 140737488355328)%Q.
  split; [| split; reflexivity].
  unfold F64.symmetry_pq.
  assert (Ht : F64.translation_vector_lat_basis (mkTubeGen (50000000000, 1) 1%R)
               = Ok (F64.Fin (inject_Z 50000000002), F64.Fin (inject_Z (-100000000001))))
    by (vm_compute; reflexivity).
  assert (HN : n_atoms_ucell (mkTubeGen (50000000000, 1) 1%R)
               = Ok 10000000000200000000004) by (vm_compute; reflexivity).
  rewrite Ht, HN. cbn [bind fst snd].
  destruct (Z.to_nat 10000000000200000000004) as [| cnt] eqn:E; [lia |].
  cbn [F64.search_p].
  assert (Hq : F64.q_of (F64.Fin (inject_Z 50000000002))
                 (F64.Fin (inject_Z (-100000000001))) 1
               = Ok (F64.Fin (-281474976699397 # 140737488355328)))
    by (vm_compute; reflexivity).
  rewrite Hq. cbn [bind].
  assert (Hc : F64.close_to_integer (F64.Fin (-281474976699397 # 140737488355328)) = true)
    by (vm_compute; reflexivity).
  rewrite Hc. reflexivity.
Qed.

(** * Three neighbours at every site of a doubly periodic ribbon *)






(** ** Positions folded into the cell *)









(** ** Lattice points modulo the cell *)



(** ** The vectors of a tube within the float range *)






(** ** Every lookup of [_connect_sites] hits *)
















